(** * A* path finding on a weighted grid (AStar.ts): model and verification

    The development follows the source file class by class:
    [GridNode] and [Graph] (node arena, two-dimensional index, dirty list),
    [BinaryHeap] (array-backed min-heap whose score is read live), and the
    [AStar] driver ([search], [pathTo], [getNodeCost], heuristics).

    Modelling conventions.
    - A JavaScript [number] is an exact rational ([Q]); rounding, NaN and
      infinities are outside the model.  [1.41421] is [141421 # 100000].
    - The 32-bit conversions made by [>>] and [<<] are the identity on the
      array indices that occur, so shifts are [Z.shiftr] and [Z.shiftl].
    - Objects are shared by reference in the source.  A node reference is
      its index in [Graph.nodes] (the arena that owns every node); [grid],
      [dirtyNodes], [parent] and the heap hold such references.
    - A JavaScript array is its dense element list plus the own property
      ["-1"], the only non-index property the heap code can create.
    - Run-time errors and the loop bounds of the model are explicit in the
      result type [res]. *)

From Stdlib Require Import ZArith QArith Qround Qabs Lqa Lia.
From Stdlib Require Import String Ascii DecimalString DecimalZ.
From stdpp Require Import base tactics option list.

Local Open Scope Z_scope.

(** ** Results: a value, or one of three faults *)

Inductive fault :=
| TypeError   (* the JavaScript run time raises: a property of undefined is read *)
| OutOfFuel   (* the iteration bound given to a loop of the model was too small *)
| OutOfModel. (* an array write that would leave a hole or a property other than -1 *)

Inductive res (A : Type) :=
| Ok (a : A)
| Fail (e : fault).
Arguments Ok {A} a.
Arguments Fail {A} e.

Definition res_bind {A B} (c : res A) (k : A -> res B) : res B :=
  match c with
  | Ok a => k a
  | Fail e => Fail e
  end.

Notation "'do' x <- c ; k" := (res_bind c (fun x => k))
  (at level 10, x name, c at level 100, k at level 200).
Notation "'do' ' p <- c ; k" := (res_bind c (fun p => k))
  (at level 10, p pattern, c at level 100, k at level 200).

(** ** Numbers *)

(** [a < b] on numbers. *)
Definition Qltb (a b : Q) : bool := negb (Qle_bool b a).

(** The literal [1.41421] of [getNodeCost]. *)
Definition diag_factor : Q := 141421 # 100000.

(** ** GridNode *)

(** A node reference: an index into [Graph.nodes]. *)
#[warning="-notation-for-abbreviation"]
Notation ref := nat (only parsing).

Module Node.
Record GridNode := mk {
  x : Z;
  y : Z;
  w : Q;                 (* weight, 0 = wall *)
  f : Q;
  g : Q;
  h : Q;
  visited : bool;
  closed : bool;
  parent : option ref
}.

Definition set_f (v : Q) (n : GridNode) : GridNode :=
  mk (x n) (y n) (w n) v (g n) (h n) (visited n) (closed n) (parent n).
Definition set_g (v : Q) (n : GridNode) : GridNode :=
  mk (x n) (y n) (w n) (f n) v (h n) (visited n) (closed n) (parent n).
Definition set_h (v : Q) (n : GridNode) : GridNode :=
  mk (x n) (y n) (w n) (f n) (g n) v (visited n) (closed n) (parent n).
Definition set_visited (v : bool) (n : GridNode) : GridNode :=
  mk (x n) (y n) (w n) (f n) (g n) (h n) v (closed n) (parent n).
Definition set_closed (v : bool) (n : GridNode) : GridNode :=
  mk (x n) (y n) (w n) (f n) (g n) (h n) (visited n) v (parent n).
Definition set_parent (v : option ref) (n : GridNode) : GridNode :=
  mk (x n) (y n) (w n) (f n) (g n) (h n) (visited n) (closed n) v.
End Node.

(** ** JavaScript arrays of node references *)

Record jsarray := mkArr {
  items : list ref;        (* elements 0 .. length-1 *)
  minus1 : option ref      (* own property "-1", if any *)
}.

Definition arr_empty : jsarray := mkArr [] None.

Definition alength (a : jsarray) : Z := Z.of_nat (length (items a)).

(** [a[i]]; [None] is [undefined]. *)
Definition aget (a : jsarray) (i : Z) : option ref :=
  if i =? -1 then minus1 a
  else if i <? 0 then None
  else items a !! Z.to_nat i.

(** [a[i] = v]. *)
Definition aset (a : jsarray) (i : Z) (v : ref) : res jsarray :=
  if i =? -1 then Ok (mkArr (items a) (Some v))
  else if (0 <=? i) && (i <? alength a) then Ok (mkArr (<[Z.to_nat i := v]> (items a)) (minus1 a))
  else if i =? alength a then Ok (mkArr (items a ++ [v]) (minus1 a))
  else Fail OutOfModel.

(** [a.push(v)]. *)
Definition apush (a : jsarray) (v : ref) : jsarray :=
  mkArr (items a ++ [v]) (minus1 a).

(** [a.pop()]: the removed last element, [undefined] on an empty array. *)
Definition apop (a : jsarray) : option ref * jsarray :=
  (last (items a), mkArr (removelast (items a)) (minus1 a)).

Fixpoint indexOf_from (l : list ref) (node : ref) (i : Z) : Z :=
  match l with
  | [] => -1
  | v :: l' => if Nat.eqb v node then i else indexOf_from l' node (i + 1)
  end.

(** [a.indexOf(node)]: first index holding [node], [-1] if there is none. *)
Definition indexOf (a : jsarray) (node : ref) : Z := indexOf_from (items a) node 0.

(** ** BinaryHeap

    [content] is the array; [scoreFunction] reads the score of a node from
    the current node store, so it is a parameter of every operation. *)

Section BinaryHeap.
Variable scoreFunction : ref -> Q.

Fixpoint sinkDown_loop (fuel : nat) (element : option ref) (n : Z) (content : jsarray)
  : res jsarray :=
  if n >? 0 then
    match fuel with
    | O => Fail OutOfFuel
    | S fuel' =>
        let parentN := Z.shiftr (n + 1) 1 - 1 in
        let parent := aget content parentN in
        match element, parent with
        | Some e, Some p =>
            if Qltb (scoreFunction e) (scoreFunction p) then
              do c1 <- aset content parentN e;
              do c2 <- aset c1 n p;
              sinkDown_loop fuel' element parentN c2
            else Ok content
        | _, _ => Fail TypeError
        end
    end
  else Ok content.

Definition sinkDown (n : Z) (content : jsarray) : res jsarray :=
  sinkDown_loop (Z.to_nat n) (aget content n) n content.

(** [a < b] where [b] may be [undefined] (the comparison is then false). *)
Definition lt_undef (a : Q) (b : option Q) : bool :=
  match b with
  | Some b' => Qltb a b'
  | None => false
  end.

Fixpoint bubbleUp_loop (fuel : nat) (length : Z) (element : ref) (elemScore : Q)
    (n : Z) (content : jsarray) : res jsarray :=
  match fuel with
  | O => Fail OutOfFuel
  | S fuel' =>
      let child2N := Z.shiftl (n + 1) 1 in
      let child1N := child2N - 1 in
      do '(swap, child1Score) <-
        (if child1N <? length then
           match aget content child1N with
           | Some child1 =>
               let child1Score := scoreFunction child1 in
               Ok (if Qltb child1Score elemScore then Some child1N else None,
                   Some child1Score)
           | None => Fail TypeError
           end
         else Ok (None, None));
      do swap <-
        (if child2N <? length then
           match aget content child2N with
           | Some child2 =>
               let child2Score := scoreFunction child2 in
               Ok (if lt_undef child2Score
                        (match swap with None => Some elemScore | Some _ => child1Score end)
                   then Some child2N else swap)
           | None => Fail TypeError
           end
         else Ok swap);
      match swap with
      | Some sw =>
          match aget content sw with
          | Some v =>
              do c1 <- aset content n v;
              do c2 <- aset c1 sw element;
              bubbleUp_loop fuel' length element elemScore sw c2
          | None => Fail OutOfModel
          end
      | None => Ok content
      end
  end.

Definition bubbleUp (n : Z) (content : jsarray) : res jsarray :=
  match aget content n with
  | Some element =>
      bubbleUp_loop (S (length (items content))) (alength content)
        element (scoreFunction element) n content
  | None => Fail TypeError
  end.

Definition push (e : ref) (content : jsarray) : res jsarray :=
  let c := apush content e in
  sinkDown (alength c - 1) c.

Definition pop (content : jsarray) : res (option ref * jsarray) :=
  let result := aget content 0 in
  let '(end_, c) := apop content in
  if alength c >? 0 then
    match end_ with
    | Some e =>
        do c1 <- aset c 0 e;
        do c2 <- bubbleUp 0 c1;
        Ok (result, c2)
    | None => Fail OutOfModel
    end
  else Ok (result, c).

Definition remove (node : ref) (content : jsarray) : res jsarray :=
  let i := indexOf content node in
  let '(end_, c) := apop content in
  if negb (i =? alength c - 1) then
    match end_ with
    | Some e =>
        do c1 <- aset c i e;
        if Qltb (scoreFunction e) (scoreFunction node) then sinkDown i c1
        else bubbleUp i c1
    | None => Fail TypeError
    end
  else Ok c.

Definition size (content : jsarray) : Z := alength content.

Definition rescoreElement (node : ref) (content : jsarray) : res jsarray :=
  sinkDown (indexOf content node) content.

End BinaryHeap.

(** ** Graph *)

Record Graph := mkGraph {
  nodes : list Node.GridNode;   (* the arena: every node, in creation order *)
  grid : list (list ref);       (* two-dimensional index of the same nodes *)
  diagonal : bool;
  dirtyNodes : list ref
}.

(** [AStar.cleanNode]: the six assignments, on the node value. *)
Definition clean (n : Node.GridNode) : Node.GridNode :=
  Node.set_parent None
    (Node.set_closed false
       (Node.set_visited false (Node.set_h 0 (Node.set_g 0 (Node.set_f 0 n))))).

(** A field update of the object behind a reference. *)
Definition update_node (r : ref) (fn : Node.GridNode -> Node.GridNode) (gr : Graph) : Graph :=
  mkGraph (alter fn r (nodes gr)) (grid gr) (diagonal gr) (dirtyNodes gr).

Definition cleanNode (r : ref) (gr : Graph) : Graph := update_node r clean gr.

(** Reading through a reference; a reference outside the arena is no object. *)
Definition get_node (gr : Graph) (r : ref) : res Node.GridNode :=
  match nodes gr !! r with
  | Some n => Ok n
  | None => Fail TypeError
  end.

Definition init (gr : Graph) : Graph :=
  let gr0 := mkGraph (nodes gr) (grid gr) (diagonal gr) [] in
  foldl (fun acc i => cleanNode i acc) gr0 (seq 0 (length (nodes gr))).

(** Inner loop of the constructor: the cells of row [i] from column [j] on. *)
Fixpoint build_row (i j : Z) (row : list Q) (ns : list Node.GridNode)
  : list ref * list Node.GridNode :=
  match row with
  | [] => ([], ns)
  | wt :: row' =>
      let node := Node.mk i j wt 0 0 0 false false None in
      let r := length ns in
      let '(refs, ns') := build_row i (j + 1) row' (ns ++ [node]) in
      (r :: refs, ns')
  end.

(** Outer loop of the constructor: rows from index [i] on. *)
Fixpoint build_grid (i : Z) (gridIn : list (list Q)) (ns : list Node.GridNode)
  : list (list ref) * list Node.GridNode :=
  match gridIn with
  | [] => ([], ns)
  | row :: rest =>
      let '(refs, ns1) := build_row i 0 row ns in
      let '(rows, ns2) := build_grid (i + 1) rest ns1 in
      (refs :: rows, ns2)
  end.

(** [new Graph(gridIn, diagonal)]. *)
Definition Graph_new (gridIn : list (list Q)) (diag : bool) : Graph :=
  let '(rows, ns) := build_grid 0 gridIn [] in
  init (mkGraph ns rows diag []).

Definition markDirty (node : ref) (gr : Graph) : Graph :=
  mkGraph (nodes gr) (grid gr) (diagonal gr) (dirtyNodes gr ++ [node]).

Definition cleanDirty (gr : Graph) : Graph :=
  let gr1 := foldl (fun acc r => cleanNode r acc) gr (dirtyNodes gr) in
  mkGraph (nodes gr1) (grid gr1) (diagonal gr1) [].

(** [l[i]] for a number [i]; [None] is [undefined]. *)
Definition zlookup {A} (l : list A) (i : Z) : option A :=
  if i <? 0 then None else l !! Z.to_nat i.

(** [grid[a] && grid[a][b]]: rows and nodes are objects, hence truthy. *)
Definition grid_at (gd : list (list ref)) (a b : Z) : option ref :=
  match zlookup gd a with
  | Some row => zlookup row b
  | None => None
  end.

(** [if (c) ret.push(c)]. *)
Definition push_if (c : option ref) (ret : list ref) : list ref :=
  match c with
  | Some r => ret ++ [r]
  | None => ret
  end.

Definition neighbors (gr : Graph) (node : Node.GridNode) : list ref :=
  let x := Node.x node in
  let y := Node.y node in
  let gd := grid gr in
  let ret := [] in
  let ret := push_if (grid_at gd (x - 1) y) ret in        (* L *)
  let ret := push_if (grid_at gd (x + 1) y) ret in        (* R *)
  let ret := push_if (grid_at gd x (y - 1)) ret in        (* B *)
  let ret := push_if (grid_at gd x (y + 1)) ret in        (* T *)
  if diagonal gr then
    let ret := push_if (grid_at gd (x - 1) (y - 1)) ret in  (* LB *)
    let ret := push_if (grid_at gd (x + 1) (y - 1)) ret in  (* RB *)
    let ret := push_if (grid_at gd (x - 1) (y + 1)) ret in  (* LT *)
    let ret := push_if (grid_at gd (x + 1) (y + 1)) ret in  (* RT *)
    ret
  else ret.

(** ** AStar *)

Definition pos : Type := Z * Z.
Definition pos_of (n : Node.GridNode) : pos := (Node.x n, Node.y n).
Definition heuristic_fn : Type := pos -> pos -> Q.

Definition manhattan : heuristic_fn := fun pos0 pos1 =>
  inject_Z (Z.abs (fst pos1 - fst pos0) + Z.abs (snd pos1 - snd pos0)).

(** [heuristics.diagonal], for a given value [D2] of [Math.sqrt(2)]
    (which no rational equals). *)
Definition diagonal_heuristic (D2 : Q) : heuristic_fn := fun pos0 pos1 =>
  let D := 1%Q in
  let d1 := Z.abs (fst pos1 - fst pos0) in
  let d2 := Z.abs (snd pos1 - snd pos0) in
  (D * inject_Z (d1 + d2) + (D2 - 2 * D) * inject_Z (Z.min d1 d2))%Q.

(** [heuristic || AStar.heuristics.manhattan]. *)
Definition heuristic_or_default (heuristic : option heuristic_fn) : heuristic_fn :=
  match heuristic with
  | Some hf => hf
  | None => manhattan
  end.

Definition isNodeWall (node : Node.GridNode) : bool := Qeq_bool (Node.w node) 0.

Definition getNodeCost (node : Node.GridNode) (fromNeighbor : option Node.GridNode) : Q :=
  match fromNeighbor with
  | Some fromN =>
      if negb (Node.x fromN =? Node.x node) && negb (Node.y fromN =? Node.y node)
      then (Node.w node * diag_factor)%Q
      else Node.w node
  | None => Node.w node
  end.

(** The default score of [getHeap]: [node.f], read from the current arena. *)
Definition score_f (gr : Graph) : ref -> Q := fun r =>
  match nodes gr !! r with
  | Some n => Node.f n
  | None => 0%Q
  end.

Fixpoint pathTo_loop (fuel : nat) (gr : Graph) (curr : ref) (path : list ref)
  : res (list ref) :=
  do c <- get_node gr curr;
  match Node.parent c with
  | Some p =>
      match fuel with
      | O => Fail OutOfFuel
      | S fuel' => pathTo_loop fuel' gr p (curr :: path)
      end
  | None => Ok path
  end.

Definition pathTo (gr : Graph) (node : ref) : res (list ref) :=
  pathTo_loop (length (nodes gr)) gr node [].

(** *** Ghost trace

    The calls [search] makes on its heap, with the heap elements before and
    after the call, and the relaxations it performs.  The trace is not part
    of the source; it records what the source does, newest event first. *)

Inductive heap_call :=
| CallPush (node : ref)
| CallPop (result : option ref)
| CallRescore (node : ref).

Inductive event :=
| EvHeap (c : heap_call) (before after : list ref)
| EvRelax (node : ref) (beenVisited : bool) (updated : Node.GridNode).

Record state := mkState {
  st_graph : Graph;
  st_heap : jsarray;          (* openHeap.content *)
  st_closest : ref;           (* closestNode *)
  st_trace : list event
}.

Section Search.
Variable end_ : ref.
Variable closest : bool.
Variable heuristic : heuristic_fn.

(** Body of the [for] loop over the neighbours of [currentNode]. *)
Definition visit (currentNode : ref) (st : state) (neighbor : ref) : res state :=
  let gr := st_graph st in
  do nb <- get_node gr neighbor;
  if Node.closed nb || isNodeWall nb then Ok st
  else
    do cn <- get_node gr currentNode;
    let gScore := (Node.g cn + getNodeCost nb (Some cn))%Q in
    let beenVisited := Node.visited nb in
    if negb beenVisited || Qltb gScore (Node.g nb) then
      do en <- get_node gr end_;
      let hv := if Qeq_bool (Node.h nb) 0 then heuristic (pos_of nb) (pos_of en)
                else Node.h nb in
      let upd := fun n =>
        Node.set_f (gScore + hv)
          (Node.set_g gScore
             (Node.set_h hv (Node.set_parent (Some currentNode) (Node.set_visited true n)))) in
      let gr1 := markDirty neighbor (update_node neighbor upd gr) in
      do nb1 <- get_node gr1 neighbor;
      do cl <- get_node gr1 (st_closest st);
      let closestNode :=
        if closest &&
           (Qltb (Node.h nb1) (Node.h cl)
            || (Qeq_bool (Node.h nb1) (Node.h cl) && Qltb (Node.g nb1) (Node.g cl)))
        then neighbor else st_closest st in
      let tr := EvRelax neighbor beenVisited nb1 :: st_trace st in
      if negb beenVisited then
        do hp <- push (score_f gr1) neighbor (st_heap st);
        Ok (mkState gr1 hp closestNode
              (EvHeap (CallPush neighbor) (items (st_heap st)) (items hp) :: tr))
      else
        do hp <- rescoreElement (score_f gr1) neighbor (st_heap st);
        Ok (mkState gr1 hp closestNode
              (EvHeap (CallRescore neighbor) (items (st_heap st)) (items hp) :: tr))
    else Ok st.

Fixpoint visit_all (currentNode : ref) (st : state) (nbs : list ref) : res state :=
  match nbs with
  | [] => Ok st
  | neighbor :: rest =>
      do st' <- visit currentNode st neighbor;
      visit_all currentNode st' rest
  end.

(** The [while] loop and what follows it. *)
Fixpoint search_loop (fuel : nat) (st : state) : res (list ref * state) :=
  if size (st_heap st) >? 0 then
    match fuel with
    | O => Fail OutOfFuel
    | S fuel' =>
        do '(currentNode, hp) <- pop (score_f (st_graph st)) (st_heap st);
        let tr := EvHeap (CallPop currentNode) (items (st_heap st)) (items hp)
                    :: st_trace st in
        match currentNode with
        | None => Fail TypeError
        | Some cur =>
            if Nat.eqb cur end_ then
              do path <- pathTo (st_graph st) cur;
              Ok (path, mkState (st_graph st) hp (st_closest st) tr)
            else
              let gr1 := update_node cur (Node.set_closed true) (st_graph st) in
              do cn <- get_node gr1 cur;
              do st' <- visit_all cur (mkState gr1 hp (st_closest st) tr) (neighbors gr1 cn);
              search_loop fuel' st'
        end
    end
  else if closest then
    do path <- pathTo (st_graph st) (st_closest st);
    Ok (path, st)
  else Ok ([], st).

End Search.

(** [AStar.search(graph, start, end, closest, heuristic)]: the returned
    path, and the final state (graph as mutated, heap, trace). *)
Definition search (graph : Graph) (start end_ : ref) (closest : bool)
    (heuristic : option heuristic_fn) : res (list ref * state) :=
  let gr := cleanDirty graph in
  let heur := heuristic_or_default heuristic in
  let openHeap := arr_empty in
  let closestNode := start in
  do s <- get_node gr start;
  do e <- get_node gr end_;
  let gr := update_node start (Node.set_h (heur (pos_of s) (pos_of e))) gr in
  let gr := markDirty start gr in
  do hp <- push (score_f gr) start openHeap;
  search_loop end_ closest heur (length (nodes gr))
    (mkState gr hp closestNode [EvHeap (CallPush start) (items openHeap) (items hp)]).

(** Cost of the move from [u] onto [v]: [getNodeCost(v, u)]. *)
Definition step_cost (gr : Graph) (u v : ref) : Q :=
  match nodes gr !! v, nodes gr !! u with
  | Some nv, Some nu => getNodeCost nv (Some nu)
  | _, _ => 0%Q
  end.

(** Sum of the step costs along [path], entered from [from]. *)
Fixpoint path_cost (gr : Graph) (from : ref) (path : list ref) : Q :=
  match path with
  | [] => 0
  | r :: rest => step_cost gr from r + path_cost gr r rest
  end%Q.

(** The reference of the node at row [i], column [j]. *)
Definition node_at (gr : Graph) (i j : Z) : option ref := grid_at (grid gr) i j.

(** ** Specification vocabulary *)

#[global] Instance Q_eq_dec : EqDecision Q.
Proof. solve_decision. Defined.

#[global] Instance GridNode_eq_dec : EqDecision Node.GridNode.
Proof. solve_decision. Defined.

(** *** Heap order *)

(** Index of the parent position, as [sinkDown] computes it. *)
Definition parent_index (i : Z) : Z := Z.shiftr (i + 1) 1 - 1.

(** Every element at a non-root position scores at least as much as the
    element at its parent position. *)
Definition heap_ok (score : ref -> Q) (l : list ref) : Prop :=
  forall i c p, 0 < i -> zlookup l i = Some c -> zlookup l (parent_index i) = Some p ->
    (score p <= score c)%Q.

(** The order holds at every position except possibly [n] (against its
    parent), and the children of [n] are no smaller than the parent of
    [n]: the state of [sinkDown] while its element sits at [n]. *)
Definition sink_inv (score : ref -> Q) (l : list ref) (n : Z) : Prop :=
  (forall i c p, 0 < i -> i <> n -> zlookup l i = Some c ->
     zlookup l (parent_index i) = Some p -> (score p <= score c)%Q) /\
  (forall i c q, 0 < n -> parent_index i = n -> zlookup l i = Some c ->
     zlookup l (parent_index n) = Some q -> (score q <= score c)%Q).

(** The order holds at every position whose parent is not [n], and the
    children of [n] are no smaller than the parent of [n]: the state of
    [bubbleUp] while its element sits at [n]. *)
Definition bubble_inv (score : ref -> Q) (l : list ref) (n : Z) : Prop :=
  (forall i c p, 0 < i -> parent_index i <> n -> zlookup l i = Some c ->
     zlookup l (parent_index i) = Some p -> (score p <= score c)%Q) /\
  (forall i c q, 0 < n -> parent_index i = n -> zlookup l i = Some c ->
     zlookup l (parent_index n) = Some q -> (score q <= score c)%Q).

Inductive heap_op :=
| OpPush (e : ref)
| OpPop
| OpRemove (node : ref)
| OpRescore (node : ref).

Definition run_op (score : ref -> Q) (op : heap_op) (content : jsarray) : res jsarray :=
  match op with
  | OpPush e => push score e content
  | OpPop => do '(_, c) <- pop score content; Ok c
  | OpRemove node => remove score node content
  | OpRescore node => rescoreElement score node content
  end.

Fixpoint run_ops (score : ref -> Q) (ops : list heap_op) (content : jsarray) : res jsarray :=
  match ops with
  | [] => Ok content
  | op :: rest => do c <- run_op score op content; run_ops score rest c
  end.

(** What a caller whose scores change does: a heap call, or the lowering
    of a node's score followed by [rescoreElement] on that node, as
    [search] does with [f]. *)
Inductive caller_op :=
| CallerHeap (op : heap_op)
| CallerLower (node : ref) (q : Q).

Definition set_score (score : ref -> Q) (node : ref) (q : Q) : ref -> Q :=
  fun r => if decide (r = node) then q else score r.

Definition run_caller_op (score : ref -> Q) (op : caller_op) (content : jsarray)
  : res ((ref -> Q) * jsarray) :=
  match op with
  | CallerHeap op => do c <- run_op score op content; Ok (score, c)
  | CallerLower node q =>
      let score' := set_score score node q in
      do c <- rescoreElement score' node content; Ok (score', c)
  end.

Fixpoint run_caller (score : ref -> Q) (ops : list caller_op) (content : jsarray)
  : res ((ref -> Q) * jsarray) :=
  match ops with
  | [] => Ok (score, content)
  | op :: rest =>
      do '(score', c) <- run_caller_op score op content;
      run_caller score' rest c
  end.

(** The discipline [search] follows: no node is pushed twice, and a score
    is only ever lowered. *)
Fixpoint caller_okb (score : ref -> Q) (pushed : list ref) (ops : list caller_op) : bool :=
  match ops with
  | [] => true
  | CallerHeap (OpPush e) :: rest =>
      bool_decide (e ∉ pushed) && caller_okb score (e :: pushed) rest
  | CallerHeap _ :: rest => caller_okb score pushed rest
  | CallerLower node q :: rest =>
      Qle_bool q (score node) && caller_okb (set_score score node q) pushed rest
  end.

(** *** Nodes and graphs *)

(** The transient fields of a node are at baseline. *)
Definition baseline (n : Node.GridNode) : Prop :=
  Node.f n = 0%Q /\ Node.g n = 0%Q /\ Node.h n = 0%Q /\
  Node.visited n = false /\ Node.closed n = false /\ Node.parent n = None.

Definition baselineb (n : Node.GridNode) : bool := bool_decide (n = clean n).

Fixpoint row_okb (ns : list Node.GridNode) (i j : Z) (row : list ref) : bool :=
  match row with
  | [] => true
  | r :: row' =>
      match ns !! r with
      | Some n => (Node.x n =? i) && (Node.y n =? j)
      | None => false
      end && row_okb ns i (j + 1) row'
  end.

Fixpoint grid_okb (ns : list Node.GridNode) (i : Z) (gd : list (list ref)) : bool :=
  match gd with
  | [] => true
  | row :: rest => row_okb ns i 0 row && grid_okb ns (i + 1) rest
  end.

Fixpoint clean_from (ns : list Node.GridNode) (r : ref) (dirty : list ref) : bool :=
  match ns with
  | [] => true
  | n :: ns' => (baselineb n || bool_decide (r ∈ dirty)) && clean_from ns' (S r) dirty
  end.

(** A graph as the constructor and [search] leave it: the node indexed at
    row [i], column [j] has coordinates [(i, j)], and every node outside the
    dirty list is at baseline. *)
Definition graph_wfb (gr : Graph) : bool :=
  grid_okb (nodes gr) 0 (grid gr) && clean_from (nodes gr) 0%nat (dirtyNodes gr).

(** The positions [neighbors] looks at, in its order. *)
Definition neighbor_offsets (diag : bool) : list (Z * Z) :=
  [(-1, 0); (1, 0); (0, -1); (0, 1)] ++
  (if diag then [(-1, -1); (1, -1); (-1, 1); (1, 1)] else []).

(** The in-bounds adjacent nodes of position [(x, y)], in that order. *)
Definition neighbors_spec (gr : Graph) (x y : Z) : list ref :=
  omap (fun d => node_at gr (x + fst d) (y + snd d)) (neighbor_offsets (diagonal gr)).

(** *** Paths *)

(** One move of the search: [v] is a neighbour of [u] and is not a wall. *)
Definition step_ok (gr : Graph) (u v : ref) : bool :=
  match nodes gr !! u, nodes gr !! v with
  | Some nu, Some nv => bool_decide (v ∈ neighbors gr nu) && negb (isNodeWall nv)
  | _, _ => false
  end.

Fixpoint valid_path (gr : Graph) (from : ref) (path : list ref) : bool :=
  match path with
  | [] => true
  | r :: rest => step_ok gr from r && valid_path gr r rest
  end.

(** The node a path entered from [from] ends at. *)
Definition path_end (from : ref) (path : list ref) : ref := List.last path from.
Arguments path_end : simpl never.

(** The heuristic value of a node towards [end_]. *)
Definition h_of (gr : Graph) (heur : heuristic_fn) (end_ u : ref) : Q :=
  match nodes gr !! u, nodes gr !! end_ with
  | Some nu, Some ne => heur (pos_of nu) (pos_of ne)
  | _, _ => 0%Q
  end.

(** The heuristic never overestimates the cost of a path to [end_]. *)
Definition admissible (gr : Graph) (heur : heuristic_fn) (end_ : ref) : Prop :=
  forall u path, (u < length (nodes gr))%nat -> valid_path gr u path = true ->
    path_end u path = end_ -> (h_of gr heur end_ u <= path_cost gr u path)%Q.

(** [phi] drops by at most the cost of a move, along every move. *)
Definition monotoneb (gr : Graph) (phi : ref -> Q) : bool :=
  forallb (fun u =>
    forallb (fun v =>
      negb (step_ok gr u v) || Qle_bool (phi u) (step_cost gr u v + phi v))
      (seq 0 (length (nodes gr))))
    (seq 0 (length (nodes gr))).

(** The heuristic is consistent (monotone). *)
Definition consistentb (gr : Graph) (heur : heuristic_fn) (end_ : ref) : bool :=
  monotoneb gr (h_of gr heur end_).

(** Every cell that can be walked on has a strictly positive weight. *)
Definition positive_weights (gr : Graph) : Prop :=
  forall r n, nodes gr !! r = Some n -> isNodeWall n = false -> (0 < Node.w n)%Q.

(** No node can be reached from [start] that is [end_]. *)
Definition unreachable (gr : Graph) (start end_ : ref) : Prop :=
  forall path, valid_path gr start path = true -> path_end start path <> end_.

(** No relaxation recorded in the trace produced a node closer than the
    start node, in the sense of the test that updates [closestNode]:
    smaller [h], or equal [h] and smaller [g] (the start node has g = 0). *)
Definition never_closer (hstart : Q) (tr : list event) : bool :=
  forallb (fun ev =>
    match ev with
    | EvRelax _ _ n =>
        negb (Qltb (Node.h n) hstart
              || (Qeq_bool (Node.h n) hstart && Qltb (Node.g n) 0))
    | EvHeap _ _ _ => true
    end) tr.

(** The nodes pushed on the heap, as recorded in the trace. *)
Definition pushed (tr : list event) : list ref :=
  omap (fun ev =>
    match ev with
    | EvHeap (CallPush r) _ _ => Some r
    | _ => None
    end) tr.

(** The number of closed nodes. *)
Definition closed_count (ns : list Node.GridNode) : nat :=
  length (filter (fun n => Node.closed n = true) ns).

(** *** The states of a search

    [gr0] is the graph [search] was called on, [start] and [end_] its
    arguments, [heur] the heuristic in force. *)

Section SearchInvariant.
Variable gr0 : Graph.
Variables start end_ : ref.
Variable heur : heuristic_fn.

(** Index, movement model, positions and weights are those of [gr0]. *)
Definition same_static (gr : Graph) : Prop :=
  grid gr = grid gr0 /\ diagonal gr = diagonal gr0 /\
  length (nodes gr) = length (nodes gr0) /\
  forall r n, nodes gr !! r = Some n ->
    exists n0, nodes gr0 !! r = Some n0 /\
      Node.x n = Node.x n0 /\ Node.y n = Node.y n0 /\ Node.w n = Node.w n0.

Definition node_of (st : state) (r : ref) : option Node.GridNode :=
  nodes (st_graph st) !! r.

(** The node has been put on the heap at some point: it is the start node
    or has been visited. *)
Definition opened (r : ref) (n : Node.GridNode) : Prop :=
  Node.visited n = true \/ r = start.

(** What holds of the state at the head of the [while] loop and between
    two iterations of the [for] loop. *)
Record core (st : state) : Prop := mkCore {
  core_static : same_static (st_graph st);
  core_nodup : NoDup (items (st_heap st));
  core_heap : forall r, r ∈ items (st_heap st) <->
      exists n, node_of st r = Some n /\ Node.closed n = false /\ opened r n;
  core_closed : forall r n, node_of st r = Some n -> Node.closed n = true -> opened r n;
  core_start : exists n, node_of st start = Some n /\ Node.visited n = false /\
      Node.parent n = None /\ Node.g n = 0%Q /\ Node.h n = h_of gr0 heur end_ start;
  core_start_heap :
      (exists n, node_of st start = Some n /\ Node.closed n = true) \/
      items (st_heap st) = [start];
  core_order : heap_ok (score_f (st_graph st)) (items (st_heap st));
  core_visited : forall r n, node_of st r = Some n -> Node.visited n = true ->
      exists p np, Node.parent n = Some p /\ node_of st p = Some np /\
        Node.closed np = true /\ step_ok gr0 p r = true /\
        Node.g n = (Node.g np + step_cost gr0 p r)%Q /\
        Node.h n = h_of gr0 heur end_ r /\
        Node.f n = (Node.g n + Node.h n)%Q;
  core_fresh : forall r n, node_of st r = Some n -> Node.visited n = false ->
      r <> start -> n = clean n;
  core_closest : exists n, node_of st (st_closest st) = Some n /\ opened (st_closest st) n;
  core_end : forall n, node_of st end_ = Some n -> Node.closed n = false;
  core_depth : exists depth : ref -> nat,
      (forall r n p, node_of st r = Some n -> Node.parent n = Some p ->
         (depth p < depth r)%nat) /\
      (forall r n, node_of st r = Some n -> opened r n ->
         (depth r <= closed_count (nodes (st_graph st)))%nat) /\
      (forall r n, node_of st r = Some n -> Node.closed n = true ->
         (depth r < closed_count (nodes (st_graph st)))%nat)
}.

(** The state while the neighbours of [cur] are being visited. *)
Definition inner (cur : ref) (st : state) : Prop :=
  core st /\
  (exists n, node_of st start = Some n /\ Node.closed n = true) /\
  (exists cn, node_of st cur = Some cn /\ Node.closed cn = true).

(** What one [pop] and the closing of the popped node do to the state. *)
Definition pop_shape (st : state) (cur : ref) (st1 : state) : Prop :=
  exists hp,
    pop (score_f (st_graph st)) (st_heap st) = Ok (Some cur, hp) /\
    items (st_heap st) ≡ₚ cur :: items hp /\
    (forall v, v ∈ items (st_heap st) ->
       (score_f (st_graph st) cur <= score_f (st_graph st) v)%Q) /\
    st1 = mkState (update_node cur (Node.set_closed true) (st_graph st)) hp
            (st_closest st)
            (EvHeap (CallPop (Some cur)) (items (st_heap st)) (items hp) :: st_trace st).

(** What one iteration of the [for] loop does to the state: nothing, or
    the relaxation of the neighbour. *)
Inductive visit_shape (closest : bool) (cur nb : ref) (st st' : state) : Prop :=
| vs_skip :
    st' = st ->
    (forall n cn, node_of st nb = Some n -> node_of st cur = Some cn ->
       Node.closed n = true \/ isNodeWall n = true \/
       (Node.visited n = true /\ (Node.g n <= Node.g cn + step_cost gr0 cur nb)%Q)) ->
    visit_shape closest cur nb st st'
| vs_relax (n cn n' cl : Node.GridNode) :
    node_of st nb = Some n -> node_of st cur = Some cn ->
    Node.closed n = false -> isNodeWall n = false ->
    (Node.visited n = false \/ (Node.g cn + step_cost gr0 cur nb < Node.g n)%Q) ->
    n' = Node.mk (Node.x n) (Node.y n) (Node.w n)
           (Node.g cn + step_cost gr0 cur nb + h_of gr0 heur end_ nb)
           (Node.g cn + step_cost gr0 cur nb)
           (h_of gr0 heur end_ nb) true false (Some cur) ->
    nodes (st_graph st') = <[nb := n']> (nodes (st_graph st)) ->
    dirtyNodes (st_graph st') = dirtyNodes (st_graph st) ++ [nb] ->
    items (st_heap st') ≡ₚ
      (if Node.visited n then items (st_heap st) else nb :: items (st_heap st)) ->
    node_of st' (st_closest st) = Some cl ->
    st_closest st' =
      (if closest &&
          (Qltb (Node.h n') (Node.h cl)
           || (Qeq_bool (Node.h n') (Node.h cl) && Qltb (Node.g n') (Node.g cl)))
       then nb else st_closest st) ->
    st_trace st' =
      EvHeap (if Node.visited n then CallRescore nb else CallPush nb)
        (items (st_heap st)) (items (st_heap st'))
      :: EvRelax nb (Node.visited n) n' :: st_trace st ->
    visit_shape closest cur nb st st'.

(** How [search_loop] ends from the state [stl] at the head of its last
    iteration: the goal is popped, or the heap is empty. *)
Definition final_shape (closest : bool) (stl : state) (path : list ref) (st' : state) : Prop :=
  (exists hp,
     pop (score_f (st_graph stl)) (st_heap stl) = Ok (Some end_, hp) /\
     (forall v, v ∈ items (st_heap stl) ->
        (score_f (st_graph stl) end_ <= score_f (st_graph stl) v)%Q) /\
     end_ ∈ items (st_heap stl) /\
     pathTo (st_graph stl) end_ = Ok path /\
     st' = mkState (st_graph stl) hp (st_closest stl)
             (EvHeap (CallPop (Some end_)) (items (st_heap stl)) (items hp)
              :: st_trace stl)) \/
  (items (st_heap stl) = [] /\ st' = stl /\
   if closest then pathTo (st_graph stl) (st_closest stl) = Ok path else path = []).

End SearchInvariant.

(** The trace pairs every relaxation with one heap call: a push when the
    neighbour had not been visited (and the relaxation marks it visited), a
    re-score when it had; the only other push is that of the start node. *)
Inductive relax_calls (start : ref) : list event -> Prop :=
| rc_start (after : list ref) :
    relax_calls start [EvHeap (CallPush start) [] after]
| rc_pop (tr : list event) (r : option ref) (before after : list ref) :
    relax_calls start tr ->
    relax_calls start (EvHeap (CallPop r) before after :: tr)
| rc_push (tr : list event) (nb : ref) (n' : Node.GridNode) (before after : list ref) :
    relax_calls start tr -> Node.visited n' = true ->
    relax_calls start (EvHeap (CallPush nb) before after :: EvRelax nb false n' :: tr)
| rc_rescore (tr : list event) (nb : ref) (n' : Node.GridNode) (before after : list ref) :
    relax_calls start tr -> nb ∈ before ->
    relax_calls start (EvHeap (CallRescore nb) before after :: EvRelax nb true n' :: tr).

(** Every cell next to [start] is a wall (or there is none). *)
Definition surroundedb (gr : Graph) (start : ref) : bool :=
  match nodes gr !! start with
  | Some n =>
      forallb (fun v =>
        match nodes gr !! v with
        | Some nv => isNodeWall nv
        | None => true
        end) (neighbors gr n)
  | None => true
  end.

(** The double nearest to the square root of 2, the value of [Math.sqrt(2)]. *)
Definition sqrt2_double : Q := 6369051672525773 # 4503599627370496.

(** What holds of the trace, and of the state with respect to it, all
    along a search from [start] in [gr]; [hstart] is the heuristic value
    of the start node. *)
Definition trace_ok (gr : Graph) (start : ref) (hstart : Q) (st : state) : Prop :=
  let tr := st_trace st in
  (forall r b a, EvHeap (CallPop r) b a ∈ tr -> exists x, r = Some x /\ x ∈ b) /\
  relax_calls start tr /\
  (forall c b a, EvHeap c b a ∈ tr -> NoDup b /\ NoDup a) /\
  NoDup (pushed tr) /\
  (forall r, r ∈ pushed tr ->
     exists n, nodes (st_graph st) !! r = Some n /\ (Node.visited n = true \/ r = start)) /\
  (st_closest st = start \/ never_closer hstart tr = false) /\
  (surroundedb gr start = true ->
     (forall r n, nodes (st_graph st) !! r = Some n -> Node.visited n = false) /\
     never_closer hstart tr = true).

(** The [g] of a closed node is the least cost of a path to it. *)
Definition closed_optimal (gr : Graph) (start : ref) (st : state) : Prop :=
  forall u nu q, nodes (st_graph st) !! u = Some nu -> Node.closed nu = true ->
    valid_path gr start q = true -> path_end start q = u ->
    (Node.g nu <= path_cost gr start q)%Q.

(** The moves out of a closed node, those selected by [P], have been
    relaxed: their target has been opened with a [g] no larger than the
    cost through the closed node. *)
Definition closed_relaxed (gr : Graph) (start : ref) (P : ref -> ref -> Prop)
    (st : state) : Prop :=
  forall u v nu, nodes (st_graph st) !! u = Some nu -> Node.closed nu = true ->
    step_ok gr u v = true -> P u v ->
    exists nv, nodes (st_graph st) !! v = Some nv /\
      (Node.visited nv = true \/ v = start) /\
      (Node.g nv <= Node.g nu + step_cost gr u v)%Q.

(** *** Proof automation *)

(** Linear arithmetic with division by a constant. *)
Ltac zdiv := Z.div_mod_to_equations; lia.

(** Instantiates an order hypothesis [Hinv] (two arithmetic side
    conditions, then two reads) at every pair of reads in the context. *)
Ltac saturate_with Hinv :=
  repeat match goal with
  | Hc : zlookup ?l ?i = Some ?c, Hp : zlookup ?l ?j = Some ?p |- _ =>
      let H := fresh "Hs" in
      pose proof (Hinv i c p) as H;
      first
        [ specialize (H ltac:(lia) ltac:(lia) Hc
            ltac:(first [ exact Hp
                        | match goal with
                          | |- zlookup _ ?t = _ => replace t with j by lia
                          end; exact Hp ]))
        | clear H; fail ];
      let T := type of H in
      lazymatch goal with
      | H1 : T, H2 : T |- _ => clear H; fail
      | _ => idtac
      end
  end.

(** Case analysis on every index comparison left by a read after writes. *)
Ltac split_reads :=
  repeat match goal with
  | H : context [decide (?a = ?b)] |- _ => destruct (decide (a = b)); try lia
  end; simplify_eq.

(** *** Clients of the heap

    The source holds no such loops; they state how the operations compose:
    [push] every node of a list, then [pop] while [size() > 0] (at most
    [fuel] times). *)

Fixpoint push_all (score : ref -> Q) (l : list ref) (content : jsarray) : res jsarray :=
  match l with
  | [] => Ok content
  | e :: rest => do c <- push score e content; push_all score rest c
  end.

Fixpoint pop_all (score : ref -> Q) (fuel : nat) (content : jsarray) : res (list ref) :=
  match fuel with
  | O => Ok []
  | S fuel' =>
      if size content >? 0 then
        do '(r, c) <- pop score content;
        match r with
        | Some x => do rest <- pop_all score fuel' c; Ok (x :: rest)
        | None => Fail TypeError
        end
      else Ok []
  end.

(** The scores along a list never decrease. *)
Fixpoint ascending (score : ref -> Q) (l : list ref) : bool :=
  match l with
  | [] => true
  | x :: rest =>
      forallb (fun y => Qle_bool (score x) (score y)) rest && ascending score rest
  end.

(** *** Reachability *)

(** The moves out of a closed node, those selected by [P], lead to nodes
    that have been opened. *)
Definition closed_reached (gr : Graph) (start : ref) (P : ref -> ref -> Prop)
    (st : state) : Prop :=
  forall u v nu, nodes (st_graph st) !! u = Some nu -> Node.closed nu = true ->
    step_ok gr u v = true -> P u v ->
    exists nv, nodes (st_graph st) !! v = Some nv /\
      (Node.visited nv = true \/ v = start).

(** The closest node so far has the least heuristic value among the nodes
    opened so far. *)
Definition closest_least (gr : Graph) (start end_ : ref) (heur : heuristic_fn)
    (st : state) : Prop :=
  forall r n, nodes (st_graph st) !! r = Some n ->
    (Node.visited n = true \/ r = start) ->
    (h_of gr heur end_ (st_closest st) <= h_of gr heur end_ r)%Q.

(** Every cell is a wall or weighs at least 1. *)
Definition weights_at_least_oneb (gr : Graph) : bool :=
  forallb (fun n => isNodeWall n || Qle_bool 1 (Node.w n)) (nodes gr).

(** No move leads out of the set [S] of nodes. *)
Definition closed_under_movesb (gr : Graph) (S : list ref) : bool :=
  forallb (fun u =>
    forallb (fun v => negb (step_ok gr u v) || bool_decide (v ∈ S))
      (seq 0 (length (nodes gr)))) S.

(** The nodes returned by [pop], as recorded in the trace. *)
Definition popped (tr : list event) : list ref :=
  omap (fun ev =>
    match ev with
    | EvHeap (CallPop r) _ _ => r
    | _ => None
    end) tr.

(** The popped nodes are distinct and closed. *)
Definition popped_closed (st : state) : Prop :=
  NoDup (popped (st_trace st)) /\
  forall r, r ∈ popped (st_trace st) ->
    exists n, node_of st r = Some n /\ Node.closed n = true.

(** Two states of a search that differ in the closest node at most. *)
Definition same_run (s s' : state) : Prop :=
  st_graph s = st_graph s' /\ st_heap s = st_heap s' /\ st_trace s = st_trace s'.

(** Each node of [path] has the one before it as parent, the first one
    having [root]. *)
Fixpoint parent_chain (gr : Graph) (root : ref) (path : list ref) : bool :=
  match path with
  | [] => true
  | r :: rest =>
      match nodes gr !! r with
      | Some n => bool_decide (Node.parent n = Some root) && parent_chain gr r rest
      | None => false
      end
  end.

(** *** Printing a node *)

(** The string of an integer-valued number: plain decimal digits, with a
    minus sign for a negative one, as JavaScript prints integers below
    10^21 in absolute value. *)
Definition number_to_string (z : Z) : string := NilZero.string_of_int (Z.to_int z).

(** [stringfyNode]: ["[" + node.x + " " + node.y + "]"]. *)
Definition stringfyNode (node : Node.GridNode) : string :=
  ("[" ++ number_to_string (Node.x node) ++ " " ++ number_to_string (Node.y node) ++ "]")%string.

(** The character [c] occurs in [s]. *)
Fixpoint has_char (c : ascii) (s : string) : bool :=
  match s with
  | EmptyString => false
  | String a rest => Ascii.eqb a c || has_char c rest
  end.

(** The node of the grid at row [i], column [j], for a position within
    the bounds of the grid and of the row; no node otherwise. *)
Definition in_bounds_node (gr : Graph) (i j : Z) : option ref :=
  if decide (0 <= i < Z.of_nat (length (grid gr))) then
    match grid gr !! Z.to_nat i with
    | Some row =>
        if decide (0 <= j < Z.of_nat (length row)) then row !! Z.to_nat j else None
    | None => None
    end
  else None.

(** The discipline of a caller, checked along the run: a node is pushed
    only when it is not in the heap, and a score is only ever lowered
    (the lowering being followed by [rescoreElement], see
    [run_caller_op]). *)
Fixpoint caller_disciplineb (score : ref -> Q) (ops : list caller_op) (content : jsarray)
  : bool :=
  match ops with
  | [] => true
  | op :: rest =>
      match op with
      | CallerHeap (OpPush e) => bool_decide (e ∉ items content)
      | CallerHeap _ => true
      | CallerLower node q => Qle_bool q (score node)
      end &&
      match run_caller_op score op content with
      | Ok (score', c) => caller_disciplineb score' rest c
      | Fail _ => true
      end
  end.

(** *** Inputs on which the arithmetic of the search is exact in doubles

    The source adds and compares IEEE doubles.  Every integer of absolute
    value at most 2^53 is a double, and the sum of two such integers, when
    it is again of absolute value at most 2^53, is computed without
    rounding; on the inputs below each sum [search] forms is of that kind
    (a [g] is a sum of weights of distinct nodes), so the rationals of the
    model are the doubles of the run. *)

Definition is_integerb (q : Q) : bool := Qeq_bool q (inject_Z (Qfloor q)).

Definition sumQ {A} (f : A -> Q) (l : list A) : Q :=
  fold_right (fun a acc => (f a + acc)%Q) 0%Q l.

(** The sum of the weights of all the nodes. *)
Definition total_weight (gr : Graph) : Q := sumQ Node.w (nodes gr).

Definition weight_of (gr : Graph) (v : ref) : Q :=
  match nodes gr !! v with
  | Some n => Node.w n
  | None => 0%Q
  end.

Definition two53 : Q := inject_Z (2 ^ 53).

(** No diagonal movement (no product by 1.41421); every weight is a
    non-negative integer; every heuristic value towards [end_] is an
    integer; and the sum of all weights plus the absolute value of any
    heuristic value is at most 2^53. *)
Definition exact_in_doublesb (gr : Graph) (heur : heuristic_fn) (end_ : ref) : bool :=
  negb (diagonal gr) &&
  forallb (fun n => is_integerb (Node.w n) && Qle_bool 0 (Node.w n)) (nodes gr) &&
  forallb (fun u =>
    is_integerb (h_of gr heur end_ u) &&
    Qle_bool (total_weight gr + Qabs (h_of gr heur end_ u)) two53)
    (seq 0 (length (nodes gr))).

(** [q] is an integer of absolute value at most [b]. *)
Definition integer_upto (b : Z) (q : Q) : Prop :=
  exists z, (q == inject_Z z)%Q /\ Z.abs z <= b.

(* ===================================================================== *)
(** * Theorems *)
(* ===================================================================== *)

(** ** Numbers and indices *)

Lemma Qltb_lt (a b : Q) : Qltb a b = true <-> (a < b)%Q.
Proof.
  unfold Qltb. rewrite negb_true_iff.
  destruct (Qle_bool b a) eqn:E.
  - apply Qle_bool_iff in E. split; [discriminate | intros; lra].
  - split; [intros _ | reflexivity].
    destruct (Qlt_le_dec a b) as [Hlt | Hle]; [exact Hlt |].
    apply Qle_bool_iff in Hle. congruence.
Qed.

Lemma Qltb_ge (a b : Q) : Qltb a b = false <-> (b <= a)%Q.
Proof.
  destruct (Qltb a b) eqn:E.
  - apply Qltb_lt in E. split; [discriminate | intros; lra].
  - split; [intros _ | reflexivity].
    destruct (Qlt_le_dec a b) as [Hlt | Hle]; [| exact Hle].
    apply Qltb_lt in Hlt. congruence.
Qed.

Lemma Qltb_irrefl (a : Q) : Qltb a a = false.
Proof. apply Qltb_ge. lra. Qed.

Lemma parent_index_eq (i : Z) : parent_index i = (i + 1) / 2 - 1.
Proof. unfold parent_index. now rewrite Z.shiftr_div_pow2 by lia. Qed.

Lemma shiftl1 (i : Z) : Z.shiftl i 1 = 2 * i.
Proof. rewrite Z.shiftl_mul_pow2 by lia. change (2 ^ 1) with 2. lia. Qed.

Lemma parent_index_bounds (i : Z) : 0 < i -> 0 <= parent_index i < i.
Proof. intros. rewrite parent_index_eq. zdiv. Qed.

Lemma parent_index_child1 (n : Z) : parent_index (2 * (n + 1) - 1) = n.
Proof. rewrite parent_index_eq. zdiv. Qed.

Lemma parent_index_child2 (n : Z) : parent_index (2 * (n + 1)) = n.
Proof. rewrite parent_index_eq. zdiv. Qed.

Lemma parent_index_inv (i n : Z) :
  parent_index i = n -> i = 2 * (n + 1) - 1 \/ i = 2 * (n + 1).
Proof. rewrite parent_index_eq. zdiv. Qed.

(** ** Lists read and written at a number *)

Lemma zlookup_Some_bounds {A} (l : list A) (i : Z) (v : A) :
  zlookup l i = Some v -> 0 <= i < Z.of_nat (length l).
Proof.
  unfold zlookup. destruct (Z.ltb_spec i 0); [discriminate |].
  intros Hl. apply lookup_lt_Some in Hl. lia.
Qed.

Lemma zlookup_in_range {A} (l : list A) (i : Z) :
  0 <= i < Z.of_nat (length l) -> exists v, zlookup l i = Some v.
Proof.
  intros Hi. unfold zlookup. destruct (Z.ltb_spec i 0); [lia |].
  destruct (lookup_lt_is_Some_2 l (Z.to_nat i)) as [v Hv]; [lia | eauto].
Qed.

Lemma zlookup_ge {A} (l : list A) (i : Z) :
  Z.of_nat (length l) <= i -> zlookup l i = None.
Proof.
  intros Hi. unfold zlookup. destruct (Z.ltb_spec i 0); [done |].
  apply lookup_ge_None. lia.
Qed.

Lemma zlookup_neg {A} (l : list A) (i : Z) : i < 0 -> zlookup l i = None.
Proof. intros Hi. unfold zlookup. destruct (Z.ltb_spec i 0); [done | lia]. Qed.

Lemma zlookup_insert {A} (l : list A) (i j : Z) (v : A) :
  0 <= i < Z.of_nat (length l) ->
  zlookup (<[Z.to_nat i := v]> l) j = if decide (i = j) then Some v else zlookup l j.
Proof.
  intros Hi. unfold zlookup. case_decide as Hij.
  - subst j. destruct (Z.ltb_spec i 0); [lia |].
    apply list_lookup_insert_eq. lia.
  - destruct (Z.ltb_spec j 0); [done |].
    apply list_lookup_insert_ne. lia.
Qed.

Lemma zlookup_snoc {A} (l : list A) (j : Z) (v : A) :
  zlookup (l ++ [v]) j =
  if decide (j = Z.of_nat (length l)) then Some v else zlookup l j.
Proof.
  unfold zlookup. case_decide as Hj.
  - subst j. destruct (Z.ltb_spec (Z.of_nat (length l)) 0); [lia |].
    rewrite Nat2Z.id. apply list_lookup_middle. done.
  - destruct (Z.ltb_spec j 0); [done |].
    destruct (decide (Z.to_nat j < length l)%nat).
    + by rewrite lookup_app_l.
    + rewrite !lookup_ge_None_2; [done | lia |].
      rewrite length_app. simpl. lia.
Qed.

Lemma zlookup_elem_of {A} (l : list A) (i : Z) (v : A) :
  zlookup l i = Some v -> v ∈ l.
Proof.
  unfold zlookup. destruct (Z.ltb_spec i 0); [discriminate |].
  intros Hl. eapply list_elem_of_lookup_2; eauto.
Qed.

Lemma elem_of_zlookup {A} (l : list A) (v : A) :
  v ∈ l -> exists i, zlookup l i = Some v.
Proof.
  intros Hin. apply list_elem_of_lookup in Hin as [i Hi].
  exists (Z.of_nat i). unfold zlookup.
  destruct (Z.ltb_spec (Z.of_nat i) 0); [lia |]. by rewrite Nat2Z.id.
Qed.

(** ** Arrays *)

Lemma aget_items (a : jsarray) (i : Z) : i <> -1 -> aget a i = zlookup (items a) i.
Proof.
  intros Hi. unfold aget, zlookup. destruct (Z.eqb_spec i (-1)); [done | done].
Qed.

Lemma aset_in_range (a : jsarray) (i : Z) (v : ref) :
  0 <= i < alength a ->
  aset a i v = Ok (mkArr (<[Z.to_nat i := v]> (items a)) (minus1 a)).
Proof.
  intros Hi. unfold aset.
  destruct (Z.eqb_spec i (-1)); [lia |].
  destruct (Z.leb_spec 0 i); [| lia].
  destruct (Z.ltb_spec i (alength a)); [done | lia].
Qed.

Lemma aset_at_length (a : jsarray) (v : ref) :
  aset a (alength a) v = Ok (mkArr (items a ++ [v]) (minus1 a)).
Proof.
  unfold aset, alength.
  destruct (Z.eqb_spec (Z.of_nat (length (items a))) (-1)); [lia |].
  destruct (Z.ltb_spec (Z.of_nat (length (items a))) (Z.of_nat (length (items a)))); [lia |].
  rewrite andb_false_r. by rewrite Z.eqb_refl.
Qed.

Lemma aset_minus1 (a : jsarray) (v : ref) :
  aset a (-1) v = Ok (mkArr (items a) (Some v)).
Proof. reflexivity. Qed.

Lemma insert_head_perm {A} (l : list A) (j : nat) (a b : A) :
  l !! j = Some b -> b :: <[j := a]> l ≡ₚ a :: l.
Proof.
  revert j. induction l as [| c l IH]; intros j Hj; [done |].
  destruct j as [| j]; simpl in *; simplify_eq.
  - apply Permutation_swap.
  - rewrite (Permutation_swap c b). rewrite (IH j Hj). apply Permutation_swap.
Qed.

(** Exchanging two elements keeps the elements. *)
Lemma insert_swap_perm {A} (l : list A) (i j : nat) (a b : A) :
  l !! i = Some a -> l !! j = Some b ->
  <[j := a]> (<[i := b]> l) ≡ₚ l.
Proof.
  intros Hi Hj.
  destruct (decide (i = j)) as [-> | Hne].
  - rewrite list_insert_insert_eq. assert (a = b) by congruence. subst.
    by rewrite list_insert_id.
  - revert i j Hi Hj Hne. induction l as [| c l IH]; intros i j Hi Hj Hne; [done |].
    destruct i as [| i], j as [| j]; simpl in *; simplify_eq.
    + exact (insert_head_perm l j a b Hj).
    + exact (insert_head_perm l i b a Hi).
    + f_equiv. apply IH; [done | done | lia].
Qed.

(** ** Binary heap: the two sifts *)

Section HeapOrder.
Variable score : ref -> Q.

Lemma heap_ok_sink_inv (l : list ref) (n : Z) : heap_ok score l -> sink_inv score l n.
Proof.
  intros Hok. split.
  - intros i c p Hi _ Hc Hp. eapply Hok; eauto.
  - intros i c q Hn Hpi Hc Hq.
    destruct (zlookup_in_range l n) as [e He].
    { pose proof (zlookup_Some_bounds _ _ _ Hc) as Hcb.
      rewrite parent_index_eq in Hpi. clear - Hcb Hpi Hn. zdiv. }
    assert (score q <= score e)%Q by (eapply (Hok n); eauto).
    assert (score e <= score c)%Q.
    { eapply (Hok i); eauto.
      - rewrite parent_index_eq in Hpi. clear - Hpi Hn. zdiv.
      - by rewrite Hpi. }
    lra.
Qed.

Lemma heap_ok_bubble_inv (l : list ref) (n : Z) : heap_ok score l -> bubble_inv score l n.
Proof.
  intros Hok. destruct (heap_ok_sink_inv l n Hok) as [_ H2]. split; [| exact H2].
  intros i c p Hi _ Hc Hp. eapply Hok; eauto.
Qed.

Lemma heap_ok_nil : heap_ok score [].
Proof. intros i c p Hi Hc. by rewrite zlookup_ge in Hc by (simpl; lia). Qed.

(** A prefix of a heap is a heap. *)
Lemma heap_ok_app_l (l1 l2 : list ref) : heap_ok score (l1 ++ l2) -> heap_ok score l1.
Proof.
  intros Hok i c p Hi Hc Hp. apply (Hok i c p Hi).
  - unfold zlookup in *. destruct (i <? 0); [done |]. by apply lookup_app_l_Some.
  - unfold zlookup in *. destruct (parent_index i <? 0); [done |]. by apply lookup_app_l_Some.
Qed.

(** Reads of an array in which positions [i] and [j] were written. *)
Lemma zlookup_insert2 (l : list ref) (i j k : Z) (a b : ref) :
  0 <= i < Z.of_nat (length l) -> 0 <= j < Z.of_nat (length l) ->
  zlookup (<[Z.to_nat j := b]> (<[Z.to_nat i := a]> l)) k =
  if decide (j = k) then Some b else if decide (i = k) then Some a else zlookup l k.
Proof.
  intros Hi Hj. rewrite zlookup_insert by (rewrite length_insert; lia).
  case_decide; [done |]. by rewrite zlookup_insert.
Qed.

Lemma sinkDown_loop_spec (fuel : nat) : forall (n : Z) (a : jsarray) (e : ref),
  zlookup (items a) n = Some e -> (Z.to_nat n <= fuel)%nat ->
  sink_inv score (items a) n ->
  exists a', sinkDown_loop score fuel (Some e) n a = Ok a' /\
    heap_ok score (items a') /\ items a' ≡ₚ items a /\ minus1 a' = minus1 a.
Proof.
  induction fuel as [| fuel IH]; intros n a e He Hfuel [Hinv1 Hinv2].
  - pose proof (zlookup_Some_bounds _ _ _ He) as Hb.
    assert (n = 0) by lia. subst n. simpl. exists a. split_and!; try done.
    intros i c p Hi Hc Hp. apply (Hinv1 i c p); auto; lia.
  - pose proof (zlookup_Some_bounds _ _ _ He) as Hb. simpl.
    destruct (Z.gtb_spec n 0) as [Hn | Hn].
    2:{ assert (n = 0) by lia. subst n. exists a. split_and!; try done.
        intros i c p Hi Hc Hp. apply (Hinv1 i c p); auto; lia. }
    fold (parent_index n). pose proof (parent_index_bounds n ltac:(lia)) as Hpb.
    destruct (zlookup_in_range (items a) (parent_index n) ltac:(lia)) as [p Hp].
    rewrite aget_items by lia. rewrite Hp.
    destruct (Qltb (score e) (score p)) eqn:Hlt.
    2:{ apply Qltb_ge in Hlt. exists a. split_and!; try done.
        intros i c q Hi Hc Hq. destruct (decide (i = n)) as [-> | Hne].
        - rewrite Hp in Hq. rewrite He in Hc. simplify_eq. done.
        - apply (Hinv1 i c q); auto. }
    apply Qltb_lt in Hlt.
    rewrite aset_in_range by (unfold alength; lia). simpl.
    rewrite aset_in_range by (unfold alength; simpl; rewrite length_insert; lia). simpl.
    set (l := items a) in *.
    set (l2 := <[Z.to_nat n := p]> (<[Z.to_nat (parent_index n) := e]> l)).
    assert (Hl2 : forall k, zlookup l2 k =
      if decide (n = k) then Some p else
      if decide (parent_index n = k) then Some e else zlookup l k).
    { intros k. unfold l2. apply zlookup_insert2; lia. }
    destruct (IH (parent_index n) (mkArr l2 (minus1 a)) e) as (a' & Hrun & Hok & Hperm & Hm).
    + simpl. rewrite Hl2. case_decide; [lia |]. case_decide; [done | lia].
    + lia.
    + simpl. split.
      * intros i c q Hi Hne Hc Hq. rewrite Hl2 in Hc, Hq.
        pose proof (parent_index_bounds i Hi) as Hib.
        split_reads; saturate_with Hinv1; saturate_with Hinv2; lra.
      * intros i c q Hpn Hpi Hc Hq. rewrite Hl2 in Hc, Hq.
        pose proof (parent_index_bounds (parent_index n) Hpn) as Hppb.
        assert (0 < i) by (rewrite (parent_index_eq i) in Hpi; clear - Hpi Hpb; zdiv).
        split_reads; saturate_with Hinv1; saturate_with Hinv2; lra.
    + exists a'. split_and!; try done.
      rewrite Hperm. simpl. unfold l2.
      apply insert_swap_perm.
      * unfold zlookup in Hp. destruct (parent_index n <? 0) eqn:E; [lia | done].
      * unfold zlookup in He. destruct (n <? 0) eqn:E; [lia | done].
Qed.

Lemma bubble_done (l : list ref) (n : Z) (e : ref) :
  bubble_inv score l n -> zlookup l n = Some e ->
  (forall o co, parent_index o = n -> zlookup l o = Some co -> (score e <= score co)%Q) ->
  heap_ok score l.
Proof.
  intros [Hinv1 Hinv2] He Hmin i c p Hi Hc Hp.
  destruct (decide (parent_index i = n)) as [Hpi | Hpi].
  - rewrite Hpi in Hp. assert (p = e) by congruence. subst p. eapply Hmin; eauto.
  - eapply Hinv1; eauto.
Qed.

Lemma bubble_swap_inv (l : list ref) (n sw : Z) (e v : ref) :
  bubble_inv score l n -> 0 <= n -> zlookup l n = Some e ->
  parent_index sw = n -> zlookup l sw = Some v -> (score v < score e)%Q ->
  (forall o co, parent_index o = n -> zlookup l o = Some co -> (score v <= score co)%Q) ->
  bubble_inv score (<[Z.to_nat sw := e]> (<[Z.to_nat n := v]> l)) sw.
Proof.
  intros [Hinv1 Hinv2] Hn He Hsw Hv Hlt Hmin.
  pose proof (zlookup_Some_bounds _ _ _ He) as Hnb.
  pose proof (zlookup_Some_bounds _ _ _ Hv) as Hswb.
  assert (n < sw) by (rewrite parent_index_eq in Hsw; clear - Hsw Hn; zdiv).
  set (l2 := <[Z.to_nat sw := e]> (<[Z.to_nat n := v]> l)).
  assert (Hl2 : forall k, zlookup l2 k =
    if decide (sw = k) then Some e else
    if decide (n = k) then Some v else zlookup l k).
  { intros k. unfold l2. apply zlookup_insert2; lia. }
  split.
  - intros i c p Hi Hne Hc Hp. rewrite Hl2 in Hc, Hp.
    pose proof (parent_index_bounds i Hi) as Hib.
    destruct (decide (parent_index i = n)) as [Hpi | Hpi].
    + (* a child of [n]: its parent now holds [v] *)
      destruct (decide (sw = i)) as [<- | Hswi].
      * split_reads; lra.
      * assert (n <> i) by lia.
        split_reads. eapply Hmin; eauto.
    + destruct (decide (n = i)) as [<- | Hni].
      * (* position [n] itself, now holding [v] *)
        split_reads. eapply (Hinv2 sw); eauto; lia.
      * split_reads; saturate_with Hinv1; lra.
  - intros i c q Hsw0 Hpi Hc Hq. rewrite Hl2 in Hc, Hq.
    assert (sw < i) by (rewrite (parent_index_eq i) in Hpi; clear - Hpi Hsw0; zdiv).
    split_reads. eapply (Hinv1 i); eauto; try lia; by rewrite Hpi.
Qed.

Lemma bubbleUp_loop_spec (fuel : nat) : forall (n len : Z) (a : jsarray) (e : ref),
  len = alength a -> 0 <= n -> zlookup (items a) n = Some e ->
  (Z.to_nat (len - n) <= fuel)%nat ->
  bubble_inv score (items a) n ->
  exists a', bubbleUp_loop score fuel len e (score e) n a = Ok a' /\
    heap_ok score (items a') /\ items a' ≡ₚ items a /\ minus1 a' = minus1 a.
Proof.
  induction fuel as [| fuel IH]; intros n len a e Hlen Hn He Hfuel Hinv;
    pose proof (zlookup_Some_bounds _ _ _ He) as Hb; unfold alength in Hlen.
  { lia. }
  (* what a swap with a smallest child [sw] leads to *)
  assert (Hswap : forall sw v, parent_index sw = n -> zlookup (items a) sw = Some v ->
    (score v < score e)%Q ->
    (forall o co, parent_index o = n -> zlookup (items a) o = Some co ->
       (score v <= score co)%Q) ->
    exists a', (match aget a sw with
                | Some v =>
                    do c1 <- aset a n v;
                    do c2 <- aset c1 sw e;
                    bubbleUp_loop score fuel len e (score e) sw c2
                | None => Fail OutOfModel
                end) = Ok a' /\
      heap_ok score (items a') /\ items a' ≡ₚ items a /\ minus1 a' = minus1 a).
  { intros sw v Hsw Hv Hlt Hmin.
    pose proof (zlookup_Some_bounds _ _ _ Hv) as Hswb.
    assert (n < sw) by (rewrite parent_index_eq in Hsw; clear - Hsw Hn; zdiv).
    rewrite aget_items by lia. rewrite Hv.
    rewrite aset_in_range by (unfold alength; lia). simpl.
    rewrite aset_in_range by (unfold alength; simpl; rewrite length_insert; lia). simpl.
    destruct (IH sw len (mkArr (<[Z.to_nat sw := e]> (<[Z.to_nat n := v]> (items a))) (minus1 a)) e)
      as (a' & Hrun & Hok & Hperm & Hm).
    - unfold alength. simpl. rewrite !length_insert. done.
    - lia.
    - simpl. rewrite zlookup_insert by (rewrite length_insert; lia).
      case_decide; [done | lia].
    - lia.
    - simpl. eapply bubble_swap_inv; eauto.
    - exists a'. split_and!; try done. rewrite Hperm. simpl.
      apply insert_swap_perm.
      + unfold zlookup in He. destruct (n <? 0) eqn:E; [lia | done].
      + unfold zlookup in Hv. destruct (sw <? 0) eqn:E; [lia | done]. }
  (* what the absence of a smaller child leads to *)
  assert (Hstop : (forall o co, parent_index o = n -> zlookup (items a) o = Some co ->
       (score e <= score co)%Q) ->
    exists a', Ok a = Ok a' /\
      heap_ok score (items a') /\ items a' ≡ₚ items a /\ minus1 a' = minus1 a).
  { intros Hmin. exists a. split_and!; try done. eapply bubble_done; eauto. }
  cbn [bubbleUp_loop]. rewrite shiftl1.
  set (child2N := 2 * (n + 1)) in *.
  assert (Hkids : forall o, parent_index o = n -> o = child2N - 1 \/ o = child2N).
  { intros o Ho. apply parent_index_inv in Ho. unfold child2N. lia. }
  destruct (Z.ltb_spec (child2N - 1) len) as [H1 | H1].
  2:{ (* no child *)
      destruct (Z.ltb_spec child2N len) as [H2 | H2]; [lia |]. cbn.
      apply Hstop. intros o co Ho Hco. pose proof (zlookup_Some_bounds _ _ _ Hco).
      destruct (Hkids o Ho); lia. }
  destruct (zlookup_in_range (items a) (child2N - 1) ltac:(unfold child2N; lia)) as [k1 Hk1].
  rewrite aget_items by (unfold child2N; lia). rewrite Hk1. cbn [res_bind].
  destruct (Z.ltb_spec child2N len) as [H2 | H2].
  - (* two children *)
    destruct (zlookup_in_range (items a) child2N ltac:(unfold child2N; lia)) as [k2 Hk2].
    rewrite aget_items by (unfold child2N; lia). rewrite Hk2. cbn [res_bind].
    destruct (Qltb (score k1) (score e)) eqn:E1; cbn [lt_undef].
    + destruct (Qltb (score k2) (score k1)) eqn:E2;
        apply Qltb_lt in E1; first [apply Qltb_lt in E2 | apply Qltb_ge in E2].
      * apply (Hswap child2N k2); [unfold child2N; apply parent_index_child2 | done | lra |].
        intros o co Ho Hco. destruct (Hkids o Ho); subst o; simplify_eq; lra.
      * apply (Hswap (child2N - 1) k1); [unfold child2N; apply parent_index_child1 | done | lra |].
        intros o co Ho Hco. destruct (Hkids o Ho); subst o; simplify_eq; lra.
    + destruct (Qltb (score k2) (score e)) eqn:E2;
        apply Qltb_ge in E1; first [apply Qltb_lt in E2 | apply Qltb_ge in E2].
      * apply (Hswap child2N k2); [unfold child2N; apply parent_index_child2 | done | lra |].
        intros o co Ho Hco. destruct (Hkids o Ho); subst o; simplify_eq; lra.
      * apply Hstop.
        intros o co Ho Hco. destruct (Hkids o Ho); subst o; simplify_eq; lra.
  - (* one child *)
    cbn [res_bind].
    destruct (Qltb (score k1) (score e)) eqn:E1;
      first [apply Qltb_lt in E1 | apply Qltb_ge in E1].
    + apply (Hswap (child2N - 1) k1); [unfold child2N; apply parent_index_child1 | done | lra |].
      intros o co Ho Hco. pose proof (zlookup_Some_bounds _ _ _ Hco).
      destruct (Hkids o Ho); subst o; simplify_eq; [lra | lia].
    + apply Hstop.
      intros o co Ho Hco. pose proof (zlookup_Some_bounds _ _ _ Hco).
      destruct (Hkids o Ho); subst o; simplify_eq; [lra | lia].
Qed.
End HeapOrder.

(** ** The array primitives used by the heap *)

Lemma apop_snoc (l : list ref) (v : ref) (m : option ref) :
  apop (mkArr (l ++ [v]) m) = (Some v, mkArr l m).
Proof. unfold apop. simpl. by rewrite last_snoc, removelast_last. Qed.

Lemma apop_nil (m : option ref) : apop (mkArr [] m) = (None, mkArr [] m).
Proof. reflexivity. Qed.

Lemma list_snoc_cases {A} (l : list A) : l = [] \/ exists l' v, l = l' ++ [v].
Proof.
  induction l as [| v l _] using rev_ind; [by left | right; eauto].
Qed.

Lemma indexOf_from_spec (l : list ref) (node : ref) (k : Z) :
  (indexOf_from l node k = -1 /\ (node ∉ l) /\ k <> -1 \/
   k <= indexOf_from l node k < k + Z.of_nat (length l) /\
   zlookup l (indexOf_from l node k - k) = Some node /\
   (forall j v, 0 <= j < indexOf_from l node k - k -> zlookup l j = Some v -> v <> node)) \/
  k < 0.
Proof.
  revert k. induction l as [| v l IH]; intros k.
  - destruct (decide (k < 0)); [by right |]. left. left. simpl.
    split_and!; [done | apply not_elem_of_nil | lia].
  - destruct (decide (k < 0)); [by right |]. left. simpl.
    destruct (Nat.eqb_spec v node) as [-> | Hne].
    + right. split_and!; [lia | lia | (by rewrite Z.sub_diag) | intros; lia].
    + destruct (IH (k + 1)) as [[(Heq & Hnot & _) | (Hr & Hl & Hfirst)] | ?]; [| | lia].
      * left. split_and!; [done | | lia]. rewrite not_elem_of_cons. done.
      * right. split_and!; [lia | simpl length; lia | |].
        -- unfold zlookup in *.
           destruct (Z.ltb_spec (indexOf_from l node (k + 1) - (k + 1)) 0); [lia |].
           destruct (Z.ltb_spec (indexOf_from l node (k + 1) - k) 0); [lia |].
           replace (Z.to_nat (indexOf_from l node (k + 1) - k))
             with (S (Z.to_nat (indexOf_from l node (k + 1) - (k + 1)))) by lia.
           done.
        -- intros j w Hj Hw. destruct (decide (j = 0)) as [-> | Hj0].
           ++ unfold zlookup in Hw. simpl in Hw. congruence.
           ++ apply (Hfirst (j - 1) w); [lia |].
              unfold zlookup in *. destruct (Z.ltb_spec j 0); [lia |].
              destruct (Z.ltb_spec (j - 1) 0); [lia |].
              replace (Z.to_nat j) with (S (Z.to_nat (j - 1))) in Hw by lia. done.
Qed.

(** [indexOf]: [-1] for an absent node, else its first position. *)
Lemma indexOf_spec (a : jsarray) (node : ref) :
  (indexOf a node = -1 /\ (node ∉ items a)) \/
  (0 <= indexOf a node < alength a /\
   zlookup (items a) (indexOf a node) = Some node).
Proof.
  unfold indexOf, alength.
  destruct (indexOf_from_spec (items a) node 0) as [[(? & ? & _) | (? & Hl & _)] | ?];
    [by left | | lia].
  right. rewrite Z.sub_0_r in Hl. split; [lia | done].
Qed.

Lemma indexOf_elem (a : jsarray) (node : ref) :
  node ∈ items a ->
  0 <= indexOf a node < alength a /\ zlookup (items a) (indexOf a node) = Some node.
Proof. intros Hin. destruct (indexOf_spec a node) as [[_ ?] | ?]; done. Qed.

Section HeapOps.
Variable score : ref -> Q.

(** The root of a heap is a smallest element. *)
Lemma heap_root_min (l : list ref) (r : ref) :
  heap_ok score l -> zlookup l 0 = Some r ->
  forall v, v ∈ l -> (score r <= score v)%Q.
Proof.
  intros Hok Hr v Hv. apply elem_of_zlookup in Hv as [i Hi].
  pose proof (zlookup_Some_bounds _ _ _ Hi) as Hb.
  assert (Hall : forall k : nat, forall i v, 0 <= i <= Z.of_nat k ->
            zlookup l i = Some v -> (score r <= score v)%Q).
  { clear i v Hi Hb. induction k as [| k IH]; intros i v Hik Hi.
    - assert (i = 0) by lia. subst. assert (v = r) by congruence. subst. lra.
    - destruct (decide (i = 0)) as [-> | Hi0].
      { assert (v = r) by congruence. subst. lra. }
      pose proof (parent_index_bounds i ltac:(lia)) as Hpb.
      pose proof (zlookup_Some_bounds _ _ _ Hi) as Hb.
      destruct (zlookup_in_range l (parent_index i) ltac:(lia)) as [p Hp].
      assert (score r <= score p)%Q by (apply (IH (parent_index i)); [lia | done]).
      assert (score p <= score v)%Q by (apply (Hok i); [lia | done | done]).
      lra. }
  apply (Hall (Z.to_nat i) i v); [lia | done].
Qed.

Lemma sinkDown_spec (n : Z) (a : jsarray) (e : ref) :
  zlookup (items a) n = Some e -> sink_inv score (items a) n ->
  exists a', sinkDown score n a = Ok a' /\
    heap_ok score (items a') /\ items a' ≡ₚ items a /\ minus1 a' = minus1 a.
Proof.
  intros He Hinv. pose proof (zlookup_Some_bounds _ _ _ He).
  unfold sinkDown. rewrite aget_items by lia. rewrite He.
  apply sinkDown_loop_spec; [done | lia | done].
Qed.

Lemma sinkDown_minus1 (a : jsarray) : sinkDown score (-1) a = Ok a.
Proof. reflexivity. Qed.

Lemma bubbleUp_spec (n : Z) (a : jsarray) (e : ref) :
  zlookup (items a) n = Some e -> bubble_inv score (items a) n ->
  exists a', bubbleUp score n a = Ok a' /\
    heap_ok score (items a') /\ items a' ≡ₚ items a /\ minus1 a' = minus1 a.
Proof.
  intros He Hinv. pose proof (zlookup_Some_bounds _ _ _ He).
  unfold bubbleUp. rewrite aget_items by lia. rewrite He.
  apply bubbleUp_loop_spec; [done | lia | done | | done].
  unfold alength. lia.
Qed.

Lemma push_spec (e : ref) (a : jsarray) :
  heap_ok score (items a) ->
  exists a', push score e a = Ok a' /\
    heap_ok score (items a') /\ items a' ≡ₚ e :: items a /\ minus1 a' = minus1 a.
Proof.
  intros Hok. unfold push.
  destruct (sinkDown_spec (alength (apush a e) - 1) (apush a e) e) as (a' & Hrun & Hok' & Hperm & Hm).
  - unfold alength, apush. simpl. rewrite length_app. simpl.
    rewrite zlookup_snoc. case_decide; [done | lia].
  - unfold alength, apush. simpl. rewrite length_app. simpl.
    replace (Z.of_nat (length (items a) + 1) - 1) with (Z.of_nat (length (items a))) by lia.
    split.
    + intros i c p Hi Hne Hc Hp. rewrite zlookup_snoc in Hc.
      pose proof (parent_index_bounds i Hi).
      destruct (decide (i = Z.of_nat (length (items a)))); [lia |].
      pose proof (zlookup_Some_bounds _ _ _ Hc).
      rewrite zlookup_snoc in Hp.
      destruct (decide (parent_index i = Z.of_nat (length (items a)))); [lia |].
      eapply Hok; eauto.
    + intros i c q Hn Hpi Hc Hq. pose proof (zlookup_Some_bounds _ _ _ Hc) as Hb.
      rewrite length_app in Hb. simpl in Hb.
      rewrite (parent_index_eq i) in Hpi. clear - Hpi Hb Hn. zdiv.
  - exists a'. split_and!; try done. rewrite Hperm. unfold apush. simpl.
    by rewrite Permutation_app_comm.
Qed.

(** [pop] on an empty heap returns [undefined] and raises nothing. *)
Lemma pop_empty (a : jsarray) : items a = [] -> pop score a = Ok (None, a).
Proof.
  destruct a as [l m]. simpl. intros ->. unfold pop. rewrite apop_nil.
  rewrite aget_items by lia. reflexivity.
Qed.

Lemma pop_spec (a : jsarray) :
  heap_ok score (items a) -> items a <> [] ->
  exists r a', pop score a = Ok (Some r, a') /\
    heap_ok score (items a') /\ items a ≡ₚ r :: items a' /\
    (forall v, v ∈ items a -> (score r <= score v)%Q) /\ minus1 a' = minus1 a.
Proof.
  destruct a as [l m]. simpl. intros Hok Hne.
  destruct (list_snoc_cases l) as [-> | (l' & v & ->)]; [done |].
  destruct (zlookup_in_range (l' ++ [v]) 0) as [r Hr].
  { rewrite length_app. simpl. lia. }
  pose proof (heap_root_min _ _ Hok Hr) as Hmin.
  unfold pop. rewrite aget_items by lia. simpl items. rewrite Hr. rewrite apop_snoc.
  destruct (Z.gtb_spec (alength (mkArr l' m)) 0) as [Hlen | Hlen]; unfold alength in Hlen; simpl in Hlen.
  2:{ destruct l'; [| simpl in Hlen; lia]. simpl in Hr. unfold zlookup in Hr. simpl in Hr.
      simplify_eq. exists r, (mkArr [] m). split_and!; try done. apply heap_ok_nil. }
  rewrite aset_in_range by (unfold alength; simpl; lia). cbn [res_bind items minus1].
  assert (Hr' : zlookup l' 0 = Some r).
  { rewrite zlookup_snoc in Hr. case_decide; [lia | done]. }
  destruct (bubbleUp_spec 0 (mkArr (<[Z.to_nat 0 := v]> l') m) v) as (a' & Hrun & Hok' & Hperm & Hm).
  - simpl. rewrite zlookup_insert by lia. by case_decide.
  - simpl. apply heap_ok_app_l in Hok. split.
    + intros i c p Hi Hnp Hc Hp. rewrite zlookup_insert in Hc, Hp by lia.
      pose proof (parent_index_bounds i Hi).
      split_reads. eapply Hok; eauto.
    + intros; lia.
  - rewrite Hrun. cbn [res_bind]. exists r, a'. split_and!; try done.
    rewrite Hperm. simpl. destruct l' as [| r0 l'']; [simpl in Hlen; lia |].
    unfold zlookup in Hr'. simpl in Hr'. simplify_eq. simpl.
    rewrite <- Permutation_app_comm. simpl. done.
Qed.

(** Re-sinking after the score of [e] was lowered from [score0] to [score]. *)
Lemma rescoreElement_spec (score0 : ref -> Q) (e : ref) (a : jsarray) :
  heap_ok score0 (items a) -> NoDup (items a) -> e ∈ items a ->
  (forall r, r <> e -> score r = score0 r) -> (score e <= score0 e)%Q ->
  exists a', rescoreElement score e a = Ok a' /\
    heap_ok score (items a') /\ items a' ≡ₚ items a /\ minus1 a' = minus1 a.
Proof.
  intros Hok Hnd Hin Hsame Hlow. unfold rescoreElement.
  destruct (indexOf_elem a e Hin) as [Hb He].
  apply (sinkDown_spec _ _ e He).
  assert (Huniq : forall j v, zlookup (items a) j = Some v -> v = e -> j = indexOf a e).
  { intros j v Hj ->. unfold zlookup in Hj, He.
    destruct (Z.ltb_spec j 0); [done |].
    destruct (Z.ltb_spec (indexOf a e) 0); [done |].
    pose proof (NoDup_lookup _ _ _ _ Hnd Hj He). lia. }
  assert (Hsc : forall j v, j <> indexOf a e -> zlookup (items a) j = Some v ->
            score v = score0 v).
  { intros j v Hj Hv. apply Hsame. intros ->. by apply Hj, (Huniq j e). }
  destruct (heap_ok_sink_inv score0 _ (indexOf a e) Hok) as [H1 H2].
  split.
  - intros i c p Hi Hne Hc Hp. rewrite (Hsc i c) by done.
    assert (score0 p <= score0 c)%Q by (eapply Hok; eauto).
    destruct (decide (p = e)) as [-> | Hpe]; [lra |]. rewrite Hsame by done. done.
  - intros i c q Hn Hpi Hc Hq.
    pose proof (parent_index_bounds _ Hn).
    assert (0 < i) by (rewrite (parent_index_eq i) in Hpi; clear - Hpi Hn; zdiv).
    pose proof (parent_index_bounds i ltac:(lia)).
    rewrite (Hsc i c) by (try done; lia).
    rewrite (Hsc (parent_index (indexOf a e)) q) by (try done; lia).
    eapply H2; eauto.
Qed.

(** The same call when no score has changed. *)
Lemma rescoreElement_heap_ok (node : ref) (a : jsarray) :
  heap_ok score (items a) ->
  exists a', rescoreElement score node a = Ok a' /\ heap_ok score (items a') /\
    items a' ≡ₚ items a.
Proof.
  intros Hok. unfold rescoreElement.
  destruct (indexOf_spec a node) as [[-> _] | [Hb He]].
  - rewrite sinkDown_minus1. eauto.
  - destruct (sinkDown_spec _ _ node He) as (a' & ? & ? & ? & _); [| eauto].
    by apply heap_ok_sink_inv.
Qed.
End HeapOps.

Section HeapRemove.
Variable score : ref -> Q.

(** Overwriting one element of [l] with [v] gives part of [l ++ [v]]. *)
Lemma insert_submseteq_snoc (l : list ref) (i : Z) (v : ref) :
  0 <= i < Z.of_nat (length l) -> <[Z.to_nat i := v]> l ⊆+ l ++ [v].
Proof.
  intros Hi. assert (Hlt : (Z.to_nat i < length l)%nat) by lia.
  destruct (lookup_lt_is_Some_2 _ _ Hlt) as [x Hx].
  rewrite insert_take_drop by done.
  rewrite <- (take_drop_middle l (Z.to_nat i) x Hx) at 3.
  rewrite <- app_assoc. apply submseteq_app; [done |].
  rewrite (Permutation_app_comm _ [v]). simpl.
  apply submseteq_skip, submseteq_cons. done.
Qed.

(** Writing [v] over the root of a heap leaves an array [bubbleUp] can repair. *)
Lemma bubble_inv_root (l : list ref) (v : ref) :
  heap_ok score l -> l <> [] -> bubble_inv score (<[Z.to_nat 0 := v]> l) 0.
Proof.
  intros Hok Hne. assert (0 < Z.of_nat (length l)) by (destruct l; [done | simpl; lia]).
  split; [| intros; lia].
  intros i c p Hi Hnp Hc Hp. rewrite zlookup_insert in Hc, Hp by lia.
  pose proof (parent_index_bounds i Hi).
  split_reads. eapply Hok; eauto.
Qed.

(** Writing a smaller element over position [i] leaves an array
    [sinkDown] can repair. *)
Lemma sink_inv_replace (l : list ref) (i : Z) (node v : ref) :
  heap_ok score l -> zlookup l i = Some node -> (score v <= score node)%Q ->
  sink_inv score (<[Z.to_nat i := v]> l) i.
Proof.
  intros Hok Hnode Hlt. pose proof (zlookup_Some_bounds _ _ _ Hnode) as Hb.
  destruct (heap_ok_sink_inv score l i Hok) as [_ H2].
  split.
  - intros j c p Hj Hne Hc Hp. rewrite zlookup_insert in Hc, Hp by lia.
    pose proof (parent_index_bounds j Hj).
    split_reads.
    + assert (score node <= score c)%Q by (eapply (Hok j); eauto). lra.
    + eapply Hok; eauto.
  - intros j c q Hi Hpj Hc Hq. rewrite zlookup_insert in Hc, Hq by lia.
    pose proof (parent_index_bounds i Hi).
    assert (i < j) by (rewrite (parent_index_eq j) in Hpj; clear - Hpj Hi; zdiv).
    split_reads. eapply H2; eauto.
Qed.

(** Writing a larger element over position [i] leaves an array [bubbleUp]
    can repair. *)
Lemma bubble_inv_replace (l : list ref) (i : Z) (node v : ref) :
  heap_ok score l -> zlookup l i = Some node -> (score node <= score v)%Q ->
  bubble_inv score (<[Z.to_nat i := v]> l) i.
Proof.
  intros Hok Hnode Hge. pose proof (zlookup_Some_bounds _ _ _ Hnode) as Hb.
  destruct (heap_ok_sink_inv score l i Hok) as [_ H2].
  split.
  - intros j c p Hj Hne Hc Hp. rewrite zlookup_insert in Hc, Hp by lia.
    pose proof (parent_index_bounds j Hj).
    split_reads.
    + assert (score p <= score node)%Q
        by (eapply Hok; cycle 1; [eassumption | eassumption | lia]).
      lra.
    + eapply Hok; eauto.
  - intros j c q Hi Hpj Hc Hq. rewrite zlookup_insert in Hc, Hq by lia.
    pose proof (parent_index_bounds i Hi).
    assert (i < j) by (rewrite (parent_index_eq j) in Hpj; clear - Hpj Hi; zdiv).
    split_reads. eapply H2; eauto.
Qed.

(** [bubbleUp(-1)], reached when [remove] is given a node that is not in
    the heap: the last element [v], parked in property [-1], replaces the
    root if the root is smaller. *)
Lemma bubbleUp_minus1_heap_ok (l : list ref) (v : ref) :
  heap_ok score l -> l <> [] ->
  exists a', bubbleUp score (-1) (mkArr l (Some v)) = Ok a' /\ heap_ok score (items a') /\
    items a' ⊆+ l ++ [v].
Proof.
  intros Hok Hne.
  assert (Hlen : 0 < Z.of_nat (length l)) by (destruct l; [done | simpl; lia]).
  destruct (zlookup_in_range l 0 ltac:(lia)) as [r Hr].
  assert (Hm1 : forall a, aget a (-1) = minus1 a) by reflexivity.
  unfold bubbleUp. rewrite Hm1. cbn [minus1]. cbn [bubbleUp_loop].
  change (Z.shiftl (-1 + 1) 1) with 0. change (0 - 1) with (-1).
  rewrite Hm1. cbn [minus1]. unfold alength at 1 2. cbn [items].
  destruct (Z.ltb_spec (-1) (Z.of_nat (length l))); [| lia].
  rewrite Qltb_irrefl. cbn [res_bind].
  destruct (Z.ltb_spec 0 (Z.of_nat (length l))); [| lia].
  rewrite aget_items by lia. cbn [items]. rewrite Hr. cbn [res_bind lt_undef].
  destruct (Qltb (score r) (score v)) eqn:E.
  - rewrite aget_items by lia. cbn [items]. rewrite Hr.
    rewrite aset_minus1. cbn [res_bind items].
    rewrite aset_in_range by (unfold alength; simpl; lia). cbn [res_bind items minus1].
    destruct (bubbleUp_loop_spec score (length l) 0 (alength (mkArr l (Some v)))
                (mkArr (<[Z.to_nat 0 := v]> l) (Some r)) v) as (a' & Hrun & Hok' & Hperm & _).
    + unfold alength. simpl. by rewrite length_insert.
    + lia.
    + simpl. rewrite zlookup_insert by lia. by case_decide.
    + unfold alength. simpl. lia.
    + simpl. by apply bubble_inv_root.
    + exists a'. split_and!; [done | done |]. rewrite Hperm. cbn [items].
      apply insert_submseteq_snoc. lia.
  - eexists. split_and!; [done | done |]. cbn [items]. by apply submseteq_inserts_r.
Qed.

(** [remove] keeps the heap order, whether or not the node is in the heap. *)
Lemma remove_heap_ok (node : ref) (a : jsarray) :
  heap_ok score (items a) ->
  exists a', remove score node a = Ok a' /\ heap_ok score (items a') /\
    items a' ⊆+ items a.
Proof.
  destruct a as [l m]. simpl. intros Hok. unfold remove.
  destruct (list_snoc_cases l) as [-> | (l' & v & ->)].
  { rewrite apop_nil. cbn. eauto. }
  rewrite apop_snoc.
  pose proof (heap_ok_app_l _ _ _ Hok) as Hok'.
  set (i := indexOf (mkArr (l' ++ [v]) m) node).
  destruct (Z.eqb_spec i (alength (mkArr l' m) - 1)) as [Hlast | Hlast]; cbn [negb].
  { eexists. split_and!; [done | done |]. cbn [items]. by apply submseteq_inserts_r. }
  unfold alength in Hlast. cbn [items] in Hlast.
  destruct (indexOf_spec (mkArr (l' ++ [v]) m) node) as [[Hi _] | [Hb Hnode]]; fold i in Hi || fold i in Hb, Hnode.
  - (* the node is not in the heap *)
    rewrite Hi. rewrite aset_minus1. cbn [res_bind items].
    destruct (Qltb (score v) (score node)).
    + rewrite sinkDown_minus1. eexists. split_and!; [done | done |].
      cbn [items]. by apply submseteq_inserts_r.
    + apply bubbleUp_minus1_heap_ok; [done |]. intros ->. simpl in Hlast. lia.
  - unfold alength in Hb. cbn [items] in Hb, Hnode. rewrite length_app in Hb. simpl in Hb.
    destruct (decide (i = Z.of_nat (length l'))) as [Hend | Hmid].
    + (* the node was the last element: it is written back *)
      rewrite Hend. change (Z.of_nat (length l')) with (alength (mkArr l' m)).
      rewrite aset_at_length. cbn [res_bind items minus1].
      rewrite zlookup_snoc in Hnode. case_decide; [| lia]. simplify_eq.
      rewrite Qltb_irrefl.
      destruct (bubbleUp_spec score (alength (mkArr l' m)) (mkArr (l' ++ [node]) m) node)
        as (a' & ? & ? & Hperm & _); [| by apply heap_ok_bubble_inv |].
      { simpl. rewrite zlookup_snoc. unfold alength. simpl. by case_decide. }
      exists a'. split_and!; [done | done |]. by rewrite Hperm.
    + rewrite zlookup_snoc in Hnode. case_decide; [lia |].
      rewrite aset_in_range by (unfold alength; simpl; lia). cbn [res_bind items minus1].
      destruct (Qltb (score v) (score node)) eqn:E.
      * apply Qltb_lt in E.
        destruct (sinkDown_spec score i (mkArr (<[Z.to_nat i := v]> l') m) v)
          as (a' & ? & ? & Hperm & _).
        -- simpl. rewrite zlookup_insert by lia. by case_decide.
        -- simpl. eapply sink_inv_replace; eauto. lra.
        -- exists a'. split_and!; [done | done |]. rewrite Hperm. cbn [items].
           apply insert_submseteq_snoc. lia.
      * apply Qltb_ge in E.
        destruct (bubbleUp_spec score i (mkArr (<[Z.to_nat i := v]> l') m) v)
          as (a' & ? & ? & Hperm & _).
        -- simpl. rewrite zlookup_insert by lia. by case_decide.
        -- simpl. eapply bubble_inv_replace; eauto.
        -- exists a'. split_and!; [done | done |]. rewrite Hperm. cbn [items].
           apply insert_submseteq_snoc. lia.
Qed.
End HeapRemove.

(** ** Sequences of heap operations *)

Lemma pop_heap_ok (score : ref -> Q) (a : jsarray) :
  heap_ok score (items a) ->
  exists r a', pop score a = Ok (r, a') /\ heap_ok score (items a').
Proof.
  intros Hok. destruct (decide (items a = [])) as [Hnil | Hne].
  - rewrite pop_empty by done. eauto.
  - destruct (pop_spec score a Hok Hne) as (r & a' & -> & ? & _). eauto.
Qed.

Lemma run_op_heap_ok (score : ref -> Q) (op : heap_op) (a : jsarray) :
  heap_ok score (items a) ->
  exists a', run_op score op a = Ok a' /\ heap_ok score (items a').
Proof.
  intros Hok. destruct op as [e | | node | node]; simpl.
  - destruct (push_spec score e a Hok) as (a' & ? & ? & _). eauto.
  - destruct (pop_heap_ok score a Hok) as (r & a' & -> & ?). simpl. eauto.
  - destruct (remove_heap_ok score node a Hok) as (a' & ? & ? & _). eauto.
  - destruct (rescoreElement_heap_ok score node a Hok) as (a' & ? & ? & _). eauto.
Qed.

Lemma run_ops_heap_ok (score : ref -> Q) (ops : list heap_op) (a : jsarray) :
  heap_ok score (items a) ->
  exists a', run_ops score ops a = Ok a' /\ heap_ok score (items a').
Proof.
  revert a. induction ops as [| op ops IH]; intros a Hok; simpl; [eauto |].
  destruct (run_op_heap_ok score op a Hok) as (a1 & -> & Hok1). simpl. by apply IH.
Qed.

(** *** Scores lowered between the calls *)

Lemma heap_ok_ext (s1 s2 : ref -> Q) (l : list ref) :
  (forall r, r ∈ l -> s1 r = s2 r) -> heap_ok s1 l -> heap_ok s2 l.
Proof.
  intros Hext Hok i c p Hi Hc Hp.
  rewrite <- (Hext c), <- (Hext p) by (eapply zlookup_elem_of; eauto).
  eapply Hok; eauto.
Qed.

Lemma submseteq_NoDup (l k : list ref) : l ⊆+ k -> NoDup k -> NoDup l.
Proof.
  intros Hsub Hnd. apply submseteq_Permutation in Hsub as [k' Hk].
  rewrite Hk in Hnd. by apply NoDup_app in Hnd as [? _].
Qed.

Lemma run_caller_heap_ok (ops : list caller_op) : forall (k : nat) (score : ref -> Q)
    (pushed : list ref) (a : jsarray),
  caller_okb score pushed ops = true ->
  heap_ok score (items a) -> NoDup (items a) -> items a ⊆ pushed ->
  exists score' a', run_caller score (take k ops) a = Ok (score', a') /\
    heap_ok score' (items a').
Proof.
  induction ops as [| op ops IH]; intros k score pushed a Hc Hok Hnd Hsub.
  { rewrite take_nil. simpl. eauto. }
  destruct k as [| k]; [simpl; eauto |].
  simpl take. cbn [run_caller].
  destruct op as [[e | | node | node] | node q]; cbn [caller_okb run_caller_op run_op] in *.
  - apply andb_true_iff in Hc as [He Hc]. apply bool_decide_eq_true in He.
    destruct (push_spec score e a Hok) as (a' & -> & Hok' & Hperm & _). cbn [res_bind].
    apply (IH k score (e :: pushed) a' Hc Hok').
    + rewrite Hperm. apply NoDup_cons. split; [| done]. intros Hin. by apply He, Hsub.
    + rewrite Hperm. intros r Hr. apply elem_of_cons in Hr as [-> | Hr];
        apply elem_of_cons; [by left | right; by apply Hsub].
  - destruct (decide (items a = [])) as [Hnil | Hne].
    + rewrite pop_empty by done. cbn [res_bind]. by apply (IH k score pushed a).
    + destruct (pop_spec score a Hok Hne) as (r & a' & -> & Hok' & Hperm & _).
      cbn [res_bind]. rewrite Hperm in Hnd. apply NoDup_cons in Hnd as [_ Hnd].
      apply (IH k score pushed a' Hc Hok' Hnd).
      intros x Hx. apply Hsub. rewrite Hperm. apply elem_of_cons. by right.
  - destruct (remove_heap_ok score node a Hok) as (a' & -> & Hok' & Hsm). cbn [res_bind].
    apply (IH k score pushed a' Hc Hok').
    + by eapply submseteq_NoDup.
    + intros x Hx. apply Hsub. by eapply elem_of_submseteq.
  - destruct (rescoreElement_heap_ok score node a Hok) as (a' & -> & Hok' & Hperm).
    cbn [res_bind]. apply (IH k score pushed a' Hc Hok').
    + by rewrite Hperm.
    + intros x Hx. apply Hsub. by rewrite <- Hperm.
  - apply andb_true_iff in Hc as [Hq Hc]. apply Qle_bool_iff in Hq.
    set (score' := set_score score node q) in *.
    assert (Hother : forall r, r <> node -> score' r = score r).
    { intros r Hr. unfold score', set_score. by rewrite decide_False. }
    assert (Hnode : score' node = q).
    { unfold score', set_score. by rewrite decide_True. }
    destruct (decide (node ∈ items a)) as [Hin | Hout].
    + destruct (rescoreElement_spec score' score node a Hok Hnd Hin Hother)
        as (a' & -> & Hok' & Hperm & _); [by rewrite Hnode |].
      cbn [res_bind]. apply (IH k score' pushed a' Hc Hok').
      * by rewrite Hperm.
      * intros x Hx. apply Hsub. by rewrite <- Hperm.
    + assert (Hok1 : heap_ok score' (items a)).
      { apply (heap_ok_ext score); [| done]. intros r Hr. symmetry. apply Hother.
        intros ->. done. }
      destruct (rescoreElement_heap_ok score' node a Hok1) as (a' & -> & Hok' & Hperm).
      cbn [res_bind]. apply (IH k score' pushed a' Hc Hok').
      * by rewrite Hperm.
      * intros x Hx. apply Hsub. by rewrite <- Hperm.
Qed.

(** X8.  The heap order holds after every call also when scores are
    lowered between the calls, each lowering being followed by
    [rescoreElement] on that node, provided no node is pushed twice: the
    calls all return, and after each of them every element scores, under
    the scores then in force, at least as much as its parent. *)
Lemma heap_order_with_lowered_scores (score : ref -> Q) (ops : list caller_op) (k : nat) :
  caller_okb score [] ops = true ->
  exists score' a, run_caller score (take k ops) arr_empty = Ok (score', a) /\
    heap_ok score' (items a).
Proof.
  intros Hc. apply (run_caller_heap_ok ops k score [] arr_empty Hc).
  - apply heap_ok_nil.
  - apply NoDup_nil_2.
  - done.
Qed.

Lemma heap_order_with_lowered_scores_witness :
  let score := fun r : ref => inject_Z (Z.of_nat r) in
  let ops := [CallerHeap (OpPush 3%nat); CallerHeap (OpPush 5%nat); CallerHeap (OpPush 4%nat);
              CallerLower 5%nat 1; CallerHeap OpPop; CallerHeap (OpRemove 4%nat)] in
  exists score' a, run_caller score (take 4 ops) arr_empty = Ok (score', a) /\
    heap_ok score' (items a).
Proof.
  intros score ops. apply (heap_order_with_lowered_scores score ops 4). reflexivity.
Defined.

(** A node pushed twice is out of the reach of [rescoreElement]: it
    re-sinks the first occurrence only. *)
Lemma rescoreElement_misses_second_occurrence :
  let score0 := fun r : ref => inject_Z (Z.of_nat r) in
  let score := set_score score0 5%nat 0 in
  heap_ok score0 [1; 5; 2; 5]%nat /\
  rescoreElement score 5%nat (mkArr [1; 5; 2; 5]%nat None) = Ok (mkArr [5; 1; 2; 5]%nat None) /\
  ~ heap_ok score [5; 1; 2; 5]%nat.
Proof.
  cbn zeta. split_and!.
  - intros i c p Hi Hc Hp. pose proof (zlookup_Some_bounds _ _ _ Hc) as Hb. simpl in Hb.
    assert (i = 1 \/ i = 2 \/ i = 3) as [-> | [-> | ->]] by lia;
      vm_compute in Hc, Hp; injection Hc as <-; injection Hp as <-; vm_compute; discriminate.
  - reflexivity.
  - intros Hok. specialize (Hok 3 5%nat 1%nat ltac:(lia) eq_refl eq_refl).
    vm_compute in Hok. by apply Hok.
Qed.

(** One call of a caller that keeps the discipline. *)
Lemma run_caller_op_disciplined (score : ref -> Q) (op : caller_op) (a : jsarray) :
  heap_ok score (items a) -> NoDup (items a) ->
  match op with
  | CallerHeap (OpPush e) => e ∉ items a
  | CallerHeap _ => True
  | CallerLower node q => (q <= score node)%Q
  end ->
  exists score' a', run_caller_op score op a = Ok (score', a') /\
    heap_ok score' (items a') /\ NoDup (items a').
Proof.
  intros Hok Hnd Hop.
  destruct op as [[e | | node | node] | node q]; cbn [run_caller_op run_op].
  - destruct (push_spec score e a Hok) as (a' & -> & Hok' & Hperm & _). cbn [res_bind].
    exists score, a'. split_and!; [done | done |].
    rewrite Hperm. apply NoDup_cons. done.
  - destruct (decide (items a = [])) as [Hnil | Hne].
    + rewrite pop_empty by done. cbn [res_bind]. exists score, a. done.
    + destruct (pop_spec score a Hok Hne) as (r & a' & -> & Hok' & Hperm & _).
      cbn [res_bind]. exists score, a'. split_and!; [done | done |].
      rewrite Hperm in Hnd. by apply NoDup_cons in Hnd as [_ ?].
  - destruct (remove_heap_ok score node a Hok) as (a' & -> & Hok' & Hsm). cbn [res_bind].
    exists score, a'. split_and!; [done | done |]. by eapply submseteq_NoDup.
  - destruct (rescoreElement_heap_ok score node a Hok) as (a' & -> & Hok' & Hperm).
    cbn [res_bind]. exists score, a'. split_and!; [done | done |]. by rewrite Hperm.
  - set (score' := set_score score node q).
    assert (Hother : forall r, r <> node -> score' r = score r).
    { intros r Hr. unfold score', set_score. by rewrite decide_False. }
    assert (Hnode : score' node = q).
    { unfold score', set_score. by rewrite decide_True. }
    destruct (decide (node ∈ items a)) as [Hin | Hout].
    + destruct (rescoreElement_spec score' score node a Hok Hnd Hin Hother)
        as (a' & -> & Hok' & Hperm & _); [by rewrite Hnode |].
      cbn [res_bind]. exists score', a'. split_and!; [done | done |]. by rewrite Hperm.
    + assert (Hok1 : heap_ok score' (items a)).
      { apply (heap_ok_ext score); [| done]. intros r Hr. symmetry. apply Hother.
        intros ->. done. }
      destruct (rescoreElement_heap_ok score' node a Hok1) as (a' & -> & Hok' & Hperm).
      cbn [res_bind]. exists score', a'. split_and!; [done | done |]. by rewrite Hperm.
Qed.

Lemma run_caller_disciplined (ops : list caller_op) : forall (k : nat) (score : ref -> Q)
    (a : jsarray),
  caller_disciplineb score ops a = true ->
  heap_ok score (items a) -> NoDup (items a) ->
  exists score' a', run_caller score (take k ops) a = Ok (score', a') /\
    heap_ok score' (items a') /\ NoDup (items a').
Proof.
  induction ops as [| op ops IH]; intros k score a Hd Hok Hnd.
  { rewrite take_nil. simpl. eauto. }
  destruct k as [| k]; [simpl; eauto |].
  simpl take. cbn [run_caller]. cbn [caller_disciplineb] in Hd.
  apply andb_true_iff in Hd as [Hop Hrest].
  destruct (run_caller_op_disciplined score op a Hok Hnd) as (score1 & a1 & Hrun & Hok1 & Hnd1).
  { destruct op as [[e | | node | node] | node q]; try done.
    - by apply bool_decide_eq_true in Hop.
    - by apply Qle_bool_iff. }
  rewrite Hrun in Hrest |- *. cbn [res_bind]. by apply IH.
Qed.

(** C4, as stated, fails when scores are live: on a new heap, push nodes
    1, 5, 2 and 5 again (scored by their number), lower the score of node
    5 to 0 and call [rescoreElement(5)].  Every call returns; the first
    occurrence of node 5 moves to the root, the second stays below node 1,
    whose score is now larger than its own. *)
Lemma heap_order_fails_after_rescoring_a_node_pushed_twice :
  let score0 := fun r : ref => inject_Z (Z.of_nat r) in
  let ops := [CallerHeap (OpPush 1%nat); CallerHeap (OpPush 5%nat);
              CallerHeap (OpPush 2%nat); CallerHeap (OpPush 5%nat);
              CallerLower 5%nat 0] in
  exists score a,
    run_caller score0 (take 4 ops) arr_empty = Ok (score0, mkArr [1; 5; 2; 5]%nat None) /\
    heap_ok score0 [1; 5; 2; 5]%nat /\
    run_caller score0 ops arr_empty = Ok (score, a) /\
    items a = [5; 1; 2; 5]%nat /\
    score 5%nat = 0%Q /\ score 1%nat = 1%Q /\
    ~ heap_ok score (items a).
Proof.
  cbn zeta. eexists _, _. split_and!; [reflexivity | | reflexivity | reflexivity
                                       | reflexivity | reflexivity |].
  - intros i c p Hi Hc Hp. pose proof (zlookup_Some_bounds _ _ _ Hc) as Hb. simpl in Hb.
    assert (i = 1 \/ i = 2 \/ i = 3) as [-> | [-> | ->]] by lia;
      vm_compute in Hc, Hp; injection Hc as <-; injection Hp as <-; vm_compute; discriminate.
  - intros Hok. specialize (Hok 3 5%nat 1%nat ltac:(lia) eq_refl eq_refl).
    vm_compute in Hok. by apply Hok.
Qed.

(** C4, amended.  The heap order holds after each operation of every
    sequence of [push], [pop], [remove] and [rescoreElement] calls on a
    new heap, all of which return, in each of these two cases: no score
    ever changes (nodes may then be pushed any number of times); or
    scores change only by being lowered, each lowering being followed by
    [rescoreElement] on that node, and no node is pushed while it is in
    the heap (the order is then taken under the scores in force after
    the call, and the heap never holds a node twice). *)
Theorem heap_order_after_each_operation_of_a_disciplined_caller :
  (forall (score : ref -> Q) (ops : list heap_op) (k : nat),
     exists a, run_ops score (take k ops) arr_empty = Ok a /\ heap_ok score (items a)) /\
  (forall (score : ref -> Q) (ops : list caller_op) (k : nat),
     caller_disciplineb score ops arr_empty = true ->
     exists score' a, run_caller score (take k ops) arr_empty = Ok (score', a) /\
       heap_ok score' (items a) /\ NoDup (items a)).
Proof.
  split.
  - intros score ops k. apply run_ops_heap_ok. apply heap_ok_nil.
  - intros score ops k Hd.
    apply (run_caller_disciplined ops k score arr_empty Hd); [apply heap_ok_nil |].
    apply NoDup_nil_2.
Qed.

Lemma heap_order_after_each_operation_of_a_disciplined_caller_witness :
  let score := fun r : ref => inject_Z (Z.of_nat r) in
  let ops := [CallerHeap (OpPush 3%nat); CallerHeap (OpPush 5%nat); CallerHeap (OpPush 4%nat);
              CallerLower 5%nat 1; CallerHeap OpPop; CallerHeap (OpPush 5%nat);
              CallerHeap (OpRemove 3%nat); CallerHeap (OpRescore 4%nat)] in
  exists score' a, run_caller score (take 6 ops) arr_empty = Ok (score', a) /\
    heap_ok score' (items a) /\ NoDup (items a).
Proof.
  intros score ops.
  apply (proj2 heap_order_after_each_operation_of_a_disciplined_caller score ops 6%nat).
  reflexivity.
Defined.

(** C2 (the code departs from the claim).  With nodes scored by their
    number, [remove(2)] on the heap [[1; 2]] leaves both nodes in place,
    and [remove(1)] on the same heap drops node 2 and keeps node 1:
    the comparison with [content.length - 1] is made after [content.pop()]. *)
Theorem remove_near_end_drops_wrong_node :
  let score := fun r : ref => inject_Z (Z.of_nat r) in
  remove score 2%nat (mkArr [1; 2]%nat None) = Ok (mkArr [1; 2]%nat None) /\
  remove score 1%nat (mkArr [1; 2]%nat None) = Ok (mkArr [1]%nat None).
Proof. split; reflexivity. Qed.

(** C3, as stated, fails: [pop] on the empty heap raises nothing; it
    returns [undefined] and leaves the heap empty. *)
Lemma pop_on_empty_heap_returns_undefined :
  pop (fun _ => 0%Q) arr_empty = Ok (None, arr_empty) /\
  ~ (exists e, pop (fun _ => 0%Q) arr_empty = Fail e).
Proof. split; [reflexivity | intros [e He]; discriminate He]. Qed.

(** ** Graph: node store, dirty list, neighbours *)

Lemma clean_baseline (n : Node.GridNode) : baseline (clean n).
Proof. repeat split. Qed.

Lemma clean_static (n : Node.GridNode) :
  Node.x (clean n) = Node.x n /\ Node.y (clean n) = Node.y n /\ Node.w (clean n) = Node.w n.
Proof. repeat split. Qed.

Lemma clean_idemp (n : Node.GridNode) : clean (clean n) = clean n.
Proof. reflexivity. Qed.

Lemma baselineb_spec (n : Node.GridNode) : baselineb n = true <-> n = clean n.
Proof. unfold baselineb. apply bool_decide_eq_true. Qed.

Lemma baseline_clean (n : Node.GridNode) : n = clean n -> baseline n.
Proof. intros ->. apply clean_baseline. Qed.

Lemma nodes_update_node (r r' : ref) (fn : Node.GridNode -> Node.GridNode) (gr : Graph) :
  nodes (update_node r fn gr) !! r' =
  if decide (r = r') then fn <$> nodes gr !! r else nodes gr !! r'.
Proof. unfold update_node. simpl. apply list_lookup_alter. Qed.

Lemma length_update_node (r : ref) (fn : Node.GridNode -> Node.GridNode) (gr : Graph) :
  length (nodes (update_node r fn gr)) = length (nodes gr).
Proof. unfold update_node. simpl. apply length_alter. Qed.

(** The store after a run of [cleanNode] calls. *)
Lemma foldl_cleanNode (l : list ref) : forall (gr : Graph),
  let gr' := foldl (fun acc r => cleanNode r acc) gr l in
  grid gr' = grid gr /\ diagonal gr' = diagonal gr /\ dirtyNodes gr' = dirtyNodes gr /\
  forall r, nodes gr' !! r =
    if decide (r ∈ l) then clean <$> nodes gr !! r else nodes gr !! r.
Proof.
  induction l as [| a l IH]; intros gr; simpl.
  - split_and!; try done.
  - destruct (IH (cleanNode a gr)) as (Hg & Hd & Hdn & Hn). split_and!; try done.
    intros r. rewrite Hn. unfold cleanNode. rewrite nodes_update_node.
    destruct (decide (r ∈ a :: l)) as [Hin | Hin].
    + destruct (decide (r ∈ l)) as [Hin' | Hin'].
      * destruct (decide (a = r)) as [-> | ?];
          [destruct (nodes gr !! r); reflexivity | reflexivity].
      * destruct (decide (a = r)) as [-> | Hne]; [reflexivity |].
        apply elem_of_cons in Hin as [-> | ?]; [congruence | contradiction].
    + destruct (decide (r ∈ l)) as [Hin' | Hin'].
      * exfalso. apply Hin, elem_of_cons. by right.
      * destruct (decide (a = r)) as [-> | ?]; [| reflexivity].
        exfalso. apply Hin, elem_of_cons. by left.
Qed.

Lemma cleanDirty_spec (gr : Graph) :
  grid (cleanDirty gr) = grid gr /\ diagonal (cleanDirty gr) = diagonal gr /\
  dirtyNodes (cleanDirty gr) = [] /\
  forall r, nodes (cleanDirty gr) !! r =
    if decide (r ∈ dirtyNodes gr) then clean <$> nodes gr !! r else nodes gr !! r.
Proof.
  unfold cleanDirty. destruct (foldl_cleanNode (dirtyNodes gr) gr) as (? & ? & ? & ?).
  simpl. done.
Qed.

Lemma foldl_markDirty (marks : list ref) : forall (gr : Graph),
  let gr' := foldl (fun acc r => markDirty r acc) gr marks in
  nodes gr' = nodes gr /\ grid gr' = grid gr /\ diagonal gr' = diagonal gr /\
  dirtyNodes gr' = dirtyNodes gr ++ marks.
Proof.
  induction marks as [| a l IH]; intros gr; simpl.
  - by rewrite app_nil_r.
  - destruct (IH (markDirty a gr)) as (-> & -> & -> & ->). simpl.
    by rewrite <- app_assoc.
Qed.

(** C6.  After any sequence of [markDirty] calls (repetitions allowed),
    [cleanDirty] leaves an empty dirty list, and every node that was in the
    dirty list has f = g = h = 0, visited = closed = false and no parent,
    its position and weight being unchanged. *)
Theorem cleanDirty_resets_every_dirty_node (gr : Graph) (marks : list ref) :
  let gr1 := foldl (fun acc r => markDirty r acc) gr marks in
  let gr2 := cleanDirty gr1 in
  dirtyNodes gr2 = [] /\
  (forall r, r ∈ marks -> r ∈ dirtyNodes gr1) /\
  (forall r n, r ∈ dirtyNodes gr1 -> nodes gr1 !! r = Some n ->
     exists n', nodes gr2 !! r = Some n' /\ baseline n' /\
       Node.x n' = Node.x n /\ Node.y n' = Node.y n /\ Node.w n' = Node.w n).
Proof.
  intros gr1 gr2.
  destruct (foldl_markDirty marks gr) as (_ & _ & _ & Hd). fold gr1 in Hd.
  destruct (cleanDirty_spec gr1) as (_ & _ & Hnil & Hn). fold gr2 in Hnil, Hn.
  split_and!; [done | |].
  - intros r Hr. rewrite Hd. apply elem_of_app. by right.
  - intros r n Hr Hlook. exists (clean n). rewrite Hn, decide_True by done.
    rewrite Hlook. split_and!; try done.
Qed.

Lemma push_if_omap (c : option ref) (ret : list ref) :
  push_if c ret = ret ++ omap id [c].
Proof. destruct c; simpl; [done | by rewrite app_nil_r]. Qed.

Lemma zlookup_is_Some {A} (l : list A) (i : Z) :
  is_Some (zlookup l i) <-> 0 <= i < Z.of_nat (length l).
Proof.
  split.
  - intros [v Hv]. by eapply zlookup_Some_bounds.
  - intros Hi. destruct (zlookup_in_range l i Hi) as [v Hv]. by exists v.
Qed.

(** The node the index holds at row [i], column [j], read with the
    lookup of lists: there is one exactly when [i] is the number of a row
    of the grid and [j] the number of a column of that row. *)
Lemma node_at_in_bounds (gr : Graph) (i j : Z) (r : ref) :
  node_at gr i j = Some r <->
  0 <= i < Z.of_nat (length (grid gr)) /\
  exists row, grid gr !! Z.to_nat i = Some row /\
    0 <= j < Z.of_nat (length row) /\ row !! Z.to_nat j = Some r.
Proof.
  unfold node_at, grid_at. split.
  - intros Hr. destruct (zlookup (grid gr) i) as [row |] eqn:Hrow; [| done].
    pose proof (zlookup_Some_bounds _ _ _ Hrow) as Hi.
    pose proof (zlookup_Some_bounds _ _ _ Hr) as Hj.
    split; [done |]. exists row. unfold zlookup in Hrow, Hr.
    destruct (Z.ltb_spec i 0); [lia |]. destruct (Z.ltb_spec j 0); [lia |]. done.
  - intros (Hi & row & Hrow & Hj & Hr). unfold zlookup.
    destruct (Z.ltb_spec i 0); [lia |]. rewrite Hrow.
    destruct (Z.ltb_spec j 0); [lia |]. done.
Qed.

Lemma node_at_in_bounds_node (gr : Graph) (i j : Z) :
  node_at gr i j = in_bounds_node gr i j.
Proof.
  unfold in_bounds_node. destruct (node_at gr i j) as [r |] eqn:Hr.
  - apply node_at_in_bounds in Hr as (Hi & row & Hrow & Hj & Hr).
    rewrite decide_True by done. rewrite Hrow. by rewrite decide_True by done.
  - case_decide as Hi; [| done].
    destruct (grid gr !! Z.to_nat i) as [row |] eqn:Hrow; [| done].
    case_decide as Hj; [| done].
    destruct (row !! Z.to_nat j) as [r |] eqn:Hrj; [| done].
    assert (Hsome : node_at gr i j = Some r) by (apply node_at_in_bounds; eauto 6).
    congruence.
Qed.

(** C7.  [neighbors(node)] is the list of the nodes at the in-bounds
    positions among Left (x-1), Right (x+1), Down (y-1), Up (y+1) and, when
    diagonal movement is enabled, Down-Left, Down-Right, Up-Left, Up-Right,
    in that order; any other position is left out.  A position [(i, j)]
    is in bounds exactly when [0 <= i < grid.length] and
    [0 <= j < grid[i].length], and the node taken at an in-bounds position
    is the one the grid holds there. *)
Theorem neighbors_are_in_bounds_adjacent_in_order (gr : Graph) (node : Node.GridNode) :
  neighbors gr node = neighbors_spec gr (Node.x node) (Node.y node) /\
  neighbor_offsets false = [(-1, 0); (1, 0); (0, -1); (0, 1)] /\
  neighbor_offsets true =
    [(-1, 0); (1, 0); (0, -1); (0, 1); (-1, -1); (1, -1); (-1, 1); (1, 1)] /\
  (forall i j, is_Some (node_at gr i j) <->
     exists row, zlookup (grid gr) i = Some row /\ 0 <= j < Z.of_nat (length row)) /\
  (forall i j r, node_at gr i j = Some r <->
     0 <= i < Z.of_nat (length (grid gr)) /\
     exists row, grid gr !! Z.to_nat i = Some row /\
       0 <= j < Z.of_nat (length row) /\ row !! Z.to_nat j = Some r) /\
  (forall i j, is_Some (node_at gr i j) <->
     0 <= i < Z.of_nat (length (grid gr)) /\
     exists row, grid gr !! Z.to_nat i = Some row /\ 0 <= j < Z.of_nat (length row)) /\
  (forall i j, ~ (0 <= i < Z.of_nat (length (grid gr))) -> node_at gr i j = None) /\
  neighbors gr node =
    omap (fun d => in_bounds_node gr (Node.x node + fst d) (Node.y node + snd d))
      (neighbor_offsets (diagonal gr)).
Proof.
  assert (Hspec : neighbors gr node = neighbors_spec gr (Node.x node) (Node.y node)).
  2:{ split_and!; [exact Hspec | reflexivity | reflexivity | | | | |].
      - intros i j. unfold node_at, grid_at. split.
        + intros [r Hr]. destruct (zlookup (grid gr) i) as [row |] eqn:Hrow; [| done].
          exists row. split; [done |]. by eapply zlookup_Some_bounds.
        + intros (row & -> & Hj). by apply zlookup_is_Some.
      - apply node_at_in_bounds.
      - intros i j. split.
        + intros [r Hr]. apply node_at_in_bounds in Hr as (Hi & row & Hrow & Hj & _). eauto.
        + intros (Hi & row & Hrow & Hj).
          destruct (lookup_lt_is_Some_2 row (Z.to_nat j) ltac:(lia)) as [r Hr].
          exists r. apply node_at_in_bounds. eauto 6.
      - intros i j Hi. destruct (node_at gr i j) as [r |] eqn:Hr; [| done].
        apply node_at_in_bounds in Hr as (? & _). contradiction.
      - rewrite Hspec. unfold neighbors_spec. apply list_omap_ext.
        apply Forall2_same_length_lookup. split; [done |].
        intros k d d' Hd Hd'. assert (d' = d) by congruence. subst d'.
        apply node_at_in_bounds_node. }
  unfold neighbors, neighbors_spec, neighbor_offsets, node_at.
  destruct (diagonal gr); cbn [app omap list_omap fst snd];
    replace (Node.x node + -1) with (Node.x node - 1) by lia;
    replace (Node.y node + -1) with (Node.y node - 1) by lia;
    rewrite !Z.add_0_r;
    repeat (destruct (grid_at _ _ _); cbn [push_if app]); reflexivity.
Qed.

(** ** Well-formed graphs *)

Lemma row_okb_spec (ns : list Node.GridNode) (i : Z) (row : list ref) : forall (j0 j : Z) (r : ref),
  row_okb ns i j0 row = true -> zlookup row j = Some r ->
  exists n, ns !! r = Some n /\ Node.x n = i /\ Node.y n = j0 + j.
Proof.
  induction row as [| r0 row IH]; intros j0 j r Hok Hr.
  - unfold zlookup in Hr. destruct (j <? 0); [done |]. by rewrite lookup_nil in Hr.
  - simpl in Hok. apply andb_true_iff in Hok as [Hhd Htl].
    pose proof (zlookup_Some_bounds _ _ _ Hr) as Hb.
    destruct (decide (j = 0)) as [-> | Hj].
    + unfold zlookup in Hr. simpl in Hr. simplify_eq.
      destruct (ns !! r) as [n |]; [| done]. apply andb_true_iff in Hhd as [Hx Hy].
      exists n. split_and!; [done | lia | lia].
    + destruct (IH (j0 + 1) (j - 1) r Htl) as (n & ? & ? & ?).
      * unfold zlookup in *. destruct (Z.ltb_spec j 0); [lia |].
        destruct (Z.ltb_spec (j - 1) 0); [lia |].
        replace (Z.to_nat j) with (S (Z.to_nat (j - 1))) in Hr by lia. done.
      * exists n. split_and!; [done | done | lia].
Qed.

Lemma grid_okb_spec (ns : list Node.GridNode) (gd : list (list ref)) : forall (i0 i j : Z) (r : ref),
  grid_okb ns i0 gd = true -> grid_at gd i j = Some r ->
  exists n, ns !! r = Some n /\ Node.x n = i0 + i /\ Node.y n = j.
Proof.
  induction gd as [| row gd IH]; intros i0 i j r Hok Hr; unfold grid_at in Hr.
  - unfold zlookup in Hr at 1. destruct (i <? 0); [done |]. by rewrite lookup_nil in Hr.
  - simpl in Hok. apply andb_true_iff in Hok as [Hhd Htl].
    destruct (zlookup (row :: gd) i) as [row' |] eqn:Hrow; [| done].
    pose proof (zlookup_Some_bounds _ _ _ Hrow) as Hb.
    destruct (decide (i = 0)) as [-> | Hi].
    + unfold zlookup in Hrow. simpl in Hrow. simplify_eq.
      destruct (row_okb_spec ns i0 row' 0 j r Hhd Hr) as (n & ? & ? & ?).
      exists n. split_and!; [done | lia | lia].
    + destruct (IH (i0 + 1) (i - 1) j r Htl) as (n & ? & ? & ?).
      * unfold grid_at.
        assert (zlookup gd (i - 1) = Some row') as ->; [| done].
        unfold zlookup in *. destruct (Z.ltb_spec i 0); [lia |].
        destruct (Z.ltb_spec (i - 1) 0); [lia |].
        replace (Z.to_nat i) with (S (Z.to_nat (i - 1))) in Hrow by lia. done.
      * exists n. split_and!; [done | lia | done].
Qed.

Lemma clean_from_spec (ns : list Node.GridNode) (dirty : list ref) : forall (r0 k : nat) (n : Node.GridNode),
  clean_from ns r0 dirty = true -> ns !! k = Some n -> (r0 + k)%nat ∉ dirty -> n = clean n.
Proof.
  induction ns as [| n0 ns IH]; intros r0 k n Hok Hk Hnd; [done |].
  simpl in Hok. apply andb_true_iff in Hok as [Hhd Htl].
  destruct k as [| k]; simpl in Hk.
  - simplify_eq. apply orb_true_iff in Hhd as [Hb | Hd].
    + by apply baselineb_spec.
    + apply bool_decide_eq_true in Hd. rewrite Nat.add_0_r in Hnd. done.
  - apply (IH (S r0) k n Htl Hk). by replace (S r0 + k)%nat with (r0 + S k)%nat by lia.
Qed.

(** What [graph_wfb] gives. *)
Lemma graph_wfb_grid (gr : Graph) (i j : Z) (r : ref) :
  graph_wfb gr = true -> node_at gr i j = Some r ->
  exists n, nodes gr !! r = Some n /\ Node.x n = i /\ Node.y n = j.
Proof.
  intros Hwf Hr. apply andb_true_iff in Hwf as [Hg _].
  destruct (grid_okb_spec _ _ 0 i j r Hg Hr) as (n & ? & ? & ?). eauto.
Qed.

Lemma graph_wfb_clean (gr : Graph) (r : ref) (n : Node.GridNode) :
  graph_wfb gr = true -> nodes gr !! r = Some n -> r ∉ dirtyNodes gr -> n = clean n.
Proof.
  intros Hwf Hr Hnd. apply andb_true_iff in Hwf as [_ Hc].
  by apply (clean_from_spec _ _ 0%nat r n Hc Hr).
Qed.

(** After [cleanDirty] every node of a well-formed graph is at baseline. *)
Lemma cleanDirty_all_clean (gr : Graph) (r : ref) (n : Node.GridNode) :
  graph_wfb gr = true -> nodes (cleanDirty gr) !! r = Some n -> n = clean n.
Proof.
  intros Hwf Hr. destruct (cleanDirty_spec gr) as (_ & _ & _ & Hn).
  rewrite Hn in Hr. case_decide.
  - destruct (nodes gr !! r) as [n0 |]; [| done]. simpl in Hr. simplify_eq. reflexivity.
  - by eapply graph_wfb_clean.
Qed.

Lemma cleanDirty_static (gr : Graph) (r : ref) :
  (exists n, nodes (cleanDirty gr) !! r = Some n) <-> (exists n, nodes gr !! r = Some n).
Proof.
  destruct (cleanDirty_spec gr) as (_ & _ & _ & Hn). rewrite Hn.
  case_decide; [| done]. destruct (nodes gr !! r) as [n0 |]; simpl.
  - split; intros _; eauto.
  - split; intros [n Hx]; discriminate Hx.
Qed.

Lemma cleanDirty_length (gr : Graph) : length (nodes (cleanDirty gr)) = length (nodes gr).
Proof.
  apply Nat.le_antisymm.
  - destruct (decide (length (nodes (cleanDirty gr)) <= length (nodes gr))%nat) as [| Hgt]; [done |].
    destruct (lookup_lt_is_Some_2 (nodes (cleanDirty gr)) (length (nodes gr))) as [n Hn]; [lia |].
    destruct (proj1 (cleanDirty_static gr _) (ex_intro _ n Hn)) as [n' Hn'].
    apply lookup_lt_Some in Hn'. lia.
  - destruct (decide (length (nodes gr) <= length (nodes (cleanDirty gr)))%nat) as [| Hgt]; [done |].
    destruct (lookup_lt_is_Some_2 (nodes gr) (length (nodes (cleanDirty gr)))) as [n Hn]; [lia |].
    destruct (proj2 (cleanDirty_static gr _) (ex_intro _ n Hn)) as [n' Hn'].
    apply lookup_lt_Some in Hn'. lia.
Qed.

(** ** Paths *)

Lemma path_end_cons (u r : ref) (rest : list ref) :
  path_end u (r :: rest) = path_end r rest.
Proof.
  unfold path_end. revert u r. induction rest as [| a rest IH]; intros u r; [done |].
  change (List.last (r :: a :: rest) u) with (List.last (a :: rest) u).
  rewrite (IH u a). symmetry. apply (IH r a).
Qed.

Lemma path_end_snoc (u r : ref) (p : list ref) : path_end u (p ++ [r]) = r.
Proof. unfold path_end. apply last_last. Qed.

Lemma valid_path_snoc (gr : Graph) (p : list ref) : forall (u r : ref),
  valid_path gr u (p ++ [r]) = valid_path gr u p && step_ok gr (path_end u p) r.
Proof.
  induction p as [| a p IH]; intros u r; simpl.
  - by rewrite andb_true_r.
  - rewrite IH, path_end_cons. by rewrite andb_assoc.
Qed.

Lemma path_cost_snoc (gr : Graph) (p : list ref) : forall (u r : ref),
  (path_cost gr u (p ++ [r]) == path_cost gr u p + step_cost gr (path_end u p) r)%Q.
Proof.
  induction p as [| a p IH]; intros u r; simpl.
  - unfold path_end. simpl. lra.
  - rewrite IH, path_end_cons. lra.
Qed.

Lemma step_ok_valid (gr : Graph) (u v : ref) :
  step_ok gr u v = true -> (u < length (nodes gr))%nat /\ (v < length (nodes gr))%nat.
Proof.
  unfold step_ok. destruct (nodes gr !! u) eqn:Hu; [| done].
  destruct (nodes gr !! v) eqn:Hv; [| done]. intros _.
  split; by eapply lookup_lt_Some.
Qed.

Lemma monotoneb_spec (gr : Graph) (phi : ref -> Q) (u v : ref) :
  monotoneb gr phi = true -> step_ok gr u v = true ->
  (phi u <= step_cost gr u v + phi v)%Q.
Proof.
  intros Hm Hs. destruct (step_ok_valid gr u v Hs) as [Hu Hv].
  unfold monotoneb in Hm. rewrite forallb_forall in Hm.
  specialize (Hm u). rewrite forallb_forall in Hm.
  assert (Huv : negb (step_ok gr u v) || Qle_bool (phi u) (step_cost gr u v + phi v) = true).
  { apply Hm; apply in_seq; lia. }
  rewrite Hs in Huv. simpl in Huv. by apply Qle_bool_iff.
Qed.

(** A potential that drops by at most the cost of each move bounds the
    cost of every path from below. *)
Lemma monotone_path (gr : Graph) (phi : ref -> Q) (p : list ref) : forall (u : ref),
  monotoneb gr phi = true -> valid_path gr u p = true ->
  (phi u <= path_cost gr u p + phi (path_end u p))%Q.
Proof.
  induction p as [| r p IH]; intros u Hm Hv; simpl.
  - unfold path_end. simpl. lra.
  - simpl in Hv. apply andb_true_iff in Hv as [Hs Hv].
    rewrite path_end_cons. pose proof (IH r Hm Hv).
    pose proof (monotoneb_spec gr phi u r Hm Hs). lra.
Qed.

(** ** The node store under updates *)

Lemma closed_count_le (ns : list Node.GridNode) : (closed_count ns <= length ns)%nat.
Proof. unfold closed_count. apply length_filter. Qed.

Lemma closed_count_cons (n : Node.GridNode) (ns : list Node.GridNode) :
  closed_count (n :: ns) =
  ((if Node.closed n then 1 else 0) + closed_count ns)%nat.
Proof.
  unfold closed_count. rewrite filter_cons.
  destruct (Node.closed n) eqn:E; case_decide; simpl; congruence.
Qed.

(** Closing an open node raises the count by one. *)
Lemma closed_count_close (ns : list Node.GridNode) : forall (r : ref) (n : Node.GridNode),
  ns !! r = Some n -> Node.closed n = false ->
  closed_count (alter (Node.set_closed true) r ns) = S (closed_count ns).
Proof.
  induction ns as [| n0 ns IH]; intros r n Hr Hc; [done |].
  destruct r as [| r]; simpl in Hr.
  - simplify_eq.
    change (alter (Node.set_closed true) 0%nat (n :: ns))
      with (Node.set_closed true n :: ns).
    rewrite !closed_count_cons. simpl. rewrite Hc. done.
  - change (alter (Node.set_closed true) (S r) (n0 :: ns))
      with (n0 :: alter (Node.set_closed true) r ns).
    rewrite !closed_count_cons. rewrite (IH r n Hr Hc). lia.
Qed.

(** Replacing an open node by an open node keeps the count. *)
Lemma closed_count_insert (ns : list Node.GridNode) : forall (r : ref) (n n' : Node.GridNode),
  ns !! r = Some n -> Node.closed n = false -> Node.closed n' = false ->
  closed_count (<[r := n']> ns) = closed_count ns.
Proof.
  induction ns as [| n0 ns IH]; intros r n n' Hr Hc Hc'; [done |].
  destruct r as [| r]; simpl in Hr.
  - simplify_eq. change (<[0%nat := n']> (n :: ns)) with (n' :: ns).
    rewrite !closed_count_cons. by rewrite Hc, Hc'.
  - change (<[S r := n']> (n0 :: ns)) with (n0 :: <[r := n']> ns).
    rewrite !closed_count_cons. by rewrite (IH r n n' Hr Hc Hc').
Qed.

(** An open node keeps the count below the number of nodes. *)
Lemma closed_count_lt (ns : list Node.GridNode) : forall (r : ref) (n : Node.GridNode),
  ns !! r = Some n -> Node.closed n = false -> (closed_count ns < length ns)%nat.
Proof.
  induction ns as [| n0 ns IH]; intros r n Hr Hc; [done |].
  rewrite closed_count_cons. simpl length.
  destruct r as [| r]; simpl in Hr.
  - simplify_eq. rewrite Hc. pose proof (closed_count_le ns). lia.
  - pose proof (IH r n Hr Hc). destruct (Node.closed n0); lia.
Qed.

Lemma neighbors_spec_eq (gr : Graph) (node : Node.GridNode) :
  neighbors gr node = neighbors_spec gr (Node.x node) (Node.y node).
Proof.
  unfold neighbors, neighbors_spec, neighbor_offsets, node_at.
  destruct (diagonal gr); cbn [app omap list_omap fst snd];
    replace (Node.x node + -1) with (Node.x node - 1) by lia;
    replace (Node.y node + -1) with (Node.y node - 1) by lia;
    rewrite !Z.add_0_r;
    repeat (destruct (grid_at _ _ _); cbn [push_if app]); reflexivity.
Qed.

(** Every neighbour is a node of the index. *)
Lemma neighbors_elem (gr : Graph) (node : Node.GridNode) (r : ref) :
  r ∈ neighbors gr node -> exists i j, node_at gr i j = Some r.
Proof.
  rewrite neighbors_spec_eq. unfold neighbors_spec.
  intros Hin. apply list_elem_of_omap in Hin as ([dx dy] & _ & Hr). eauto.
Qed.

Lemma neighbors_static (gr gr' : Graph) (n n' : Node.GridNode) :
  grid gr = grid gr' -> diagonal gr = diagonal gr' ->
  Node.x n = Node.x n' -> Node.y n = Node.y n' ->
  neighbors gr n = neighbors gr' n'.
Proof. intros Hg Hd Hx Hy. unfold neighbors. by rewrite Hg, Hd, Hx, Hy. Qed.

Lemma getNodeCost_static (n n' c c' : Node.GridNode) :
  Node.x n = Node.x n' -> Node.y n = Node.y n' -> Node.w n = Node.w n' ->
  Node.x c = Node.x c' -> Node.y c = Node.y c' ->
  getNodeCost n (Some c) = getNodeCost n' (Some c').
Proof. intros Hx Hy Hw Hcx Hcy. unfold getNodeCost. by rewrite Hx, Hy, Hw, Hcx, Hcy. Qed.

(** ** The search state *)

Section SearchCore.
Variable gr0 : Graph.
Variables start end_ : ref.
Variable heur : heuristic_fn.
Variable closest : bool.

Hypothesis gr0_index : forall i j r, node_at gr0 i j = Some r ->
  exists n, nodes gr0 !! r = Some n /\ Node.x n = i /\ Node.y n = j.

Lemma static_lookup (gr : Graph) (r : ref) :
  same_static gr0 gr ->
  (exists n, nodes gr !! r = Some n) <-> (exists n0, nodes gr0 !! r = Some n0).
Proof.
  intros (_ & _ & Hlen & Hst). split.
  - intros [n Hn]. destruct (Hst r n Hn) as (n0 & ? & _). eauto.
  - intros [n0 Hn0]. apply lookup_lt_Some in Hn0. rewrite <- Hlen in Hn0.
    destruct (lookup_lt_is_Some_2 _ _ Hn0) as [n Hn]. eauto.
Qed.

Lemma static_step_cost (gr : Graph) (u v : ref) (nu nv : Node.GridNode) :
  same_static gr0 gr -> nodes gr !! u = Some nu -> nodes gr !! v = Some nv ->
  getNodeCost nv (Some nu) = step_cost gr0 u v.
Proof.
  intros (_ & _ & _ & Hst) Hu Hv.
  destruct (Hst u nu Hu) as (nu0 & Hu0 & ? & ? & ?).
  destruct (Hst v nv Hv) as (nv0 & Hv0 & ? & ? & ?).
  unfold step_cost. rewrite Hu0, Hv0. by apply getNodeCost_static.
Qed.

Lemma static_h_of (gr : Graph) (u : ref) (nu ne : Node.GridNode) :
  same_static gr0 gr -> nodes gr !! u = Some nu -> nodes gr !! end_ = Some ne ->
  heur (pos_of nu) (pos_of ne) = h_of gr0 heur end_ u.
Proof.
  intros (_ & _ & _ & Hst) Hu He.
  destruct (Hst u nu Hu) as (nu0 & Hu0 & Hx & Hy & _).
  destruct (Hst end_ ne He) as (ne0 & He0 & Hex & Hey & _).
  unfold h_of, pos_of. rewrite Hu0, He0. by rewrite Hx, Hy, Hex, Hey.
Qed.

Lemma static_step_ok (gr : Graph) (u v : ref) (nu nv : Node.GridNode) :
  same_static gr0 gr -> nodes gr !! u = Some nu -> nodes gr !! v = Some nv ->
  v ∈ neighbors gr nu -> isNodeWall nv = false -> step_ok gr0 u v = true.
Proof.
  intros (Hg & Hd & _ & Hst) Hu Hv Hin Hw.
  destruct (Hst u nu Hu) as (nu0 & Hu0 & ? & ? & ?).
  destruct (Hst v nv Hv) as (nv0 & Hv0 & ? & ? & Hw0).
  unfold step_ok. rewrite Hu0, Hv0.
  rewrite (neighbors_static gr gr0 nu nu0) in Hin by done.
  rewrite bool_decide_eq_true_2 by done.
  unfold isNodeWall in *. by rewrite <- Hw0, Hw.
Qed.

(** The state after the relaxation of [nb] from [cur]. *)
Lemma relax_core (cur nb : ref) (st st' : state) (n cn n' : Node.GridNode) :
  inner gr0 start end_ heur cur st ->
  node_of st nb = Some n -> node_of st cur = Some cn ->
  Node.closed n = false -> step_ok gr0 cur nb = true ->
  n' = Node.mk (Node.x n) (Node.y n) (Node.w n)
         (Node.g cn + step_cost gr0 cur nb + h_of gr0 heur end_ nb)
         (Node.g cn + step_cost gr0 cur nb)
         (h_of gr0 heur end_ nb) true false (Some cur) ->
  nodes (st_graph st') = <[nb := n']> (nodes (st_graph st)) ->
  grid (st_graph st') = grid (st_graph st) ->
  diagonal (st_graph st') = diagonal (st_graph st) ->
  items (st_heap st') ≡ₚ
    (if Node.visited n then items (st_heap st) else nb :: items (st_heap st)) ->
  heap_ok (score_f (st_graph st')) (items (st_heap st')) ->
  st_closest st' = nb \/ st_closest st' = st_closest st ->
  inner gr0 start end_ heur cur st'.
Proof.
  intros (Hcore & (ns & Hns & Hnsc) & (cn' & Hcn' & Hcnc)) Hn Hcn Hnc Hstep Hn' Hnodes Hgrid Hdiag
    Hperm Hok Hcl.
  unfold node_of in *. rewrite Hcn in Hcn'. symmetry in Hcn'. simplify_eq.
  destruct Hcore as [Hstatic Hnd Hheap Hclosed Hstart Hsh Horder Hvis Hfresh Hclosest Hend Hdepth].
  unfold node_of in *.
  set (n' := Node.mk (Node.x n) (Node.y n) (Node.w n)
         (Node.g cn + step_cost gr0 cur nb + h_of gr0 heur end_ nb)
         (Node.g cn + step_cost gr0 cur nb)
         (h_of gr0 heur end_ nb) true false (Some cur)) in *.
  assert (Hlook : forall r, nodes (st_graph st') !! r =
            if decide (r = nb) then Some n' else nodes (st_graph st) !! r).
  { intros r. rewrite Hnodes, list_lookup_insert.
    pose proof (lookup_lt_Some _ _ _ Hn).
    destruct (decide (r = nb)) as [-> | Hne].
    - rewrite decide_True; done.
    - rewrite decide_False; [done | intros [? _]; congruence]. }
  assert (Hnb_start : nb <> start) by (intros ->; congruence).
  assert (Hnb_cur : nb <> cur) by (intros ->; congruence).
  assert (Hin_old : Node.visited n = true -> nb ∈ items (st_heap st)).
  { intros Hv. apply Hheap. exists n. split_and!; [done | done | by left]. }
  assert (Hnotin : Node.visited n = false -> nb ∉ items (st_heap st)).
  { intros Hv Hin. apply Hheap in Hin as (n1 & Hn1 & _ & [Hv1 | ->]); [| done]. congruence. }
  assert (Hmem : forall r, r ∈ items (st_heap st') <-> r = nb \/ r ∈ items (st_heap st)).
  { intros r. rewrite Hperm. destruct (Node.visited n) eqn:Hv.
    - split; [by right | intros [-> | ?]; [by apply Hin_old | done]].
    - by rewrite elem_of_cons. }
  split_and!; [split | | ]; unfold node_of.
  - (* static *)
    destruct Hstatic as (Hg & Hd & Hlen & Hst). split_and!.
    + by rewrite Hgrid.
    + by rewrite Hdiag.
    + by rewrite Hnodes, length_insert.
    + intros r nr. rewrite Hlook. case_decide; [| by apply Hst].
      intros [= <-]. subst r. destruct (Hst nb n Hn) as (n0 & ? & ? & ? & ?). eauto.
  - (* no duplicate *)
    rewrite Hperm. destruct (Node.visited n) eqn:Hv; [done |].
    apply NoDup_cons. split; [by apply Hnotin | done].
  - (* heap content *)
    intros r. rewrite Hmem, Hlook. case_decide as Hr.
    + subst r. split; [| by left]. intros _. exists n'. split_and!; [done | done | by left].
    + rewrite Hheap. split; [intros [? | ?]; done | by right].
  - (* closed nodes *)
    intros r nr. rewrite Hlook. case_decide; [| by apply Hclosed]. by intros [= <-].
  - (* start *)
    rewrite Hlook, decide_False by done. done.
  - left. exists ns. rewrite Hlook, decide_False by done. done.
  - done.
  - (* visited nodes *)
    intros r nr. rewrite Hlook. case_decide as Hr.
    + intros [= <-] _. subst r. exists cur, cn.
      rewrite Hlook, decide_False by done. split_and!; done.
    + intros Hnr Hv. destruct (Hvis r nr Hnr Hv) as (p & np & ? & Hp & Hpc & ?).
      exists p, np. rewrite Hlook. rewrite decide_False by (intros ->; congruence). done.
  - (* fresh nodes *)
    intros r nr. rewrite Hlook. case_decide; [by intros [= <-] | by apply Hfresh].
  - (* closest *)
    destruct Hcl as [-> | ->].
    + exists n'. rewrite Hlook, decide_True by done. split; [done | by left].
    + destruct Hclosest as (nc & Hnc' & Hopen). rewrite Hlook. case_decide as Hr.
      * exists n'. split; [done | by left].
      * eauto.
  - (* the goal is open *)
    intros ne. rewrite Hlook. case_decide; [by intros [= <-] | by apply Hend].
  - (* depth *)
    destruct Hdepth as (depth & Hd1 & Hd2 & Hd3).
    exists (fun r => if decide (r = nb) then S (depth cur) else depth r).
    assert (Hcount : closed_count (nodes (st_graph st')) =
                     closed_count (nodes (st_graph st))).
    { rewrite Hnodes. by apply (closed_count_insert _ nb n n'). }
    rewrite Hcount. split_and!.
    + intros r nr p. rewrite Hlook. case_decide as Hr.
      * intros [= <-] [= <-]. rewrite decide_False by done. lia.
      * intros Hnr Hpar. case_decide as Hp; [| by eapply Hd1].
        subst p. exfalso.
        destruct (Node.visited nr) eqn:Hv.
        -- destruct (Hvis r nr Hnr Hv) as (p & np & ? & ? & ? & _). congruence.
        -- destruct (decide (r = start)) as [-> | Hrs].
           ++ destruct Hstart as (ns' & ? & _ & ? & _). congruence.
           ++ rewrite (Hfresh r nr Hnr Hv Hrs) in Hpar. done.
    + intros r nr. rewrite Hlook. case_decide as Hr.
      * intros _ _. pose proof (Hd3 cur cn Hcn Hcnc). lia.
      * by apply Hd2.
    + intros r nr. rewrite Hlook. case_decide as Hr; [by intros [= <-] | by apply Hd3].
  - exists ns. rewrite Hlook, decide_False by done. done.
  - exists cn. rewrite Hlook, decide_False by done. done.
Qed.

Hypothesis end_valid : exists ne, nodes gr0 !! end_ = Some ne.

Lemma alter_as_insert {A} (fn : A -> A) (l : list A) (i : nat) (a : A) :
  l !! i = Some a -> alter fn i l = <[i := fn a]> l.
Proof.
  revert i. induction l as [| b l IH]; intros i Hi; [done |].
  destruct i as [| i]; simpl in Hi.
  - by simplify_eq.
  - change (alter fn (S i) (b :: l)) with (b :: alter fn i l).
    change (<[S i := fn a]> (b :: l)) with (b :: <[i := fn a]> l).
    by rewrite (IH i Hi).
Qed.

Lemma score_f_insert (gr gr' : Graph) (nb : ref) (n' : Node.GridNode) (r : ref) :
  nodes gr' = <[nb := n']> (nodes gr) -> r <> nb -> score_f gr' r = score_f gr r.
Proof.
  intros Hn Hr. unfold score_f. rewrite Hn. by rewrite list_lookup_insert_ne.
Qed.

(** One iteration of the [for] loop: it returns, keeps the invariant and
    has one of the two shapes. *)
Lemma visit_run (cur nb : ref) (st : state) (cn0 : Node.GridNode) :
  inner gr0 start end_ heur cur st ->
  nodes gr0 !! cur = Some cn0 -> nb ∈ neighbors gr0 cn0 ->
  exists st', visit end_ closest heur cur st nb = Ok st' /\
    inner gr0 start end_ heur cur st' /\
    visit_shape gr0 end_ heur closest cur nb st st'.
Proof.
  intros Hinner Hcn0 Hnb.
  pose proof Hinner as (Hcore & (ns & Hns & Hnsc) & (cn & Hcn & Hcnc)).
  pose proof Hcore as [Hstatic Hnd Hheap Hclosed Hstart Hsh Horder Hvis Hfresh Hclosest Hend Hdepth].
  unfold node_of in *.
  destruct (neighbors_elem _ _ _ Hnb) as (i & j & Hij).
  destruct (gr0_index i j nb Hij) as (n0 & Hn0 & _).
  destruct (proj2 (static_lookup _ nb Hstatic) (ex_intro _ n0 Hn0)) as [n Hn].
  destruct (proj2 (static_lookup _ end_ Hstatic) end_valid) as [en Hen].
  pose proof (static_step_cost _ cur nb cn n Hstatic Hcn Hn) as Hcost.
  unfold visit, get_node. rewrite Hn. cbn [res_bind].
  destruct (Node.closed n || isNodeWall n) eqn:Hskip.
  { exists st. split_and!; [done | done |]. apply vs_skip; [done |].
    unfold node_of. intros n1 cn1 Hn1 _. rewrite Hn in Hn1. simplify_eq.
    apply orb_true_iff in Hskip. destruct Hskip; auto. }
  apply orb_false_iff in Hskip as [Hnc Hnw].
  rewrite Hcn. cbn [res_bind]. rewrite Hcost.
  destruct (negb (Node.visited n) || Qltb (Node.g cn + step_cost gr0 cur nb) (Node.g n)) eqn:Hrelax.
  2:{ exists st. split_and!; [done | done |]. apply vs_skip; [done |].
      unfold node_of. intros n1 cn1 Hn1 Hcn1. rewrite Hn in Hn1. rewrite Hcn in Hcn1. simplify_eq.
      apply orb_false_iff in Hrelax as [Hv Hlt]. apply negb_false_iff in Hv.
      apply Qltb_ge in Hlt. auto. }
  rewrite Hen. cbn [res_bind].
  assert (Hstep : step_ok gr0 cur nb = true).
  { pose proof Hstatic as (Hg & Hd & _ & Hst).
    destruct (Hst cur cn Hcn) as (cn0' & Hcn0' & ? & ? & _).
    assert (cn0' = cn0) by congruence. subst cn0'.
    apply (static_step_ok (st_graph st) cur nb cn n); try done.
    by rewrite (neighbors_static (st_graph st) gr0 cn cn0). }
  assert (Hhv : (if Qeq_bool (Node.h n) 0 then heur (pos_of n) (pos_of en) else Node.h n)
                = h_of gr0 heur end_ nb).
  { rewrite (static_h_of _ nb n en Hstatic Hn Hen).
    destruct (Node.visited n) eqn:Hv.
    - destruct (Hvis nb n Hn Hv) as (_ & _ & _ & _ & _ & _ & _ & -> & _).
      by destruct (Qeq_bool _ _).
    - assert (nb <> start) by (intros ->; congruence).
      rewrite (Hfresh nb n Hn Hv) by done. reflexivity. }
  rewrite Hhv.
  set (gScore := (Node.g cn + step_cost gr0 cur nb)%Q) in *.
  set (hv := h_of gr0 heur end_ nb) in *.
  set (upd := fun n1 => Node.set_f (gScore + hv) (Node.set_g gScore (Node.set_h hv
                (Node.set_parent (Some cur) (Node.set_visited true n1))))).
  set (n' := Node.mk (Node.x n) (Node.y n) (Node.w n) (gScore + hv) gScore hv
               true false (Some cur)).
  assert (Hupd : upd n = n').
  { unfold upd, n', Node.set_f, Node.set_g, Node.set_h, Node.set_parent, Node.set_visited.
    simpl. by rewrite Hnc. }
  set (gr1 := markDirty nb (update_node nb upd (st_graph st))).
  assert (Hnodes1 : nodes gr1 = <[nb := n']> (nodes (st_graph st))).
  { unfold gr1, markDirty, update_node. simpl. rewrite <- Hupd. by apply alter_as_insert. }
  assert (Hlook : forall r, nodes gr1 !! r =
            if decide (r = nb) then Some n' else nodes (st_graph st) !! r).
  { intros r. rewrite Hnodes1, list_lookup_insert.
    pose proof (lookup_lt_Some _ _ _ Hn).
    destruct (decide (r = nb)) as [-> | Hne].
    - rewrite decide_True; done.
    - rewrite decide_False; [done | intros [? _]; congruence]. }
  rewrite Hlook, decide_True by done. cbn [res_bind].
  destruct Hclosest as (cl0 & Hcl0 & Hcl0o).
  assert (Hcl : exists cl, nodes gr1 !! st_closest st = Some cl).
  { rewrite Hlook. case_decide; eauto. }
  destruct Hcl as [cl Hcl]. rewrite Hcl. cbn [res_bind].
  set (closest' := if closest && (Qltb (Node.h n') (Node.h cl)
                     || (Qeq_bool (Node.h n') (Node.h cl) && Qltb (Node.g n') (Node.g cl)))
                   then nb else st_closest st).
  assert (Hcl' : closest' = nb \/ closest' = st_closest st).
  { unfold closest'. destruct (_ && _); auto. }
  assert (Hnot_start : nb <> start) by (intros ->; congruence).
  destruct (Node.visited n) eqn:Hv; cbn [negb].
  - (* an improvement: the node is on the heap and is re-scored *)
    simpl in Hrelax. apply Qltb_lt in Hrelax.
    assert (Hin : nb ∈ items (st_heap st)).
    { apply Hheap. exists n. split_and!; [done | done | by left]. }
    destruct (Hvis nb n Hn Hv) as (_ & _ & _ & _ & _ & _ & _ & Hh & Hf).
    destruct (rescoreElement_spec (score_f gr1) (score_f (st_graph st)) nb (st_heap st))
      as (hp & Hrun & Hok & Hperm & _); try done.
    { intros r Hr. by apply (score_f_insert _ _ nb n'). }
    { unfold score_f. rewrite Hlook, decide_True by done. rewrite Hn. simpl.
      rewrite Hf, Hh. fold hv. lra. }
    rewrite Hrun. cbn [res_bind]. eexists. split; [reflexivity |].
    split.
    + eapply (relax_core cur nb st _ n cn n'); try done; simpl; try done.
      by rewrite Hv.
    + eapply (vs_relax _ _ _ _ _ _ _ _ n cn n' cl); try done; simpl; try done.
      * by right.
      * by rewrite Hv.
      * by rewrite Hv.
  - (* a first visit: the node is pushed *)
    assert (Hnotin : nb ∉ items (st_heap st)).
    { intros Hin. apply Hheap in Hin as (n1 & Hn1 & _ & [Hv1 | ->]); [| done]. congruence. }
    destruct (push_spec (score_f gr1) nb (st_heap st)) as (hp & Hrun & Hok & Hperm & _).
    { apply (heap_ok_ext (score_f (st_graph st))); [| done].
      intros r Hr. symmetry. apply (score_f_insert _ _ nb n'); [done |].
      intros ->. done. }
    rewrite Hrun. cbn [res_bind]. eexists. split; [reflexivity |].
    split.
    + eapply (relax_core cur nb st _ n cn n'); try done; simpl; try done.
      by rewrite Hv.
    + eapply (vs_relax _ _ _ _ _ _ _ _ n cn n' cl); try done; simpl; try done.
      * by left.
      * by rewrite Hv.
      * by rewrite Hv.
Qed.
End SearchCore.

Section SearchLoop.
Variable gr0 : Graph.
Variables start end_ : ref.
Variable heur : heuristic_fn.
Variable closest : bool.

Hypothesis gr0_index : forall i j r, node_at gr0 i j = Some r ->
  exists n, nodes gr0 !! r = Some n /\ Node.x n = i /\ Node.y n = j.
Hypothesis end_valid : exists ne, nodes gr0 !! end_ = Some ne.

(** Following the parent links from an opened node ends at the start
    node; the nodes passed form a path whose cost is the [g] of the node. *)
Lemma pathTo_loop_run (st : state) (depth : ref -> nat) :
  core gr0 start end_ heur st ->
  (forall r n p, node_of st r = Some n -> Node.parent n = Some p ->
     (depth p < depth r)%nat) ->
  forall (fuel : nat) (r : ref) (n : Node.GridNode) (acc : list ref),
  node_of st r = Some n -> opened start r n -> (depth r <= fuel)%nat ->
  exists path, pathTo_loop fuel (st_graph st) r acc = Ok (path ++ acc) /\
    valid_path gr0 start path = true /\ path_end start path = r /\
    (path_cost gr0 start path == Node.g n)%Q.
Proof.
  intros Hcore Hdepth.
  pose proof Hcore as [_ _ _ Hclosed Hstart _ _ Hvis Hfresh _ _ _].
  induction fuel as [| fuel IH]; intros r n acc Hn Hopen Hfuel; unfold node_of in *.
  - cbn [pathTo_loop]. unfold get_node. rewrite Hn. cbn [res_bind].
    destruct (Node.parent n) as [p |] eqn:Hp.
    { pose proof (Hdepth r n p Hn Hp). lia. }
    exists []. destruct (Node.visited n) eqn:Hv.
    { destruct (Hvis r n Hn Hv) as (p & np & ? & _). congruence. }
    destruct Hopen as [? | ->]; [congruence |].
    destruct Hstart as (ns & Hns & _ & _ & Hg & _). unfold node_of in Hns.
    assert (ns = n) by congruence. subst ns. rewrite Hg. done.
  - cbn [pathTo_loop]. unfold get_node. rewrite Hn. cbn [res_bind].
    destruct (Node.parent n) as [p |] eqn:Hp.
    + destruct (Node.visited n) eqn:Hv.
      2:{ destruct Hopen as [? | ->]; [congruence |].
          destruct Hstart as (ns & Hns & _ & Hpar & _). unfold node_of in Hns. congruence. }
      destruct (Hvis r n Hn Hv) as (p' & np & Hp' & Hnp & Hnpc & Hstep & Hg & _).
      assert (p' = p) by congruence. subst p'.
      pose proof (Hdepth r n p Hn Hp).
      destruct (IH p np (r :: acc) Hnp (Hclosed p np Hnp Hnpc) ltac:(lia))
        as (path & Hrun & Hvalid & Hend & Hcost).
      exists (path ++ [r]). rewrite <- app_assoc. split_and!; [done | | |].
      * rewrite valid_path_snoc, Hvalid, Hend. done.
      * apply path_end_snoc.
      * rewrite path_cost_snoc, Hend, Hcost, Hg. reflexivity.
    + exists []. destruct (Node.visited n) eqn:Hv.
      { destruct (Hvis r n Hn Hv) as (p & np & ? & _). congruence. }
      destruct Hopen as [? | ->]; [congruence |].
      destruct Hstart as (ns & Hns & _ & _ & Hg & _). unfold node_of in Hns.
      assert (ns = n) by congruence. subst ns. rewrite Hg. done.
Qed.

Lemma pathTo_run (st : state) (r : ref) (n : Node.GridNode) :
  core gr0 start end_ heur st -> node_of st r = Some n -> opened start r n ->
  exists path, pathTo (st_graph st) r = Ok path /\
    valid_path gr0 start path = true /\ path_end start path = r /\
    (path_cost gr0 start path == Node.g n)%Q.
Proof.
  intros Hcore Hn Hopen.
  destruct (core_depth _ _ _ _ _ Hcore) as (depth & Hd1 & Hd2 & _).
  destruct (pathTo_loop_run st depth Hcore Hd1 (length (nodes (st_graph st))) r n [] Hn Hopen)
    as (path & Hrun & ?).
  { pose proof (Hd2 r n Hn Hopen). pose proof (closed_count_le (nodes (st_graph st))). lia. }
  exists path. unfold pathTo. rewrite Hrun, app_nil_r. done.
Qed.

(** Extracting the minimum and closing it. *)
Lemma pop_run (st : state) :
  core gr0 start end_ heur st -> items (st_heap st) <> [] ->
  exists cur st1, pop_shape st cur st1 /\ cur ∈ items (st_heap st) /\
    (exists n, node_of st cur = Some n /\ Node.closed n = false /\ opened start cur n) /\
    closed_count (nodes (st_graph st1)) = S (closed_count (nodes (st_graph st))) /\
    (cur <> end_ -> inner gr0 start end_ heur cur st1).
Proof.
  intros Hcore Hne.
  pose proof Hcore as [Hstatic Hnd Hheap Hclosed Hstart Hsh Horder Hvis Hfresh Hclosest Hend Hdepth].
  destruct (pop_spec _ _ Horder Hne) as (cur & hp & Hpop & Hok & Hperm & Hmin & _).
  assert (Hin : cur ∈ items (st_heap st)).
  { rewrite Hperm. apply elem_of_cons. by left. }
  destruct (proj1 (Hheap cur) Hin) as (n & Hn & Hnc & Hopen).
  set (gr1 := update_node cur (Node.set_closed true) (st_graph st)).
  set (st1 := mkState gr1 hp (st_closest st)
                (EvHeap (CallPop (Some cur)) (items (st_heap st)) (items hp) :: st_trace st)).
  assert (Hlook : forall r, nodes gr1 !! r =
            if decide (r = cur) then Some (Node.set_closed true n)
            else nodes (st_graph st) !! r).
  { intros r. unfold gr1. rewrite nodes_update_node. unfold node_of in Hn.
    destruct (decide (cur = r)) as [-> | Hr].
    - rewrite decide_True by done. by rewrite Hn.
    - by rewrite decide_False by done. }
  assert (Hcount : closed_count (nodes gr1) = S (closed_count (nodes (st_graph st)))).
  { unfold gr1, update_node. simpl. by apply (closed_count_close _ cur n). }
  assert (Hnd' : NoDup (cur :: items hp)) by (by rewrite <- Hperm).
  apply NoDup_cons in Hnd' as [Hcur_out Hnd'].
  assert (Hmem : forall r, r ∈ items hp <-> r <> cur /\ r ∈ items (st_heap st)).
  { intros r. rewrite Hperm, elem_of_cons. split.
    - intros Hr. split; [intros ->; done | by right].
    - intros [? [? | ?]]; done. }
  exists cur, st1. split_and!.
  - exists hp. split_and!; done.
  - done.
  - eauto.
  - done.
  - intros Hcur_end. unfold node_of in *. split_and!; [split | |]; unfold node_of; simpl;
      fold gr1.
    + (* static *)
      destruct Hstatic as (Hg & Hd & Hlen & Hst). split_and!; try done.
      * unfold gr1. by rewrite length_update_node.
      * intros r nr. rewrite Hlook. case_decide; [| by apply Hst].
        intros [= <-]. subst r. destruct (Hst cur n Hn) as (n0 & ? & ? & ? & ?). eauto.
    + done.
    + intros r. rewrite Hmem, Hlook, Hheap. case_decide as Hr.
      * subst r. split; [intros [? _]; done |]. intros (n1 & [= <-] & ? & _). done.
      * split; [intros [_ ?]; done | done].
    + intros r nr. rewrite Hlook. case_decide as Hr; [| by apply Hclosed].
      intros [= <-] _. subst r. destruct Hopen as [? | ?]; [by left | by right].
    + destruct Hstart as (ns & Hns & ? & ? & ? & ?). rewrite Hlook. case_decide as Hr.
      * subst cur. assert (ns = n) by congruence. subst ns.
        exists (Node.set_closed true n). split_and!; done.
      * exists ns. split_and!; done.
    + left. destruct Hsh as [(ns & Hns & Hnsc) | Hone].
      * rewrite Hlook. case_decide; eauto.
      * rewrite Hone in Hin. apply list_elem_of_singleton in Hin. subst cur.
        rewrite Hlook, decide_True by done. eauto.
    + apply (heap_ok_ext (score_f (st_graph st))); [| done].
      intros r _. unfold score_f. rewrite Hlook. case_decide as Hr; [| done].
      subst r. by rewrite Hn.
    + intros r nr. rewrite Hlook. case_decide as Hr.
      * intros [= <-] Hv. subst r. simpl in Hv.
        destruct (Hvis cur n Hn Hv) as (p & np & ? & Hp & ? & ?).
        assert (p <> cur) by (intros ->; congruence).
        exists p, np. rewrite Hlook, decide_False by done. done.
      * intros Hnr Hv. destruct (Hvis r nr Hnr Hv) as (p & np & ? & Hp & ? & ? & Hg & ?).
        assert (p <> cur) by (intros ->; congruence).
        exists p, np. rewrite Hlook, decide_False by done. done.
    + intros r nr. rewrite Hlook. case_decide as Hr; [| by apply Hfresh].
      intros [= <-] Hv Hrs. subst r. simpl in Hv. destruct Hopen; congruence.
    + destruct Hclosest as (nc & Hnc' & Hopenc). rewrite Hlook. case_decide as Hr.
      * rewrite Hr in Hnc'. assert (nc = n) by congruence. subst nc.
        exists (Node.set_closed true n). split; [done |]. exact Hopenc.
      * eauto.
    + intros ne. rewrite Hlook, decide_False by done. apply Hend.
    + destruct Hdepth as (depth & Hd1 & Hd2 & Hd3). exists depth.
      change (alter (Node.set_closed true) cur (nodes (st_graph st))) with (nodes gr1).
      rewrite Hcount. split_and!.
      * intros r nr p. rewrite Hlook. case_decide as Hr.
        -- intros [= <-]. subst r. simpl. by apply Hd1.
        -- by apply Hd1.
      * intros r nr. rewrite Hlook. case_decide as Hr.
        -- intros [= <-] _. subst r. pose proof (Hd2 cur n Hn Hopen). lia.
        -- intros Hnr Ho. pose proof (Hd2 r nr Hnr Ho). lia.
      * intros r nr. rewrite Hlook. case_decide as Hr.
        -- intros _ _. subst r. pose proof (Hd2 cur n Hn Hopen). lia.
        -- intros Hnr Hc. pose proof (Hd3 r nr Hnr Hc). lia.
    + destruct Hsh as [(ns & Hns & Hnsc) | Hone].
      * rewrite Hlook. case_decide; eauto.
      * rewrite Hone in Hin. apply list_elem_of_singleton in Hin. subst cur.
        rewrite Hlook, decide_True by done. eauto.
    + rewrite Hlook, decide_True by done. eauto.
Qed.
End SearchLoop.

(** ** The loops, for any property carried along *)

Section SearchRun.
Variable gr0 : Graph.
Variables start end_ : ref.
Variable heur : heuristic_fn.
Variable closest : bool.

Hypothesis gr0_index : forall i j r, node_at gr0 i j = Some r ->
  exists n, nodes gr0 !! r = Some n /\ Node.x n = i /\ Node.y n = j.
Hypothesis end_valid : exists ne, nodes gr0 !! end_ = Some ne.

(** [Jo] holds at the head of the [while] loop, [Ji cur seen] while the
    neighbours of [cur] are visited, [seen] being those already dealt with. *)
Variable Jo : state -> Prop.
Variable Ji : ref -> list ref -> state -> Prop.

Hypothesis J_enter : forall st cur st1,
  core gr0 start end_ heur st -> Jo st -> pop_shape st cur st1 -> cur <> end_ ->
  inner gr0 start end_ heur cur st1 -> Ji cur [] st1.
Hypothesis J_visit : forall cur cn0 seen nb rest st st',
  nodes gr0 !! cur = Some cn0 -> neighbors gr0 cn0 = seen ++ nb :: rest ->
  inner gr0 start end_ heur cur st -> Ji cur seen st ->
  visit_shape gr0 end_ heur closest cur nb st st' ->
  inner gr0 start end_ heur cur st' -> Ji cur (seen ++ [nb]) st'.
Hypothesis J_exit : forall cur cn0 st,
  nodes gr0 !! cur = Some cn0 ->
  inner gr0 start end_ heur cur st -> Ji cur (neighbors gr0 cn0) st -> Jo st.

Lemma visit_shape_count (cur nb : ref) (st st' : state) :
  visit_shape gr0 end_ heur closest cur nb st st' ->
  closed_count (nodes (st_graph st')) = closed_count (nodes (st_graph st)).
Proof.
  intros [-> _ | n cn n' cl Hn _ Hnc _ _ Hn' Hnodes _ _ _ _ _]; [done |].
  rewrite Hnodes. apply (closed_count_insert _ nb n n'); [done | done |].
  by rewrite Hn'.
Qed.

Lemma visit_all_run (nbs : list ref) : forall (seen : list ref) (cur : ref)
    (cn0 : Node.GridNode) (st : state),
  nodes gr0 !! cur = Some cn0 -> neighbors gr0 cn0 = seen ++ nbs ->
  inner gr0 start end_ heur cur st -> Ji cur seen st ->
  exists st', visit_all end_ closest heur cur st nbs = Ok st' /\
    inner gr0 start end_ heur cur st' /\ Ji cur (neighbors gr0 cn0) st' /\
    closed_count (nodes (st_graph st')) = closed_count (nodes (st_graph st)).
Proof.
  induction nbs as [| nb rest IH]; intros seen cur cn0 st Hcn0 Hnbs Hinner HJ.
  - rewrite app_nil_r in Hnbs. rewrite Hnbs. exists st. done.
  - cbn [visit_all].
    destruct (visit_run gr0 start end_ heur closest gr0_index end_valid cur nb st cn0)
      as (st1 & Hrun & Hinner1 & Hshape); [done | done | |].
    { rewrite Hnbs. apply elem_of_app. right. apply elem_of_cons. by left. }
    rewrite Hrun. cbn [res_bind].
    destruct (IH (seen ++ [nb]) cur cn0 st1) as (st' & Hrun' & ? & ? & Hcount); try done.
    { by rewrite <- app_assoc. }
    { by apply (J_visit cur cn0 seen nb rest st st1). }
    exists st'. split_and!; try done.
    rewrite Hcount. by eapply visit_shape_count.
Qed.

Lemma heap_nonempty_size (a : jsarray) : (size a >? 0) = true <-> items a <> [].
Proof.
  unfold size, alength. destruct (items a) as [| r l].
  - simpl. split; [intros H; discriminate H | intros H; by destruct H].
  - split; [intros _; discriminate |]. intros _. apply Z.gtb_lt. simpl length. lia.
Qed.

Lemma search_loop_run (fuel : nat) : forall (st : state),
  core gr0 start end_ heur st -> Jo st ->
  (length (nodes gr0) <= fuel + closed_count (nodes (st_graph st)))%nat ->
  exists path st', search_loop end_ closest heur fuel st = Ok (path, st') /\
    exists stl, core gr0 start end_ heur stl /\ Jo stl /\
      final_shape end_ closest stl path st'.
Proof.
  induction fuel as [| fuel IH]; intros st Hcore HJ Hfuel.
  - (* no fuel: every node is closed, so the heap is empty *)
    assert (Hempty : items (st_heap st) = []).
    { destruct (items (st_heap st)) as [| r l] eqn:Hitems; [done |]. exfalso.
      destruct (proj1 (core_heap _ _ _ _ _ Hcore r)) as (n & Hn & Hnc & _).
      { rewrite Hitems. apply elem_of_cons. by left. }
      pose proof (closed_count_lt _ r n Hn Hnc).
      destruct (core_static _ _ _ _ _ Hcore) as (_ & _ & Hlen & _). lia. }
    cbn [search_loop]. destruct (size (st_heap st) >? 0) eqn:Hsize.
    { apply heap_nonempty_size in Hsize. done. }
    destruct closest eqn:Hclosest.
    + destruct (core_closest _ _ _ _ _ Hcore) as (nc & Hnc & Hopen).
      destruct (pathTo_run gr0 start end_ heur st _ nc Hcore Hnc Hopen) as (path & Hp & _).
      rewrite Hp. cbn [res_bind]. exists path, st. split; [done |].
      exists st. split_and!; [done | done |]. right. done.
    + exists [], st. split; [done |]. exists st. split_and!; [done | done |]. by right.
  - cbn [search_loop]. destruct (size (st_heap st) >? 0) eqn:Hsize.
    + apply heap_nonempty_size in Hsize.
      destruct (pop_run gr0 start end_ heur st Hcore Hsize)
        as (cur & st1 & Hshape & Hin & (n & Hn & Hnc & Hopen) & Hcount & Hinner).
      pose proof Hshape as (hp & Hpop & Hperm & Hmin & Hst1).
      rewrite Hpop. cbn [res_bind].
      destruct (Nat.eqb_spec cur end_) as [-> | Hne].
      * destruct (pathTo_run gr0 start end_ heur st _ n Hcore Hn Hopen) as (path & Hp & _).
        rewrite Hp. cbn [res_bind]. eexists _, _. split; [reflexivity |].
        exists st. split_and!; [done | done |]. left. exists hp. done.
      * specialize (Hinner Hne).
        pose proof Hinner as (Hcore1 & _ & (cn & Hcn & _)).
        rewrite Hst1 in Hcn. unfold node_of in Hcn. cbn [st_graph] in Hcn.
        unfold get_node. rewrite Hcn. cbn [res_bind].
        destruct (core_static _ _ _ _ _ Hcore1) as (Hg & Hd & _ & Hst).
        rewrite Hst1 in Hg, Hd, Hst. cbn [st_graph] in Hg, Hd, Hst.
        destruct (Hst cur cn Hcn) as (cn0 & Hcn0 & Hx & Hy & _).
        rewrite (neighbors_static _ gr0 cn cn0) by done.
        rewrite <- Hst1.
        destruct (visit_all_run (neighbors gr0 cn0) [] cur cn0 st1)
          as (st2 & Hrun & Hinner2 & HJ2 & Hcount2); try done.
        { by apply (J_enter st cur st1). }
        rewrite Hrun. cbn [res_bind].
        apply IH.
        -- by destruct Hinner2.
        -- by apply (J_exit cur cn0).
        -- rewrite Hcount2, Hcount. lia.
    + assert (Hempty : items (st_heap st) = []).
      { destruct (decide (items (st_heap st) = [])) as [| Hne]; [done |].
        apply heap_nonempty_size in Hne. congruence. }
      destruct closest eqn:Hclosest.
      * destruct (core_closest _ _ _ _ _ Hcore) as (nc & Hnc & Hopen).
        destruct (pathTo_run gr0 start end_ heur st _ nc Hcore Hnc Hopen) as (path & Hp & _).
        rewrite Hp. cbn [res_bind]. exists path, st. split; [done |].
        exists st. split_and!; [done | done |]. right. done.
      * exists [], st. split; [done |]. exists st. split_and!; [done | done |]. by right.
Qed.
End SearchRun.

(** ** A whole search *)

Lemma push_on_empty (score : ref -> Q) (r : ref) :
  push score r arr_empty = Ok (mkArr [r] None).
Proof. reflexivity. Qed.

Lemma heap_ok_singleton (score : ref -> Q) (r : ref) : heap_ok score [r].
Proof.
  intros i c p Hi Hc _. apply zlookup_Some_bounds in Hc. simpl in Hc. lia.
Qed.

Lemma closed_count_zero (ns : list Node.GridNode) :
  (forall r n, ns !! r = Some n -> Node.closed n = false) -> closed_count ns = 0%nat.
Proof.
  induction ns as [| n ns IH]; intros Hall; [done |].
  rewrite closed_count_cons. rewrite (Hall 0%nat n) by done.
  rewrite IH; [done |]. intros r nr Hr. by apply (Hall (S r)).
Qed.

Section SearchStart.
Variable gr : Graph.
Variables start end_ : ref.
Variable closest : bool.
Variable heuristic : option heuristic_fn.

Let heur : heuristic_fn := heuristic_or_default heuristic.

Hypothesis gr_wf : graph_wfb gr = true.
Hypothesis start_valid : (start < length (nodes gr))%nat.
Hypothesis end_valid : (end_ < length (nodes gr))%nat.

Variable Jo : state -> Prop.
Variable Ji : ref -> list ref -> state -> Prop.

Hypothesis J_start : forall st0,
  core gr start end_ heur st0 ->
  st_trace st0 = [EvHeap (CallPush start) [] [start]] ->
  items (st_heap st0) = [start] -> st_closest st0 = start ->
  (forall r n, node_of st0 r = Some n ->
     Node.closed n = false /\ Node.visited n = false) ->
  dirtyNodes (st_graph st0) = [start] ->
  (exists n, node_of st0 start = Some n /\ Node.f n = 0%Q) ->
  Jo st0.
Hypothesis J_enter : forall st cur st1,
  core gr start end_ heur st -> Jo st -> pop_shape st cur st1 -> cur <> end_ ->
  inner gr start end_ heur cur st1 -> Ji cur [] st1.
Hypothesis J_visit : forall cur cn0 seen nb rest st st',
  nodes gr !! cur = Some cn0 -> neighbors gr cn0 = seen ++ nb :: rest ->
  inner gr start end_ heur cur st -> Ji cur seen st ->
  visit_shape gr end_ heur closest cur nb st st' ->
  inner gr start end_ heur cur st' -> Ji cur (seen ++ [nb]) st'.
Hypothesis J_exit : forall cur cn0 st,
  nodes gr !! cur = Some cn0 ->
  inner gr start end_ heur cur st -> Ji cur (neighbors gr cn0) st -> Jo st.

(** [search] returns; the state at the head of the last iteration of its
    loop satisfies the invariant and [Jo]. *)
Lemma search_run :
  exists path st', search gr start end_ closest heuristic = Ok (path, st') /\
    exists stl, core gr start end_ heur stl /\ Jo stl /\
      final_shape end_ closest stl path st'.
Proof.
  destruct (lookup_lt_is_Some_2 _ _ start_valid) as [s0 Hs0].
  destruct (lookup_lt_is_Some_2 _ _ end_valid) as [e0 He0].
  destruct (cleanDirty_spec gr) as (Hg & Hd & Hdirty & Hclean).
  assert (Hallclean : forall r n, nodes (cleanDirty gr) !! r = Some n -> n = clean n).
  { intros r n. by apply cleanDirty_all_clean. }
  assert (Hstat : forall r n, nodes (cleanDirty gr) !! r = Some n ->
            exists n0, nodes gr !! r = Some n0 /\
              Node.x n = Node.x n0 /\ Node.y n = Node.y n0 /\ Node.w n = Node.w n0).
  { intros r n. rewrite Hclean. case_decide; [| eauto].
    destruct (nodes gr !! r) as [n0 |]; [| done]. intros [= <-]. eauto. }
  destruct (proj2 (cleanDirty_static gr start) (ex_intro _ s0 Hs0)) as [s Hs].
  destruct (proj2 (cleanDirty_static gr end_) (ex_intro _ e0 He0)) as [e He].
  unfold search, get_node. rewrite Hs, He. cbn [res_bind]. fold heur.
  rewrite push_on_empty. cbn [res_bind].
  set (H := heur (pos_of s) (pos_of e)).
  set (gr1 := markDirty start (update_node start (Node.set_h H) (cleanDirty gr))).
  assert (Hlook : forall r, nodes gr1 !! r =
            if decide (r = start) then Some (Node.set_h H s)
            else nodes (cleanDirty gr) !! r).
  { intros r. unfold gr1, markDirty. cbn [nodes]. rewrite nodes_update_node.
    destruct (decide (start = r)) as [-> | Hr].
    - rewrite decide_True by done. by rewrite Hs.
    - by rewrite decide_False by done. }
  assert (Hopen : forall r n, nodes gr1 !! r = Some n ->
            Node.closed n = false /\ Node.visited n = false /\ Node.parent n = None).
  { intros r n. rewrite Hlook. case_decide.
    - intros [= <-]. rewrite (Hallclean start s Hs). done.
    - intros Hn. rewrite (Hallclean r n Hn). done. }
  assert (Hlen : length (nodes gr1) = length (nodes gr)).
  { unfold gr1, markDirty. cbn [nodes]. by rewrite length_update_node, cleanDirty_length. }
  set (st0 := mkState gr1 (mkArr [start] None) start
                [EvHeap (CallPush start) (items arr_empty) (items (mkArr [start] None))]).
  assert (HH : H = h_of gr heur end_ start).
  { unfold H, h_of, pos_of. rewrite Hs0, He0.
    destruct (Hstat start s Hs) as (s0' & Hs0' & -> & -> & _).
    destruct (Hstat end_ e He) as (e0' & He0' & -> & -> & _). congruence. }
  assert (Hcore : core gr start end_ heur st0).
  { split; unfold node_of; cbn [st0 st_graph st_heap st_closest st_trace items].
    - split_and!.
      + unfold gr1, markDirty, update_node. by cbn [grid].
      + unfold gr1, markDirty, update_node. by cbn [diagonal].
      + done.
      + intros r n. rewrite Hlook. case_decide as Hr; [| by apply Hstat].
        intros [= <-]. subst r. destruct (Hstat start s Hs) as (n0 & ? & ? & ? & ?). eauto.
    - apply NoDup_singleton.
    - intros r. rewrite list_elem_of_singleton. split.
      + intros ->. exists (Node.set_h H s). rewrite Hlook, decide_True by done.
        split_and!; [done | | by right]. rewrite (Hallclean start s Hs). done.
      + intros (n & Hn & _ & [Hv | ?]); [| done].
        destruct (Hopen r n Hn) as (_ & ? & _). congruence.
    - intros r n Hn Hc. destruct (Hopen r n Hn) as (? & _). congruence.
    - exists (Node.set_h H s). rewrite Hlook, decide_True by done.
      rewrite (Hallclean start s Hs). split_and!; done.
    - by right.
    - apply heap_ok_singleton.
    - intros r n Hn Hv. destruct (Hopen r n Hn) as (_ & ? & _). congruence.
    - intros r n Hn _ Hr. rewrite Hlook, decide_False in Hn by done.
      by apply (Hallclean r).
    - exists (Node.set_h H s). rewrite Hlook, decide_True by done. split; [done | by right].
    - intros n Hn. by destruct (Hopen end_ n Hn).
    - exists (fun _ => 0%nat). split_and!.
      + intros r n p Hn Hp. destruct (Hopen r n Hn) as (_ & _ & ?). congruence.
      + intros. lia.
      + intros r n Hn Hc. destruct (Hopen r n Hn) as (? & _). congruence. }
  destruct (search_loop_run gr start end_ heur closest) with
    (Jo := Jo) (Ji := Ji) (fuel := length (nodes gr1)) (st := st0)
    as (path & st' & Hrun & Hfinal); try done.
  - intros i j r. by apply graph_wfb_grid.
  - eauto.
  - apply J_start; try done.
    + intros r n Hn. destruct (Hopen r n Hn) as (? & ? & _). done.
    + exists (Node.set_h H s). unfold node_of. cbn [st0 st_graph].
      rewrite Hlook, decide_True by done. split; [done |].
      rewrite (Hallclean start s Hs). reflexivity.
  - rewrite Hlen. lia.
  - exists path, st'. split; [exact Hrun | exact Hfinal].
Qed.
End SearchStart.

(** ** The trace of a search *)

Lemma surroundedb_spec (gr : Graph) (start v : ref) :
  surroundedb gr start = true -> step_ok gr start v = false.
Proof.
  unfold surroundedb, step_ok. destruct (nodes gr !! start) as [n |]; [| done].
  intros Hall. destruct (nodes gr !! v) as [nv |] eqn:Hv; [| done].
  destruct (bool_decide (v ∈ neighbors gr n)) eqn:Hin; [| done].
  apply bool_decide_eq_true in Hin. rewrite forallb_forall in Hall.
  specialize (Hall v). rewrite Hv in Hall. rewrite Hall; [done |].
  by apply list_elem_of_In.
Qed.

Lemma surrounded_unreachable (gr : Graph) (start end_ : ref) :
  surroundedb gr start = true -> start <> end_ -> unreachable gr start end_.
Proof.
  intros Hs Hne [| v path] Hvalid; [done |].
  simpl in Hvalid. by rewrite (surroundedb_spec gr start v Hs) in Hvalid.
Qed.

Section SearchTrace.
Variable gr : Graph.
Variables start end_ : ref.
Variable closest : bool.
Variable heuristic : option heuristic_fn.

Let heur : heuristic_fn := heuristic_or_default heuristic.
Let hstart : Q := h_of gr heur end_ start.

Hypothesis gr_wf : graph_wfb gr = true.
Hypothesis start_valid : (start < length (nodes gr))%nat.
Hypothesis end_valid : (end_ < length (nodes gr))%nat.

Lemma trace_ok_visit (cur nb : ref) (st st' : state) :
  inner gr start end_ heur cur st -> trace_ok gr start hstart st ->
  visit_shape gr end_ heur closest cur nb st st' ->
  inner gr start end_ heur cur st' -> trace_ok gr start hstart st'.
Proof.
  intros Hinner HJ Hshape Hinner'.
  destruct Hshape as [-> _ | n cn n' cl Hn Hcn Hnc Hnw Hwhy Hn' Hnodes Hdirty Hperm Hcl Hclosest Htrace];
    [done |].
  destruct HJ as (Hpop & Hcalls & Hnd & Hpushed & Hopened & Hclose & Hsurr).
  pose proof Hinner as (Hcore & (ns & Hns & Hnsc) & (cn' & Hcn' & Hcnc)).
  pose proof Hinner' as (Hcore' & _ & _).
  unfold node_of in *.
  assert (Hlook : forall r, nodes (st_graph st') !! r =
            if decide (r = nb) then Some n' else nodes (st_graph st) !! r).
  { intros r. rewrite Hnodes, list_lookup_insert.
    pose proof (lookup_lt_Some _ _ _ Hn).
    destruct (decide (r = nb)) as [-> | Hne].
    - rewrite decide_True; done.
    - rewrite decide_False; [done | intros [? _]; congruence]. }
  assert (Hnb_start : nb <> start) by (intros ->; congruence).
  assert (Hv' : Node.visited n' = true) by (by rewrite Hn').
  assert (Hfresh_push : Node.visited n = false -> nb ∉ pushed (st_trace st)).
  { intros Hv Hin. destruct (Hopened nb Hin) as (n1 & Hn1 & [Hv1 | ?]); [| done]. congruence. }
  unfold trace_ok. rewrite Htrace. cbn zeta. split_and!.
  - intros r b a Hin. apply elem_of_cons in Hin as [Heq | Hin].
    { by destruct (Node.visited n). }
    apply elem_of_cons in Hin as [Heq | Hin]; [done |]. by eapply Hpop.
  - destruct (Node.visited n) eqn:Hv.
    + apply rc_rescore; [done |].
      apply (core_heap _ _ _ _ _ Hcore). exists n. split_and!; [done | done | by left].
    + by apply rc_push.
  - intros c b a Hin. apply elem_of_cons in Hin as [Heq | Hin].
    { injection Heq as _ -> ->.
      split; [exact (core_nodup _ _ _ _ _ Hcore) | exact (core_nodup _ _ _ _ _ Hcore')]. }
    apply elem_of_cons in Hin as [Heq | Hin]; [done |]. by eapply Hnd.
  - destruct (Node.visited n) eqn:Hv; cbn [pushed omap list_omap]; [done |].
    apply NoDup_cons. split; [by apply Hfresh_push | done].
  - intros r Hr. rewrite Hlook. case_decide as Hrnb.
    + exists n'. split; [done | by left].
    + apply Hopened. destruct (Node.visited n); cbn [pushed omap list_omap] in Hr; [done |].
      apply elem_of_cons in Hr as [? | ?]; done.
  - (* the closest node *)
    cbn [never_closer forallb]. fold (never_closer hstart (st_trace st)).
    destruct Hclose as [Hcs | Hnever].
    2:{ right. rewrite Hnever. by rewrite andb_false_r. }
    rewrite Hclosest.
    destruct (core_start _ _ _ _ _ Hcore') as (ns' & Hns' & _ & _ & Hg & Hh).
    unfold node_of in Hns'. rewrite Hcs in Hcl. assert (cl = ns') by congruence. subst cl.
    rewrite Hh, Hg. fold hstart.
    destruct (Qltb (Node.h n') hstart || Qeq_bool (Node.h n') hstart && Qltb (Node.g n') 0).
    + right. reflexivity.
    + left. by rewrite andb_false_r.
  - (* a start node surrounded by walls *)
    intros Hs. exfalso. destruct (Hsurr Hs) as [Hnovisit _].
    assert (cur = start).
    { destruct (core_closed _ _ _ _ _ Hcore cur cn Hcn) as [Hv | ?]; [| | done].
      - congruence.
      - by rewrite (Hnovisit cur cn Hcn) in Hv. }
    subst cur.
    destruct (core_visited _ _ _ _ _ Hcore' nb n') as (p & np & Hp & _ & _ & Hstep & _).
    { unfold node_of. rewrite Hlook. by rewrite decide_True. }
    { done. }
    rewrite Hn' in Hp. simpl in Hp. injection Hp as <-.
    by rewrite (surroundedb_spec gr start nb Hs) in Hstep.
Qed.

Lemma trace_ok_pop (st st1 : state) (cur : ref) :
  core gr start end_ heur st -> trace_ok gr start hstart st ->
  pop_shape st cur st1 -> NoDup (items (st_heap st1)) ->
  trace_ok gr start hstart st1.
Proof.
  intros Hcore HJ (hp & Hpop' & Hperm & Hmin & ->) Hnd1.
  destruct HJ as (Hpop & Hcalls & Hnd & Hpushed & Hopened & Hclose & Hsurr).
  unfold trace_ok. cbn [st_graph st_trace st_closest st_heap] in *. cbn zeta.
  assert (Hlook : forall r n, nodes (st_graph st) !! r = Some n ->
    exists n', nodes (update_node cur (Node.set_closed true) (st_graph st)) !! r = Some n' /\
      Node.visited n' = Node.visited n).
  { intros r n Hn. rewrite nodes_update_node. case_decide.
    - subst r. rewrite Hn. simpl. eauto.
    - eauto. }
  split_and!.
  - intros r b a Hin. apply elem_of_cons in Hin as [Heq | Hin]; [| by eapply Hpop].
    injection Heq as -> -> _. exists cur. split; [done |].
    rewrite Hperm. apply elem_of_cons. by left.
  - by apply rc_pop.
  - intros c b a Hin. apply elem_of_cons in Hin as [Heq | Hin]; [| by eapply Hnd].
    injection Heq as _ -> ->. split; [exact (core_nodup _ _ _ _ _ Hcore) | done].
  - done.
  - intros r Hr. destruct (Hopened r Hr) as (n & Hn & Ho).
    destruct (Hlook r n Hn) as (n' & Hn' & Hv). exists n'. by rewrite Hv.
  - cbn [never_closer forallb]. fold (never_closer hstart (st_trace st)). done.
  - intros Hs. destruct (Hsurr Hs) as [Hnovisit Hnever]. split.
    + intros r n'. rewrite nodes_update_node. case_decide.
      * subst r. destruct (nodes (st_graph st) !! cur) as [n |] eqn:Hn; [| done].
        intros [= <-]. simpl. by apply (Hnovisit cur).
      * by apply Hnovisit.
    + cbn [never_closer forallb]. by fold (never_closer hstart (st_trace st)).
Qed.

(** [search] returns, and the trace it leaves is well formed. *)
Lemma search_trace :
  exists path st stl, search gr start end_ closest heuristic = Ok (path, st) /\
    core gr start end_ heur stl /\ final_shape end_ closest stl path st /\
    trace_ok gr start hstart stl /\ trace_ok gr start hstart st.
Proof.
  destruct (search_run gr start end_ closest heuristic gr_wf start_valid end_valid
              (trace_ok gr start hstart) (fun _ _ st => trace_ok gr start hstart st))
    as (path & st & Hrun & stl & Hcore & HJ & Hfinal).
  - (* the first state *)
    intros st0 Hcore Htr Hheap Hcl Hfresh _ _. unfold trace_ok. rewrite Htr. cbn zeta.
    split_and!.
    + intros r b a Hin. apply list_elem_of_singleton in Hin. done.
    + apply rc_start.
    + intros c b a Hin. apply list_elem_of_singleton in Hin. injection Hin as _ -> ->.
      split; [apply NoDup_nil_2 | apply NoDup_singleton].
    + apply NoDup_singleton.
    + intros r Hr. apply list_elem_of_singleton in Hr. subst r.
      destruct (core_start _ _ _ _ _ Hcore) as (ns & Hns & _). exists ns. split; [done | by right].
    + by left.
    + intros _. split; [| done]. intros r n Hn. by destruct (Hfresh r n Hn).
  - intros st cur st1 Hcore HJ Hshape _ Hinner.
    apply (trace_ok_pop st st1 cur); try done.
    destruct Hinner as (Hcore1 & _). exact (core_nodup _ _ _ _ _ Hcore1).
  - intros cur cn0 seen nb rest st st' _ _ Hinner HJ Hshape Hinner'.
    by apply (trace_ok_visit cur nb st st').
  - done.
  - exists path, st, stl. split_and!; try done.
    destruct Hfinal as [(hp & Hpop & Hmin & Hin & Hpath & ->) | (_ & -> & _)]; [| done].
    assert (Hne : items (st_heap stl) <> []) by (intros Hnil; rewrite Hnil in Hin; by apply elem_of_nil in Hin).
    destruct (pop_spec _ _ (core_order _ _ _ _ _ Hcore) Hne) as (r & hp' & Hpop' & _ & Hperm & _).
    rewrite Hpop in Hpop'. injection Hpop' as <- <-.
    destruct HJ as (Hpop0 & Hcalls & Hnd & Hpushed & Hopened & Hclose & Hsurr).
    unfold trace_ok. cbn [st_graph st_trace st_closest st_heap]. cbn zeta.
    split_and!; try done.
    + intros r b a Hin'. apply elem_of_cons in Hin' as [Heq | Hin']; [| by eapply Hpop0].
      injection Heq as -> -> _. eauto.
    + by apply rc_pop.
    + intros c b a Hin'. apply elem_of_cons in Hin' as [Heq | Hin']; [| by eapply Hnd].
      injection Heq as _ -> ->. pose proof (core_nodup _ _ _ _ _ Hcore) as Hnd0.
      split; [done |]. rewrite Hperm in Hnd0. by apply NoDup_cons in Hnd0 as [_ ?].
Qed.
End SearchTrace.

(** ** Claims about the search loop *)

(** C3, amended.  [pop] on an empty heap raises nothing: it returns
    [undefined] and leaves the heap as it is.  [search], on a well-formed
    graph, returns, and each [pop] it has made was made on a heap that was
    not empty and returned one of its nodes. *)
Theorem pop_is_unguarded_and_search_never_pops_an_empty_heap :
  (forall (score : ref -> Q) (a : jsarray),
     items a = [] -> pop score a = Ok (None, a)) /\
  (forall (gr : Graph) (start end_ : ref) (closest : bool) (heuristic : option heuristic_fn),
     graph_wfb gr = true ->
     (start < length (nodes gr))%nat -> (end_ < length (nodes gr))%nat ->
     exists path st, search gr start end_ closest heuristic = Ok (path, st) /\
       forall r before after, EvHeap (CallPop r) before after ∈ st_trace st ->
         before <> [] /\ exists x, r = Some x /\ x ∈ before).
Proof.
  split; [apply pop_empty |].
  intros gr start end_ closest heuristic Hwf Hs He.
  destruct (search_trace gr start end_ closest heuristic Hwf Hs He)
    as (path & st & stl & Hrun & _ & _ & _ & (Hpop & _)).
  exists path, st. split; [done |]. intros r b a Hin.
  destruct (Hpop r b a Hin) as (x & -> & Hx). split; [| eauto].
  intros ->. by apply elem_of_nil in Hx.
Qed.

Lemma pop_is_unguarded_and_search_never_pops_an_empty_heap_witness :
  exists path st, search (Graph_new [[1; 1]]%Q false) 0%nat 1%nat false None = Ok (path, st) /\
    forall r before after, EvHeap (CallPop r) before after ∈ st_trace st ->
      before <> [] /\ exists x, r = Some x /\ x ∈ before.
Proof.
  apply (proj2 pop_is_unguarded_and_search_never_pops_an_empty_heap
           (Graph_new [[1; 1]]%Q false) 0%nat 1%nat false None);
    [reflexivity | simpl; lia | simpl; lia].
Defined.




Lemma pathTo_start (gr0 : Graph) (start end_ : ref) (heur : heuristic_fn) (st : state) :
  core gr0 start end_ heur st -> pathTo (st_graph st) start = Ok [].
Proof.
  intros Hcore. destruct (core_start _ _ _ _ _ Hcore) as (ns & Hns & _ & Hp & _).
  unfold node_of in Hns. unfold pathTo.
  destruct (length (nodes (st_graph st))); cbn [pathTo_loop]; unfold get_node;
    rewrite Hns; cbn [res_bind]; by rewrite Hp.
Qed.

(** C10.  On a well-formed graph in which the goal cannot be reached,
    [search] with [closest = true] returns; if no relaxation has produced a
    node with a smaller [h] than the start node, or the same [h] and a
    smaller [g], the closest node is still the start node and the returned
    path is empty.  That is the case, in particular, when every cell next
    to the start node is a wall. *)
Theorem closest_search_returns_empty_when_nothing_is_closer (gr : Graph) (start end_ : ref)
    (heuristic : option heuristic_fn) :
  graph_wfb gr = true ->
  (start < length (nodes gr))%nat -> (end_ < length (nodes gr))%nat ->
  unreachable gr start end_ ->
  let hstart := h_of gr (heuristic_or_default heuristic) end_ start in
  exists path st, search gr start end_ true heuristic = Ok (path, st) /\
    (never_closer hstart (st_trace st) = true -> st_closest st = start /\ path = []) /\
    (surroundedb gr start = true -> never_closer hstart (st_trace st) = true).
Proof.
  intros Hwf Hs He Hunreach hstart.
  destruct (search_trace gr start end_ true heuristic Hwf Hs He)
    as (path & st & stl & Hrun & Hcore & Hfinal & _ & HJ).
  destruct HJ as (_ & _ & _ & _ & _ & Hclose & Hsurr).
  exists path, st. split; [done |].
  destruct Hfinal as [(hp & _ & _ & Hin & _) | (_ & -> & Hpath)].
  { (* the goal cannot have been on the heap *)
    exfalso. apply (core_heap _ _ _ _ _ Hcore) in Hin as (ne & Hne & _ & Hopen).
    destruct (pathTo_run gr start end_ _ stl end_ ne Hcore Hne Hopen)
      as (q & _ & Hvalid & Hend & _).
    by apply (Hunreach q). }
  split.
  - intros Hnever. destruct Hclose as [Hcs | Hfalse]; [| unfold hstart in Hnever; congruence].
    split; [done |]. rewrite Hcs in Hpath.
    rewrite (pathTo_start gr start end_ _ stl Hcore) in Hpath. congruence.
  - intros Hsur. by destruct (Hsurr Hsur).
Qed.

Lemma closest_search_returns_empty_when_nothing_is_closer_witness :
  exists path st,
    search (Graph_new [[1; 0]; [0; 1]]%Q false) 0%nat 3%nat true None = Ok (path, st) /\
    (never_closer 2 (st_trace st) = true -> st_closest st = 0%nat /\ path = []) /\
    (surroundedb (Graph_new [[1; 0]; [0; 1]]%Q false) 0%nat = true ->
     never_closer 2 (st_trace st) = true).
Proof.
  apply (closest_search_returns_empty_when_nothing_is_closer
           (Graph_new [[1; 0]; [0; 1]]%Q false) 0%nat 3%nat None);
    [reflexivity | simpl; lia | simpl; lia |].
  apply surrounded_unreachable; [reflexivity | lia].
Defined.

Lemma cleanDirty_on_baseline (gr : Graph) :
  forallb baselineb (nodes gr) = true -> nodes (cleanDirty gr) = nodes gr.
Proof.
  intros Hall. rewrite forallb_forall in Hall.
  destruct (cleanDirty_spec gr) as (_ & _ & _ & Hn).
  apply list_eq. intros r. rewrite Hn. case_decide; [| done].
  destruct (nodes gr !! r) as [n |] eqn:Hr; [| done]. simpl. f_equal. symmetry.
  apply baselineb_spec, Hall. apply list_elem_of_In. by eapply list_elem_of_lookup_2.
Qed.

(** C8.  On a graph whose nodes are all at baseline, [search(graph, s, s)]
    returns the empty path: the only calls made on the heap are the push of
    [s] and the pop that returns it, the heap is left empty, [s] has had its
    [h] set and is the only dirty node, and no other node has changed. *)
Theorem search_from_goal_returns_empty_path (gr : Graph) (s : ref) (ns : Node.GridNode)
    (closest : bool) (heuristic : option heuristic_fn) :
  forallb baselineb (nodes gr) = true -> nodes gr !! s = Some ns ->
  exists st, search gr s s closest heuristic = Ok ([], st) /\
    st_trace st = [EvHeap (CallPop (Some s)) [s] []; EvHeap (CallPush s) [] [s]] /\
    items (st_heap st) = [] /\
    nodes (st_graph st) =
      <[s := Node.set_h (heuristic_or_default heuristic (pos_of ns) (pos_of ns)) ns]> (nodes gr) /\
    (forall r, r <> s -> nodes (st_graph st) !! r = nodes gr !! r) /\
    dirtyNodes (st_graph st) = [s] /\
    grid (st_graph st) = grid gr.
Proof.
  intros Hall Hs.
  pose proof (cleanDirty_on_baseline gr Hall) as Hnodes.
  destruct (cleanDirty_spec gr) as (Hg & Hd & Hdirty & _).
  assert (Hbase : ns = clean ns).
  { rewrite forallb_forall in Hall. apply baselineb_spec, Hall, list_elem_of_In.
    by eapply list_elem_of_lookup_2. }
  unfold search, get_node. rewrite Hnodes, Hs. cbn [res_bind].
  rewrite push_on_empty. cbn [res_bind].
  set (H := heuristic_or_default heuristic (pos_of ns) (pos_of ns)).
  set (gr1 := markDirty s (update_node s (Node.set_h H) (cleanDirty gr))).
  assert (Hnodes1 : nodes gr1 = <[s := Node.set_h H ns]> (nodes gr)).
  { unfold gr1, markDirty, update_node. cbn [nodes]. rewrite Hnodes. by apply alter_as_insert. }
  assert (Hs1 : nodes gr1 !! s = Some (Node.set_h H ns)).
  { rewrite Hnodes1. apply list_lookup_insert_eq. by eapply lookup_lt_Some. }
  assert (Hlen : length (nodes gr1) = length (nodes gr)).
  { by rewrite Hnodes1, length_insert. }
  pose proof (lookup_lt_Some _ _ _ Hs) as Hlt.
  destruct (length (nodes gr1)) as [| fuel] eqn:Hfuel; [lia |].
  cbn [search_loop st_heap st_graph st_closest st_trace].
  change (size (mkArr [s] None) >? 0) with true. cbn match.
  change (pop (score_f gr1) (mkArr [s] None)) with (Ok (Some s, mkArr [] None) : res _).
  cbn [res_bind]. rewrite Nat.eqb_refl.
  assert (Hpath : pathTo gr1 s = Ok []).
  { unfold pathTo. rewrite Hfuel. cbn [pathTo_loop]. unfold get_node. rewrite Hs1.
    cbn [res_bind]. rewrite Hbase. reflexivity. }
  rewrite Hpath. cbn [res_bind]. eexists. split; [reflexivity |].
  cbn [st_trace st_heap st_graph items]. split_and!; try done.
  intros r Hr. rewrite Hnodes1. by apply list_lookup_insert_ne.
Qed.

Lemma search_from_goal_returns_empty_path_witness :
  exists st, search (Graph_new [[1; 2]; [3; 4]]%Q true) 3%nat 3%nat true None = Ok ([], st) /\
    st_trace st = [EvHeap (CallPop (Some 3%nat)) [3%nat] []; EvHeap (CallPush 3%nat) [] [3%nat]] /\
    items (st_heap st) = [] /\
    nodes (st_graph st) =
      <[3%nat := Node.set_h 0 (Node.mk 1 1 4 0 0 0 false false None)]>
        (nodes (Graph_new [[1; 2]; [3; 4]]%Q true)) /\
    (forall r, r <> 3%nat ->
       nodes (st_graph st) !! r = nodes (Graph_new [[1; 2]; [3; 4]]%Q true) !! r) /\
    dirtyNodes (st_graph st) = [3%nat] /\
    grid (st_graph st) = grid (Graph_new [[1; 2]; [3; 4]]%Q true).
Proof.
  apply (search_from_goal_returns_empty_path (Graph_new [[1; 2]; [3; 4]]%Q true) 3%nat
           (Node.mk 1 1 4 0 0 0 false false None) true None); reflexivity.
Defined.

(** C5, as stated, fails: the cost of a diagonal step onto a cell of
    weight 1 is 1.41421, whose square is below 2, and which is below the
    value of [Math.sqrt(2)]; it is the [g] given to the diagonal neighbour
    of the start node on a 2 by 2 grid of weights 1. *)
Lemma diagonal_step_cost_is_not_sqrt2 :
  let from := Node.mk 0 0 1 0 0 0 false false None in
  let node := Node.mk 1 1 1 0 0 0 false false None in
  let cost := getNodeCost node (Some from) in
  cost = (141421 # 100000)%Q /\ (cost * cost < 2)%Q /\ (cost < sqrt2_double)%Q /\
  exists path st n,
    search (Graph_new [[1; 1]; [1; 1]]%Q true) 0%nat 3%nat false None = Ok (path, st) /\
    EvRelax 3%nat false n ∈ st_trace st /\ Node.parent n = Some 0%nat /\
    (Node.g n == 0 + cost)%Q.
Proof.
  split_and!; [reflexivity | reflexivity | reflexivity |].
  eexists _, _, _. split_and!; [vm_compute; reflexivity | | |].
  - vm_compute. repeat (apply elem_of_cons; first [left; reflexivity | right]).
  - reflexivity.
  - reflexivity.
Qed.

(** C5, amended.  In an expansion step of [search], the cost of the step
    from the current node onto a neighbour is the weight of the neighbour,
    multiplied by the constant 1.41421 when both coordinates differ; it
    depends on the current node through that test only.  When the
    neighbour is open and passable and either has not been visited or is
    improved on, it is given [g = current.g + cost], [f = g + h] and the
    current node as parent; otherwise the step changes nothing. *)
Theorem candidate_cost_uses_the_constant_141421 (end_ : ref) (closest : bool)
    (heur : heuristic_fn) (cur nb : ref) (st st' : state) (n cn : Node.GridNode) :
  visit end_ closest heur cur st nb = Ok st' ->
  nodes (st_graph st) !! nb = Some n -> nodes (st_graph st) !! cur = Some cn ->
  let diagonal_step := negb (Node.x cn =? Node.x n) && negb (Node.y cn =? Node.y n) in
  let cost := (if diagonal_step then Node.w n * (141421 # 100000) else Node.w n)%Q in
  let gScore := (Node.g cn + cost)%Q in
  getNodeCost n (Some cn) = cost /\
  if Node.closed n || isNodeWall n then st' = st
  else if negb (Node.visited n) || Qltb gScore (Node.g n) then
    exists n', nodes (st_graph st') !! nb = Some n' /\
      Node.g n' = gScore /\ Node.f n' = (gScore + Node.h n')%Q /\
      Node.parent n' = Some cur /\ Node.visited n' = true /\
      Node.w n' = Node.w n
  else st' = st.
Proof.
  intros Hrun Hn Hcn diagonal_step cost gScore.
  assert (Hcost : getNodeCost n (Some cn) = cost) by reflexivity.
  split; [done |].
  unfold visit, get_node in Hrun. rewrite Hn in Hrun. cbn [res_bind] in Hrun.
  destruct (Node.closed n || isNodeWall n); [by injection Hrun |].
  rewrite Hcn in Hrun. cbn [res_bind] in Hrun. rewrite Hcost in Hrun. fold gScore in Hrun.
  destruct (negb (Node.visited n) || Qltb gScore (Node.g n)); [| by injection Hrun].
  destruct (nodes (st_graph st) !! end_) as [en |]; [| done]. cbn [res_bind] in Hrun.
  set (hv := if Qeq_bool (Node.h n) 0 then heur (pos_of n) (pos_of en) else Node.h n) in *.
  set (upd := fun n1 => Node.set_f (gScore + hv) (Node.set_g gScore (Node.set_h hv
                (Node.set_parent (Some cur) (Node.set_visited true n1))))) in *.
  set (gr1 := markDirty nb (update_node nb upd (st_graph st))) in *.
  assert (Hnb : nodes gr1 !! nb = Some (upd n)).
  { unfold gr1, markDirty. cbn [nodes]. rewrite nodes_update_node, decide_True by done.
    by rewrite Hn. }
  rewrite Hnb in Hrun. cbn [res_bind] in Hrun.
  destruct (nodes gr1 !! st_closest st) as [cl |]; [| done]. cbn [res_bind] in Hrun.
  assert (Hgoal : forall hp tr cl', st' = mkState gr1 hp cl' tr ->
    exists n', nodes (st_graph st') !! nb = Some n' /\
      Node.g n' = gScore /\ Node.f n' = (gScore + Node.h n')%Q /\
      Node.parent n' = Some cur /\ Node.visited n' = true /\ Node.w n' = Node.w n).
  { intros hp tr cl' ->. exists (upd n). split_and!; done. }
  destruct (negb (Node.visited n)).
  - destruct (push _ _ _) as [hp |]; [| done]. cbn [res_bind] in Hrun.
    injection Hrun as <-. by eapply Hgoal.
  - destruct (rescoreElement _ _ _) as [hp |]; [| done]. cbn [res_bind] in Hrun.
    injection Hrun as <-. by eapply Hgoal.
Qed.

Lemma candidate_cost_uses_the_constant_141421_witness :
  let gr := Graph_new [[1; 1]; [1; 2]]%Q true in
  let st := mkState (update_node 0%nat (Node.set_closed true) gr) arr_empty 0%nat [] in
  match visit 3%nat false manhattan 0%nat st 3%nat with
  | Ok st' =>
      getNodeCost (Node.mk 1 1 2 0 0 0 false false None)
        (Some (Node.mk 0 0 1 0 0 0 false true None)) = (2 * (141421 # 100000))%Q /\
      exists n', nodes (st_graph st') !! 3%nat = Some n' /\
        Node.g n' = (0 + 2 * (141421 # 100000))%Q /\
        Node.f n' = (0 + 2 * (141421 # 100000) + Node.h n')%Q /\
        Node.parent n' = Some 0%nat /\ Node.visited n' = true /\ Node.w n' = 2%Q
  | Fail _ => False
  end.
Proof.
  intros gr st.
  destruct (visit 3%nat false manhattan 0%nat st 3%nat) as [st' | e] eqn:Hrun.
  - exact (candidate_cost_uses_the_constant_141421 3%nat false manhattan 0%nat 3%nat st st'
             (Node.mk 1 1 2 0 0 0 false false None)
             (Node.mk 0 0 1 0 0 0 false true None) Hrun eq_refl eq_refl).
  - vm_compute in Hrun. discriminate Hrun.
Defined.

(** ** A run that returns a path that is not the cheapest *)

(** C1, as stated, fails.  On the two-row grid
    [[1, 3/2, 3], [1, 1/4, 1/8]] (every weight positive, no diagonal moves)
    with the default Manhattan heuristic, from node 0 at (0,0) to node 2 at
    (0,2): the heuristic never overestimates the cost of a path to the goal,
    the goal is reachable, and [search] returns the path (0,1), (0,2) of
    cost 9/2 although the path (1,0), (1,1), (1,2), (0,2) costs 35/8. *)
Lemma search_not_optimal_with_admissible_heuristic :
  let gr := Graph_new [[1; 3 # 2; 3]; [1; 1 # 4; 1 # 8]]%Q false in
  graph_wfb gr = true /\
  positive_weights gr /\
  admissible gr manhattan 2%nat /\
  exists path st,
    search gr 0%nat 2%nat false None = Ok (path, st) /\
    valid_path gr 0%nat [3; 4; 5; 2]%nat = true /\
    path_end 0%nat [3; 4; 5; 2]%nat = 2%nat /\
    (path_cost gr 0%nat [3; 4; 5; 2]%nat < path_cost gr 0%nat path)%Q.
Proof.
  intros gr. split_and!.
  - reflexivity.
  - intros r n Hr _.
    assert (Hlt : (r < 6)%nat) by (apply lookup_lt_Some in Hr; exact Hr).
    do 6 (destruct r as [| r]; [inversion Hr; reflexivity |]). lia.
  - intros u path Hu Hvalid Hend.
    set (phi := fun r : ref => nth r [35 # 8; 3; 0; 27 # 8; 25 # 8; 3]%Q 0%Q).
    assert (Hm : monotoneb gr phi = true) by reflexivity.
    pose proof (monotone_path gr phi path u Hm Hvalid) as Hphi.
    rewrite Hend in Hphi. change (phi 2%nat) with 0%Q in Hphi.
    assert (Hh : (h_of gr manhattan 2%nat u <= phi u)%Q).
    { change (length (nodes gr)) with 6%nat in Hu.
      do 6 (destruct u as [| u]; [vm_compute; discriminate |]). lia. }
    lra.
  - eexists _, _. split_and!; [vm_compute; reflexivity | reflexivity | reflexivity |].
    vm_compute. reflexivity.
Qed.

(** ** Optimality under a consistent heuristic *)

Section Optimal.
Variable gr : Graph.
Variables start end_ : ref.
Variable closest : bool.
Variable heur : heuristic_fn.

Hypothesis heur_consistent : consistentb gr heur end_ = true.

(** Along a path the heuristic drops by at most the cost of the path. *)
Lemma consistent_path (u : ref) (q : list ref) :
  valid_path gr u q = true ->
  (h_of gr heur end_ u <= path_cost gr u q + h_of gr heur end_ (path_end u q))%Q.
Proof. intros Hv. by apply monotone_path. Qed.

(** The node extracted from the heap has the least [g] a path to it allows. *)
Lemma popped_node_is_optimal (st : state) (cur : ref) (ncur : Node.GridNode) (q : list ref) :
  core gr start end_ heur st ->
  closed_relaxed gr start (fun _ _ => True) st ->
  cur ∈ items (st_heap st) ->
  (forall v, v ∈ items (st_heap st) ->
     (score_f (st_graph st) cur <= score_f (st_graph st) v)%Q) ->
  node_of st cur = Some ncur ->
  valid_path gr start q = true -> path_end start q = cur ->
  (Node.g ncur <= path_cost gr start q)%Q.
Proof.
  intros Hcore Hrel Hin Hmin Hcur Hvalid Hend.
  pose proof Hcore as [Hstatic Hnd Hheap Hclosed Hstart Hsh Horder Hvis Hfresh Hclosest Hgoal Hdepth].
  unfold node_of in *.
  destruct (proj1 (Hheap cur) Hin) as (ncur' & Hcur' & Hcurc & Hcuro).
  unfold node_of in Hcur'. assert (ncur' = ncur) by congruence. subst ncur'.
  destruct Hstart as (ns & Hns & Hnsv & _ & Hnsg & _). unfold node_of in Hns.
  destruct Hsh as [(ns' & Hns' & Hnsc) | Hone].
  2:{ (* first iteration: the node is the start node *)
      rewrite Hone in Hin. apply list_elem_of_singleton in Hin. subst cur.
      assert (ncur = ns) by congruence. subst ncur. rewrite Hnsg.
      pose proof (consistent_path start q Hvalid) as Hc. rewrite Hend in Hc. lra. }
  unfold node_of in Hns'. assert (ns' = ns) by congruence. subst ns'.
  (* an open node has f = g + h *)
  assert (Hf : forall r n, nodes (st_graph st) !! r = Some n -> Node.closed n = false ->
            (Node.visited n = true \/ r = start) ->
            score_f (st_graph st) r = (Node.g n + h_of gr heur end_ r)%Q).
  { intros r n Hn Hc [Hv | ->]; [| congruence].
    destruct (Hvis r n Hn Hv) as (_ & _ & _ & _ & _ & _ & _ & Hh & Hff).
    unfold score_f. rewrite Hn, Hff, Hh. reflexivity. }
  assert (Hwalk : forall q u nu, nodes (st_graph st) !! u = Some nu -> Node.closed nu = true ->
            valid_path gr u q = true -> path_end u q = cur ->
            (Node.g ncur <= Node.g nu + path_cost gr u q)%Q).
  { clear q Hvalid Hend. induction q as [| v q IH]; intros u nu Hu Huc Hvalid Hend.
    - unfold path_end in Hend. simpl in Hend. subst u. congruence.
    - simpl in Hvalid. apply andb_true_iff in Hvalid as [Hstep Hvalid].
      rewrite path_end_cons in Hend. cbn [path_cost].
      destruct (Hrel u v nu Hu Huc Hstep I) as (nv & Hv & Hvo & Hvg).
      destruct (Node.closed nv) eqn:Hvc.
      + pose proof (IH v nv Hv Hvc Hvalid Hend). lra.
      + assert (Hvin : v ∈ items (st_heap st)).
        { apply Hheap. exists nv. done. }
        pose proof (Hmin v Hvin) as Hle.
        rewrite (Hf cur ncur Hcur Hcurc Hcuro), (Hf v nv Hv Hvc Hvo) in Hle.
        pose proof (consistent_path v q Hvalid) as Hc. rewrite Hend in Hc. lra. }
  pose proof (Hwalk q start ns Hns Hnsc Hvalid Hend) as Hw. rewrite Hnsg in Hw. lra.
Qed.
End Optimal.

Section OptimalSearch.
Variable gr : Graph.
Variables start end_ : ref.
Variable closest : bool.
Variable heuristic : option heuristic_fn.

Let heur : heuristic_fn := heuristic_or_default heuristic.

Hypothesis gr_wf : graph_wfb gr = true.
Hypothesis start_valid : (start < length (nodes gr))%nat.
Hypothesis end_valid : (end_ < length (nodes gr))%nat.
Hypothesis heur_consistent : consistentb gr heur end_ = true.

Lemma optimal_enter (st st1 : state) (cur : ref) :
  core gr start end_ heur st ->
  closed_optimal gr start st -> closed_relaxed gr start (fun _ _ => True) st ->
  pop_shape st cur st1 ->
  closed_optimal gr start st1 /\
  closed_relaxed gr start (fun u v => u <> cur \/ v ∈ @nil ref) st1.
Proof.
  intros Hcore Hopt Hrel (hp & Hpop & Hperm & Hmin & ->).
  assert (Hin : cur ∈ items (st_heap st)) by (rewrite Hperm; apply elem_of_cons; by left).
  destruct (proj1 (core_heap _ _ _ _ _ Hcore cur) Hin) as (n & Hn & Hnc & Hopen).
  unfold node_of in Hn. cbn [st_graph].
  assert (Hlook : forall r, nodes (update_node cur (Node.set_closed true) (st_graph st)) !! r =
            if decide (r = cur) then Some (Node.set_closed true n)
            else nodes (st_graph st) !! r).
  { intros r. rewrite nodes_update_node.
    destruct (decide (cur = r)) as [-> | Hr].
    - rewrite decide_True by done. by rewrite Hn.
    - by rewrite decide_False by done. }
  split.
  - intros u nu q. cbn [st_graph]. rewrite Hlook. case_decide as Hu.
    + intros [= <-] _ Hvalid Hend. subst u. simpl.
      by apply (popped_node_is_optimal gr start end_ heur heur_consistent st cur n q).
    + by apply Hopt.
  - intros u v nu. cbn [st_graph]. rewrite Hlook. case_decide as Hu.
    { intros _ _ _ [? | Hnil]; [done | by apply elem_of_nil in Hnil]. }
    intros Hnu Huc Hstep _. destruct (Hrel u v nu Hnu Huc Hstep I) as (nv & Hnv & Hvo & Hvg).
    rewrite Hlook. case_decide as Hv.
    + subst v. assert (nv = n) by congruence. subst nv.
      exists (Node.set_closed true n). done.
    + exists nv. done.
Qed.

Lemma optimal_visit (cur nb : ref) (cn0 : Node.GridNode) (seen : list ref) (st st' : state) :
  nodes gr !! cur = Some cn0 ->
  inner gr start end_ heur cur st ->
  closed_optimal gr start st ->
  closed_relaxed gr start (fun u v => u <> cur \/ v ∈ seen) st ->
  visit_shape gr end_ heur closest cur nb st st' ->
  closed_optimal gr start st' /\
  closed_relaxed gr start (fun u v => u <> cur \/ v ∈ seen ++ [nb]) st'.
Proof.
  intros Hcn0 Hinner Hopt Hrel Hshape.
  pose proof Hinner as (Hcore & (ns & Hns & Hnsc) & (cn & Hcn & Hcnc)).
  unfold node_of in *.
  destruct Hshape as [-> Hwhy | n cn' n' cl Hn Hcn' Hnc Hnw Hwhy Hn' Hnodes _ _ _ _ _].
  - (* nothing was changed *)
    split; [done |].
    intros u v nu Hnu Huc Hstep [Hu | Hv]; [by apply (Hrel u v nu); try left |].
    apply elem_of_app in Hv as [Hv | Hv]; [by apply (Hrel u v nu); try right |].
    apply list_elem_of_singleton in Hv. subst v.
    destruct (decide (u = cur)) as [-> | Hu]; [| by apply (Hrel u nb nu); try left].
    assert (nu = cn) by congruence. subst nu.
    destruct (step_ok_valid gr cur nb Hstep) as [_ Hnbv].
    destruct (lookup_lt_is_Some_2 _ _ Hnbv) as [n0 Hn0].
    destruct (proj2 (static_lookup gr (st_graph st) nb (core_static _ _ _ _ _ Hcore))
                (ex_intro _ n0 Hn0)) as [n Hn].
    exists n. split; [done |].
    destruct (Hwhy n cn) as [Hc | [Hw | [Hv Hg]]]; [done | done | | |].
    + (* the neighbour is closed: its g is optimal *)
      split; [by apply (core_closed _ _ _ _ _ Hcore nb n) |].
      destruct (pathTo_run gr start end_ heur st cur cn Hcore Hcn)
        as (q & _ & Hqv & Hqe & Hqc).
      { by apply (core_closed _ _ _ _ _ Hcore cur cn). }
      pose proof (Hopt nb n (q ++ [nb]) Hn Hc) as Hle.
      rewrite valid_path_snoc, Hqv, Hqe, Hstep in Hle.
      rewrite path_end_snoc in Hle. specialize (Hle eq_refl eq_refl).
      rewrite path_cost_snoc, Hqe, Hqc in Hle. done.
    + (* a wall is no move *)
      exfalso. unfold step_ok in Hstep. rewrite Hcn0, Hn0 in Hstep.
      apply andb_true_iff in Hstep as [_ Hstep]. apply negb_true_iff in Hstep.
      destruct (core_static _ _ _ _ _ Hcore) as (_ & _ & _ & Hst).
      destruct (Hst nb n Hn) as (n0' & Hn0' & _ & _ & Hw0).
      assert (n0' = n0) by congruence. subst n0'.
      unfold isNodeWall in *. rewrite Hw0 in Hw. congruence.
    + split; [by left | done].
  - (* the neighbour was relaxed *)
    unfold node_of in *.
    assert (cn' = cn) by congruence. subst cn'.
    assert (Hlook : forall r, nodes (st_graph st') !! r =
              if decide (r = nb) then Some n' else nodes (st_graph st) !! r).
    { intros r. rewrite Hnodes, list_lookup_insert.
      pose proof (lookup_lt_Some _ _ _ Hn).
      destruct (decide (r = nb)) as [-> | Hne].
      - rewrite decide_True; done.
      - rewrite decide_False; [done | intros [? _]; congruence]. }
    assert (Hc' : Node.closed n' = false) by (by rewrite Hn').
    assert (Hv' : Node.visited n' = true) by (by rewrite Hn').
    assert (Hg' : Node.g n' = (Node.g cn + step_cost gr cur nb)%Q) by (by rewrite Hn').
    split.
    + intros u nu q. rewrite Hlook. case_decide; [intros [= <-]; congruence | by apply Hopt].
    + intros u v nu. rewrite Hlook. case_decide as Hu; [intros [= <-]; congruence |].
      intros Hnu Huc Hstep HP. rewrite Hlook. case_decide as Hv.
      * subst v. exists n'. split; [done |]. split; [by left |]. rewrite Hg'.
        destruct (decide (u = cur)) as [-> | Hucur].
        { assert (nu = cn) by congruence. subst nu. lra. }
        destruct (Hrel u nb nu Hnu Huc Hstep) as (nv & Hnv & Hvo & Hvg); [by left |].
        assert (nv = n) by congruence. subst nv.
        destruct Hwhy as [Hnv' | Hlt]; [| lra].
        destruct Hvo as [? | ->]; congruence.
      * apply (Hrel u v nu Hnu Huc Hstep). destruct HP as [? | Hin]; [by left |].
        apply elem_of_app in Hin as [? | Hin]; [by right |].
        apply list_elem_of_singleton in Hin. done.
Qed.

(** With an empty heap every node that can be reached is closed. *)
Lemma exhausted_all_closed (st : state) (q : list ref) : forall (u : ref) (nu : Node.GridNode),
  core gr start end_ heur st -> closed_relaxed gr start (fun _ _ => True) st ->
  items (st_heap st) = [] ->
  nodes (st_graph st) !! u = Some nu -> Node.closed nu = true ->
  valid_path gr u q = true ->
  exists ne, nodes (st_graph st) !! path_end u q = Some ne /\ Node.closed ne = true.
Proof.
  induction q as [| v q IH]; intros u nu Hcore Hrel Hnil Hu Huc Hvalid.
  - unfold path_end. simpl. eauto.
  - simpl in Hvalid. apply andb_true_iff in Hvalid as [Hstep Hvalid].
    rewrite path_end_cons.
    destruct (Hrel u v nu Hu Huc Hstep I) as (nv & Hv & Hvo & _).
    destruct (Node.closed nv) eqn:Hvc; [by apply (IH v nv) |].
    exfalso. assert (Hin : v ∈ items (st_heap st)).
    { apply (core_heap _ _ _ _ _ Hcore). exists nv. done. }
    rewrite Hnil in Hin. by apply elem_of_nil in Hin.
Qed.

(** [search] returns a cheapest path when the goal can be reached. *)
Lemma search_optimal (q : list ref) :
  valid_path gr start q = true -> path_end start q = end_ ->
  exists path st, search gr start end_ closest heuristic = Ok (path, st) /\
    valid_path gr start path = true /\ path_end start path = end_ /\
    forall q', valid_path gr start q' = true -> path_end start q' = end_ ->
      (path_cost gr start path <= path_cost gr start q')%Q.
Proof.
  intros Hq Hqe.
  destruct (search_run gr start end_ closest heuristic gr_wf start_valid end_valid
              (fun st => closed_optimal gr start st /\
                         closed_relaxed gr start (fun _ _ => True) st)
              (fun cur seen st => closed_optimal gr start st /\
                         closed_relaxed gr start (fun u v => u <> cur \/ v ∈ seen) st))
    as (path & st & Hrun & stl & Hcore & [Hopt Hrel] & Hfinal).
  - (* the first state: no node is closed *)
    intros st0 _ _ _ _ Hfresh _ _. split.
    + intros u nu q' Hu Huc. destruct (Hfresh u nu Hu). congruence.
    + intros u v nu Hu Huc. destruct (Hfresh u nu Hu). congruence.
  - intros st0 cur st1 Hcore0 [Hopt0 Hrel0] Hshape _ _.
    by apply (optimal_enter st0 st1 cur).
  - intros cur cn0 seen nb rest st0 st' Hcn0 _ Hinner [Hopt0 Hrel0] Hshape _.
    by apply (optimal_visit cur nb cn0 seen st0 st').
  - intros cur cn0 st0 Hcn0 Hinner [Hopt0 Hrel0]. split; [done |].
    intros u v nu Hu Huc Hstep _. apply (Hrel0 u v nu Hu Huc Hstep).
    destruct (decide (u = cur)) as [-> | ?]; [right | by left].
    unfold step_ok in Hstep. rewrite Hcn0 in Hstep.
    destruct (nodes gr !! v); [| done].
    apply andb_true_iff in Hstep as [Hin _]. by apply bool_decide_eq_true in Hin.
  - exists path, st. split; [done |].
    destruct Hfinal as [(hp & Hpop & Hmin & Hin & Hpath & _) | (Hnil & _ & _)].
    + destruct (proj1 (core_heap _ _ _ _ _ Hcore end_) Hin) as (ne & Hne & _ & Hopen).
      destruct (pathTo_run gr start end_ heur stl end_ ne Hcore Hne Hopen)
        as (path' & Hpath' & Hvalid & Hend & Hcost).
      assert (path' = path) by (fold heur in Hpath; congruence). subst path'.
      split_and!; [done | done |]. intros q' Hq' Hqe'. rewrite Hcost.
      by apply (popped_node_is_optimal gr start end_ heur heur_consistent stl end_ ne q').
    + (* the heap cannot run empty while the goal can be reached *)
      exfalso.
      destruct (core_start_heap _ _ _ _ _ Hcore) as [(ns & Hns & Hnsc) | Hone];
        [| rewrite Hnil in Hone; discriminate Hone].
      destruct (exhausted_all_closed stl q start ns Hcore Hrel Hnil Hns Hnsc Hq)
        as (ne & Hne & Hnec).
      rewrite Hqe in Hne.
      pose proof (core_end _ _ _ _ _ Hcore ne Hne). congruence.
Qed.
End OptimalSearch.

(** ** Every graph the interface produces is well formed *)

Lemma row_okb_intro (ns : list Node.GridNode) (i : Z) (row : list ref) : forall (j0 : Z),
  (forall (k : nat) (r : ref), row !! k = Some r ->
     exists n, ns !! r = Some n /\ Node.x n = i /\ Node.y n = j0 + Z.of_nat k) ->
  row_okb ns i j0 row = true.
Proof.
  induction row as [| r0 row IH]; intros j0 Hall; [reflexivity |].
  simpl. apply andb_true_iff. split.
  - destruct (Hall 0%nat r0 eq_refl) as (n & -> & Hx & Hy).
    apply andb_true_iff. split; lia.
  - apply IH. intros k r Hk. destruct (Hall (S k) r Hk) as (n & ? & ? & ?).
    exists n. split_and!; [done | done | lia].
Qed.

Lemma grid_okb_intro (ns : list Node.GridNode) (gd : list (list ref)) : forall (i0 : Z),
  (forall (a k : nat) (row : list ref) (r : ref), gd !! a = Some row -> row !! k = Some r ->
     exists n, ns !! r = Some n /\ Node.x n = i0 + Z.of_nat a /\ Node.y n = Z.of_nat k) ->
  grid_okb ns i0 gd = true.
Proof.
  induction gd as [| row gd IH]; intros i0 Hall; [reflexivity |].
  simpl. apply andb_true_iff. split.
  - apply row_okb_intro. intros k r Hk.
    destruct (Hall 0%nat k row r eq_refl Hk) as (n & ? & ? & ?).
    exists n. split_and!; [done | lia | lia].
  - apply IH. intros a k row' r Ha Hk.
    destruct (Hall (S a) k row' r Ha Hk) as (n & ? & ? & ?).
    exists n. split_and!; [done | lia | done].
Qed.

Lemma clean_from_intro (ns : list Node.GridNode) (dirty : list ref) : forall (r0 : nat),
  (forall (k : nat) (n : Node.GridNode), ns !! k = Some n ->
     n = clean n \/ (r0 + k)%nat ∈ dirty) ->
  clean_from ns r0 dirty = true.
Proof.
  induction ns as [| n0 ns IH]; intros r0 Hall; [reflexivity |].
  simpl. apply andb_true_iff. split.
  - apply orb_true_iff. destruct (Hall 0%nat n0 eq_refl) as [Hc | Hd].
    + left. by apply baselineb_spec.
    + right. apply bool_decide_eq_true. by rewrite Nat.add_0_r in Hd.
  - apply IH. intros k n Hk. destruct (Hall (S k) n Hk) as [? | Hd]; [by left | right].
    by replace (S r0 + k)%nat with (r0 + S k)%nat by lia.
Qed.

Lemma grid_lookup_zlookup (gd : list (list ref)) (a k : nat) (row : list ref) (r : ref) :
  gd !! a = Some row -> row !! k = Some r ->
  grid_at gd (Z.of_nat a) (Z.of_nat k) = Some r.
Proof.
  intros Ha Hk. unfold grid_at, zlookup.
  destruct (Z.ltb_spec (Z.of_nat a) 0); [lia |]. rewrite Nat2Z.id, Ha.
  destruct (Z.ltb_spec (Z.of_nat k) 0); [lia |]. by rewrite Nat2Z.id.
Qed.

(** The inner loop of the constructor appends one baseline node per cell
    and indexes it under its own coordinates. *)
Lemma build_row_spec (i : Z) (row : list Q) : forall (j : Z) (ns : list Node.GridNode),
  exists added,
    snd (build_row i j row ns) = ns ++ added /\
    Forall (fun n => n = clean n) added /\
    forall (k : nat) (r : ref), fst (build_row i j row ns) !! k = Some r ->
      exists n, (ns ++ added) !! r = Some n /\ Node.x n = i /\
        Node.y n = j + Z.of_nat k.
Proof.
  induction row as [| wt row IH]; intros j ns.
  - exists []. simpl. rewrite app_nil_r. split_and!; [done | constructor | done].
  - simpl. destruct (IH (j + 1) (ns ++ [Node.mk i j wt 0 0 0 false false None]))
      as (added & Hsnd & Hclean & Hrefs).
    destruct (build_row i (j + 1) row _) as [refs ns'] eqn:Hrow. simpl in *.
    exists (Node.mk i j wt 0 0 0 false false None :: added).
    split_and!.
    + by rewrite Hsnd, <- app_assoc.
    + constructor; [reflexivity | done].
    + intros [| k] r Hk; simpl in Hk.
      * injection Hk as <-. eexists. split_and!.
        -- rewrite lookup_app_r by lia. rewrite Nat.sub_diag. reflexivity.
        -- reflexivity.
        -- simpl. lia.
      * destruct (Hrefs k r Hk) as (n & Hn & ? & ?). exists n.
        rewrite <- app_assoc in Hn. split_and!; [done | done | lia].
Qed.

Lemma build_grid_spec (gridIn : list (list Q)) : forall (i : Z) (ns : list Node.GridNode),
  exists added,
    snd (build_grid i gridIn ns) = ns ++ added /\
    Forall (fun n => n = clean n) added /\
    forall (a k : nat) (row : list ref) (r : ref),
      fst (build_grid i gridIn ns) !! a = Some row -> row !! k = Some r ->
      exists n, (ns ++ added) !! r = Some n /\ Node.x n = i + Z.of_nat a /\
        Node.y n = Z.of_nat k.
Proof.
  induction gridIn as [| row rest IH]; intros i ns.
  - exists []. simpl. rewrite app_nil_r. split_and!; [done | constructor | done].
  - simpl. destruct (build_row_spec i row 0 ns) as (add1 & Hs1 & Hc1 & Hr1).
    destruct (build_row i 0 row ns) as [refs ns1] eqn:Hrow. simpl in Hs1, Hr1. subst ns1.
    destruct (IH (i + 1) (ns ++ add1)) as (add2 & Hs2 & Hc2 & Hr2).
    destruct (build_grid (i + 1) rest (ns ++ add1)) as [rows ns2] eqn:Hrest.
    simpl in Hs2, Hr2. subst ns2. simpl.
    exists (add1 ++ add2). split_and!.
    + by rewrite app_assoc.
    + by apply Forall_app.
    + intros [| a] k row' r Ha Hk; simpl in Ha.
      * injection Ha as <-. destruct (Hr1 k r Hk) as (n & Hn & ? & ?).
        exists n. split_and!; [| lia | lia].
        rewrite app_assoc. by apply lookup_app_l_Some.
      * destruct (Hr2 a k row' r Ha Hk) as (n & Hn & ? & ?).
        exists n. rewrite app_assoc. split_and!; [done | lia | done].
Qed.

Lemma init_spec (gr : Graph) :
  grid (init gr) = grid gr /\ diagonal (init gr) = diagonal gr /\
  dirtyNodes (init gr) = [] /\
  forall r, nodes (init gr) !! r = clean <$> nodes gr !! r.
Proof.
  unfold init.
  destruct (foldl_cleanNode (seq 0 (length (nodes gr)))
              (mkGraph (nodes gr) (grid gr) (diagonal gr) [])) as (Hg & Hd & Hdn & Hn).
  split_and!; try done.
  intros r. rewrite Hn. cbn [nodes]. case_decide as Hin; [done |].
  rewrite lookup_ge_None_2; [done |].
  destruct (decide (length (nodes gr) <= r)%nat); [done |].
  exfalso. apply Hin, elem_of_seq. lia.
Qed.

(** The graph the constructor returns is well formed, for every input. *)
Lemma Graph_new_wf (gridIn : list (list Q)) (diag : bool) :
  graph_wfb (Graph_new gridIn diag) = true.
Proof.
  unfold Graph_new. destruct (build_grid_spec gridIn 0 []) as (added & Hs & Hc & Hr).
  destruct (build_grid 0 gridIn []) as [rows ns] eqn:Hb. simpl in Hs, Hr. subst ns.
  destruct (init_spec (mkGraph added rows diag [])) as (Hg & _ & Hd & Hn).
  unfold graph_wfb. rewrite Hg, Hd. cbn [grid]. apply andb_true_iff. split.
  - apply grid_okb_intro. intros a k row r Ha Hk.
    destruct (Hr a k row r Ha Hk) as (n & Hn' & ? & ?).
    exists (clean n). rewrite Hn. cbn [nodes]. rewrite Hn'.
    destruct (clean_static n) as (-> & -> & _). split_and!; [done | lia | done].
  - apply clean_from_intro. intros k n Hk. left.
    rewrite Hn in Hk. cbn [nodes] in Hk.
    destruct (added !! k) as [n0 |]; [| done]. injection Hk as <-. reflexivity.
Qed.

(** [search] leaves a well-formed graph: every node it has written to is
    in the dirty list. *)
Lemma search_keeps_graph_well_formed (gr : Graph) (start end_ : ref) (closest : bool)
    (heuristic : option heuristic_fn) :
  graph_wfb gr = true ->
  (start < length (nodes gr))%nat -> (end_ < length (nodes gr))%nat ->
  exists path st, search gr start end_ closest heuristic = Ok (path, st) /\
    graph_wfb (st_graph st) = true /\
    same_static gr (st_graph st).
Proof.
  intros Hwf Hs He.
  set (heur := heuristic_or_default heuristic).
  set (J := fun st : state => forall r n, node_of st r = Some n -> opened start r n ->
              r ∈ dirtyNodes (st_graph st)).
  destruct (search_run gr start end_ closest heuristic Hwf Hs He J (fun _ _ st => J st))
    as (path & st & Hrun & stl & Hcore & HJ & Hfinal).
  - intros st0 _ _ _ _ Hfresh Hd _ r n Hn [Hv | ->].
    + destruct (Hfresh r n Hn). congruence.
    + rewrite Hd. by apply list_elem_of_singleton.
  - intros st cur st1 _ HJ (hp & _ & _ & _ & ->) _ _ r n Hn Hop.
    unfold node_of in Hn. cbn [st_graph] in *. rewrite nodes_update_node in Hn.
    unfold update_node. cbn [dirtyNodes].
    destruct (decide (cur = r)) as [-> | Hne].
    + destruct (nodes (st_graph st) !! r) as [n0 |] eqn:Hn0; [| done].
      injection Hn as <-. apply (HJ r n0 Hn0). destruct Hop as [? | ?]; [by left | by right].
    + by apply (HJ r n).
  - intros cur cn0 seen nb rest st st' _ _ _ HJ Hshape _ r n Hn Hop.
    destruct Hshape as [-> | n0 cn n' cl Hn0 _ _ _ _ _ Hnodes Hdirty _ _ _ _];
      [by apply (HJ r n) |].
    rewrite Hdirty. apply elem_of_app.
    destruct (decide (r = nb)) as [-> | Hne]; [right; by apply list_elem_of_singleton |].
    left. apply (HJ r n); [| done]. unfold node_of in *. rewrite Hnodes in Hn.
    by rewrite list_lookup_insert_ne in Hn.
  - done.
  - exists path, st. split; [done |].
    assert (Hgr : st_graph st = st_graph stl).
    { destruct Hfinal as [(hp & _ & _ & _ & _ & ->) | (_ & -> & _)]; done. }
    rewrite Hgr. split; [| exact (core_static _ _ _ _ _ Hcore)].
    destruct (core_static _ _ _ _ _ Hcore) as (Hg & _ & _ & Hstat).
    unfold graph_wfb. apply andb_true_iff. split.
    + rewrite Hg. apply grid_okb_intro. intros a k row r Ha Hk.
      pose proof (grid_lookup_zlookup _ _ _ _ _ Ha Hk) as Hat.
      destruct (graph_wfb_grid gr _ _ r Hwf Hat) as (n0 & Hn0 & Hx & Hy).
      assert (Hlt : (r < length (nodes (st_graph stl)))%nat).
      { destruct (core_static _ _ _ _ _ Hcore) as (_ & _ & -> & _).
        by eapply lookup_lt_Some. }
      destruct (lookup_lt_is_Some_2 _ _ Hlt) as [n Hn].
      destruct (Hstat r n Hn) as (n0' & Hn0' & ? & ? & _).
      assert (n0' = n0) by congruence. subst n0'.
      exists n. split_and!; [done | lia | lia].
    + apply clean_from_intro. intros k n Hk. rewrite Nat.add_0_l.
      destruct (Node.visited n) eqn:Hv; [right; apply (HJ k n Hk); by left |].
      destruct (decide (k = start)) as [-> | Hne]; [right; apply (HJ start n Hk); by right |].
      left. by apply (core_fresh _ _ _ _ _ Hcore k n).
Qed.

(** ** More on the binary heap *)

Lemma size_perm (a b : jsarray) : items a ≡ₚ items b -> size a = size b.
Proof. intros Hp. unfold size, alength. by rewrite Hp. Qed.

(** What [pop] returns is what it read at index 0. *)
Lemma pop_result (score : ref -> Q) (a : jsarray) (r : option ref) (a' : jsarray) :
  pop score a = Ok (r, a') -> r = items a !! 0%nat.
Proof.
  unfold pop. rewrite aget_items by lia. change (zlookup (items a) 0) with (items a !! 0%nat).
  destruct (apop a) as [e c]. destruct (alength c >? 0).
  - destruct e as [e |]; [| done].
    destruct (aset c 0 e) as [c1 |]; [| done]. cbn [res_bind].
    destruct (bubbleUp score 0 c1) as [c2 |]; [| done]. cbn [res_bind].
    by intros [= <- _].
  - by intros [= <- _].
Qed.

(** X1.  On a heap in order, [push(e)] returns, leaves the heap in order,
    and the content is the old content with [e] added once (so [size()]
    grows by one). *)
Theorem push_adds_the_element_and_keeps_the_order (score : ref -> Q) (e : ref) (a : jsarray) :
  heap_ok score (items a) ->
  exists a', push score e a = Ok a' /\ heap_ok score (items a') /\
    items a' ≡ₚ e :: items a /\ size a' = size a + 1.
Proof.
  intros Hok. destruct (push_spec score e a Hok) as (a' & Hrun & Hok' & Hperm & _).
  exists a'. split_and!; try done.
  unfold size, alength. rewrite Hperm. simpl length. lia.
Qed.

Lemma push_adds_the_element_and_keeps_the_order_witness :
  let score := fun r : ref => inject_Z (Z.of_nat r) in
  exists a', push score 1%nat (mkArr [2; 5; 3]%nat None) = Ok a' /\
    heap_ok score (items a') /\
    items a' ≡ₚ 1%nat :: [2; 5; 3]%nat /\ size a' = size (mkArr [2; 5; 3]%nat None) + 1.
Proof.
  intros score.
  apply (push_adds_the_element_and_keeps_the_order score 1%nat (mkArr [2; 5; 3]%nat None)).
  intros i c p Hi Hc Hp. pose proof (zlookup_Some_bounds _ _ _ Hc) as Hb. simpl in Hb.
  assert (i = 1 \/ i = 2) as [-> | ->] by lia;
    vm_compute in Hc, Hp; injection Hc as <-; injection Hp as <-; vm_compute; discriminate.
Defined.

(** X2.  On a non-empty heap in order, [pop()] returns the element at the
    root, whose score is the least in the heap; the content left is the old
    content less one occurrence of that element, in order again. *)
Theorem pop_returns_a_least_element (score : ref -> Q) (a : jsarray) :
  heap_ok score (items a) -> items a <> [] ->
  exists r a', pop score a = Ok (Some r, a') /\
    items a !! 0%nat = Some r /\
    (forall v, v ∈ items a -> (score r <= score v)%Q) /\
    items a ≡ₚ r :: items a' /\ heap_ok score (items a') /\ size a' = size a - 1.
Proof.
  intros Hok Hne.
  destruct (pop_spec score a Hok Hne) as (r & a' & Hrun & Hok' & Hperm & Hmin & _).
  exists r, a'. split_and!; try done.
  - by rewrite (pop_result score a (Some r) a' Hrun).
  - unfold size, alength. rewrite Hperm. simpl length. lia.
Qed.

Lemma pop_returns_a_least_element_witness :
  let score := fun r : ref => inject_Z (Z.of_nat r) in
  exists r a', pop score (mkArr [2; 5; 3]%nat None) = Ok (Some r, a') /\
    [2; 5; 3]%nat !! 0%nat = Some r /\
    (forall v, v ∈ [2; 5; 3]%nat -> (score r <= score v)%Q) /\
    [2; 5; 3]%nat ≡ₚ r :: items a' /\ heap_ok score (items a') /\
    size a' = size (mkArr [2; 5; 3]%nat None) - 1.
Proof.
  intros score.
  apply (pop_returns_a_least_element score (mkArr [2; 5; 3]%nat None)); [| done].
  intros i c p Hi Hc Hp. pose proof (zlookup_Some_bounds _ _ _ Hc) as Hb. simpl in Hb.
  assert (i = 1 \/ i = 2) as [-> | ->] by lia;
    vm_compute in Hc, Hp; injection Hc as <-; injection Hp as <-; vm_compute; discriminate.
Defined.

(** *** Heap sort *)

Lemma push_all_spec (score : ref -> Q) (l : list ref) : forall (a : jsarray),
  heap_ok score (items a) ->
  exists a', push_all score l a = Ok a' /\ heap_ok score (items a') /\
    items a' ≡ₚ l ++ items a.
Proof.
  induction l as [| e l IH]; intros a Hok; simpl; [eauto |].
  destruct (push_spec score e a Hok) as (a1 & -> & Hok1 & Hperm1 & _). cbn [res_bind].
  destruct (IH a1 Hok1) as (a' & Hrun & Hok' & Hperm). exists a'. split_and!; try done.
  rewrite Hperm, Hperm1. by rewrite Permutation_middle.
Qed.

Lemma pop_all_spec (score : ref -> Q) (fuel : nat) : forall (a : jsarray),
  heap_ok score (items a) -> (length (items a) <= fuel)%nat ->
  exists out, pop_all score fuel a = Ok out /\ out ≡ₚ items a /\
    ascending score out = true.
Proof.
  induction fuel as [| fuel IH]; intros a Hok Hlen.
  - destruct (items a) eqn:E; [| simpl in Hlen; lia]. by exists [].
  - cbn [pop_all]. destruct (decide (items a = [])) as [Hnil | Hne].
    + unfold size, alength. rewrite Hnil. simpl. by exists [].
    + assert (Hpos : (size a >? 0) = true).
      { unfold size, alength. apply Z.gtb_lt. destruct (items a); [done |].
        simpl length. lia. }
      rewrite Hpos.
      destruct (pop_spec score a Hok Hne) as (r & a' & -> & Hok' & Hperm & Hmin & _).
      cbn [res_bind].
      destruct (IH a' Hok') as (out & -> & Hout & Hasc).
      { rewrite Hperm in Hlen. simpl in Hlen. lia. }
      cbn [res_bind]. exists (r :: out). split_and!; [done | by rewrite Hperm, Hout |].
      simpl. rewrite Hasc, andb_true_r. apply forallb_forall. intros y Hy.
      apply Qle_bool_iff, Hmin. rewrite Hperm. apply elem_of_cons. right.
      rewrite <- Hout. by apply list_elem_of_In.
Qed.

(** X3.  Pushing the nodes of any list on a new heap and popping until the
    heap is empty gives the same nodes (repetitions included) in ascending
    order of score. *)
Theorem pushes_then_pops_sort_by_score (score : ref -> Q) (l : list ref) :
  exists a out, push_all score l arr_empty = Ok a /\
    pop_all score (length l) a = Ok out /\
    out ≡ₚ l /\ ascending score out = true.
Proof.
  destruct (push_all_spec score l arr_empty (heap_ok_nil score)) as (a & Hrun & Hok & Hperm).
  simpl in Hperm. rewrite app_nil_r in Hperm.
  destruct (pop_all_spec score (length l) a Hok) as (out & Hout & Hp & Hasc).
  { by rewrite Hperm. }
  exists a, out. split_and!; try done. by rewrite Hp.
Qed.

(** *** [remove], position by position *)

Lemma insert_perm_snoc (l : list ref) (i : nat) (x v : ref) :
  l !! i = Some x -> x :: <[i := v]> l ≡ₚ l ++ [v].
Proof.
  intros Hx. pose proof (lookup_lt_Some _ _ _ Hx) as Hlt.
  rewrite insert_take_drop by done.
  rewrite <- (take_drop_middle l i x Hx) at 3.
  rewrite <- !Permutation_middle. rewrite app_nil_r. apply Permutation_swap.
Qed.

(** [bubbleUp] from a position without children changes nothing. *)
Lemma bubbleUp_leaf (score : ref -> Q) (n : Z) (a : jsarray) (e : ref) :
  0 <= n -> zlookup (items a) n = Some e -> alength a <= 2 * n + 1 ->
  bubbleUp score n a = Ok a.
Proof.
  intros Hn He Hleaf. unfold bubbleUp. rewrite aget_items by lia. rewrite He.
  cbn [bubbleUp_loop]. rewrite shiftl1.
  destruct (Z.ltb_spec (2 * (n + 1) - 1) (alength a)); [lia |]. cbn [res_bind].
  destruct (Z.ltb_spec (2 * (n + 1)) (alength a)); [lia |]. reflexivity.
Qed.

(** [sinkDown] from a position whose parent does not score more changes
    nothing. *)
Lemma sinkDown_settled (score : ref -> Q) (n : Z) (a : jsarray) (e p : ref) :
  0 < n -> zlookup (items a) n = Some e ->
  zlookup (items a) (parent_index n) = Some p -> (score p <= score e)%Q ->
  sinkDown score n a = Ok a.
Proof.
  intros Hn He Hp Hle. unfold sinkDown. rewrite aget_items by lia. rewrite He.
  destruct (Z.to_nat n) as [| fuel] eqn:E; [lia |]. cbn [sinkDown_loop].
  destruct (Z.gtb_spec n 0); [| lia].
  pose proof (parent_index_bounds n Hn). fold (parent_index n).
  rewrite aget_items by lia. rewrite Hp.
  by rewrite (proj2 (Qltb_ge _ _) Hle).
Qed.

Section RemoveCases.
Variable score : ref -> Q.

(** X4.  For a node whose first position in the content is below the last
    two, [remove(node)] on a heap in order deletes one occurrence of the
    node and nothing else, and leaves the heap in order. *)
Theorem remove_below_the_last_two_positions_deletes_the_node (node : ref) (a : jsarray) :
  heap_ok score (items a) ->
  0 <= indexOf a node < alength a - 2 ->
  exists a', remove score node a = Ok a' /\ heap_ok score (items a') /\
    node :: items a' ≡ₚ items a /\ size a' = size a - 1.
Proof.
  destruct a as [l m]. unfold alength. cbn [items]. intros Hok Hi. unfold remove.
  destruct (list_snoc_cases l) as [-> | (l' & v & ->)]; [simpl in Hi; lia |].
  rewrite apop_snoc. rewrite length_app in Hi. simpl in Hi.
  pose proof (heap_ok_app_l _ _ _ Hok) as Hok'.
  set (i := indexOf (mkArr (l' ++ [v]) m) node) in *.
  destruct (Z.eqb_spec i (alength (mkArr l' m) - 1)) as [Hlast | _]; cbn [negb].
  { unfold alength in Hlast. cbn [items] in Hlast. lia. }
  destruct (indexOf_spec (mkArr (l' ++ [v]) m) node) as [[Hneg _] | [_ Hnode]];
    fold i in Hneg || fold i in Hnode; [lia |].
  cbn [items] in Hnode. rewrite zlookup_snoc in Hnode. case_decide; [lia |].
  rewrite aset_in_range by (unfold alength; simpl; lia). cbn [res_bind items minus1].
  assert (Hperm : node :: <[Z.to_nat i := v]> l' ≡ₚ l' ++ [v]).
  { apply insert_perm_snoc. unfold zlookup in Hnode.
    destruct (Z.ltb_spec i 0); [lia | done]. }
  assert (Hsize : forall a', items a' ≡ₚ <[Z.to_nat i := v]> l' ->
            size a' = size (mkArr (l' ++ [v]) m) - 1).
  { intros a' Hp. unfold size, alength. rewrite Hp. cbn [items].
    rewrite length_insert, length_app. simpl. lia. }
  destruct (Qltb (score v) (score node)) eqn:E.
  - apply Qltb_lt in E.
    destruct (sinkDown_spec score i (mkArr (<[Z.to_nat i := v]> l') m) v)
      as (a' & ? & ? & Hp & _).
    + simpl. rewrite zlookup_insert by lia. by case_decide.
    + simpl. eapply sink_inv_replace; eauto. lra.
    + exists a'. split_and!; [done | done | | by apply Hsize]. by rewrite Hp.
  - apply Qltb_ge in E.
    destruct (bubbleUp_spec score i (mkArr (<[Z.to_nat i := v]> l') m) v)
      as (a' & ? & ? & Hp & _).
    + simpl. rewrite zlookup_insert by lia. by case_decide.
    + simpl. eapply bubble_inv_replace; eauto.
    + exists a'. split_and!; [done | done | | by apply Hsize]. by rewrite Hp.
Qed.

(** X5.  At the last two positions [remove] does not remove the node: when
    the first position of the node is the last one (or the heap is empty),
    the heap is left exactly as it was; when it is the last but one, the
    last element is dropped and the node stays.  The same happens to the
    only element of a heap when an absent node is removed. *)
Theorem remove_at_the_last_two_positions_keeps_the_node (node : ref) (a : jsarray) :
  (indexOf a node = alength a - 1 -> remove score node a = Ok a) /\
  (indexOf a node = alength a - 2 ->
   remove score node a = Ok (mkArr (removelast (items a)) (minus1 a))).
Proof.
  destruct a as [l m]. unfold alength. cbn [items minus1].
  destruct (list_snoc_cases l) as [-> | (l' & v & ->)].
  { split; [reflexivity |]. unfold indexOf. simpl. lia. }
  rewrite removelast_last, length_app. simpl length.
  set (i := indexOf (mkArr (l' ++ [v]) m) node).
  split; intros Hi; unfold remove; rewrite apop_snoc; fold i; unfold alength; cbn [items].
  - destruct (Z.eqb_spec i (Z.of_nat (length l') - 1)) as [? | _]; [lia |]. cbn [negb].
    destruct (indexOf_spec (mkArr (l' ++ [v]) m) node) as [[Hneg _] | [_ Hnode]];
      fold i in Hneg || fold i in Hnode; [lia |].
    cbn [items] in Hnode. rewrite zlookup_snoc in Hnode. case_decide; [| lia].
    injection Hnode as Hv. clearbody i. subst v.
    replace i with (alength (mkArr l' m)) by (unfold alength; simpl; lia).
    rewrite aset_at_length. cbn [res_bind items minus1]. rewrite Qltb_irrefl.
    apply (bubbleUp_leaf score _ _ node).
    + unfold alength. simpl. lia.
    + simpl. rewrite zlookup_snoc. unfold alength. simpl. by case_decide.
    + unfold alength. simpl. rewrite length_app. simpl. lia.
  - destruct (Z.eqb_spec i (Z.of_nat (length l') - 1)) as [_ | ?]; [| lia]. reflexivity.
Qed.

(** [bubbleUp(-1)] with the last element [v] parked in property [-1]: the
    array is left alone, or [v] takes the place of a root that scores less. *)
Lemma bubbleUp_minus1_shape (l : list ref) (v : ref) :
  heap_ok score l -> l <> [] ->
  exists a', bubbleUp score (-1) (mkArr l (Some v)) = Ok a' /\ heap_ok score (items a') /\
    (items a' = l \/
     exists r t, l = r :: t /\ (score r < score v)%Q /\ items a' ≡ₚ v :: t).
Proof.
  intros Hok Hne.
  assert (Hlen : 0 < Z.of_nat (length l)) by (destruct l; [done | simpl; lia]).
  destruct (zlookup_in_range l 0 ltac:(lia)) as [r Hr].
  assert (Hm1 : forall a, aget a (-1) = minus1 a) by reflexivity.
  unfold bubbleUp. rewrite Hm1. cbn [minus1]. cbn [bubbleUp_loop].
  change (Z.shiftl (-1 + 1) 1) with 0. change (0 - 1) with (-1).
  rewrite Hm1. cbn [minus1]. unfold alength at 1 2. cbn [items].
  destruct (Z.ltb_spec (-1) (Z.of_nat (length l))); [| lia].
  rewrite Qltb_irrefl. cbn [res_bind].
  destruct (Z.ltb_spec 0 (Z.of_nat (length l))); [| lia].
  rewrite aget_items by lia. cbn [items]. rewrite Hr. cbn [res_bind lt_undef].
  destruct (Qltb (score r) (score v)) eqn:E.
  - rewrite aget_items by lia. cbn [items]. rewrite Hr.
    rewrite aset_minus1. cbn [res_bind items].
    rewrite aset_in_range by (unfold alength; simpl; lia). cbn [res_bind items minus1].
    destruct (bubbleUp_loop_spec score (length l) 0 (alength (mkArr l (Some v)))
                (mkArr (<[Z.to_nat 0 := v]> l) (Some r)) v) as (a' & Hrun & Hok' & Hperm & _).
    + unfold alength. simpl. by rewrite length_insert.
    + lia.
    + simpl. rewrite zlookup_insert by lia. by case_decide.
    + unfold alength. simpl. lia.
    + simpl. by apply bubble_inv_root.
    + exists a'. split_and!; [done | done |]. right.
      destruct l as [| r0 t]; [done |]. unfold zlookup in Hr. simpl in Hr. simplify_eq.
      exists r, t. split_and!; [done | by apply Qltb_lt |]. rewrite Hperm. done.
  - eexists. split_and!; [done | done |]. by left.
Qed.

(** X6.  [remove] of a node that is not in the heap does not leave a
    non-empty heap alone: exactly one element is lost, the last one or the
    root (the last one taking its place); what is left is in order. *)
Theorem remove_of_an_absent_node_loses_an_element (node : ref) (a : jsarray) :
  heap_ok score (items a) -> node ∉ items a -> items a <> [] ->
  exists a' x, remove score node a = Ok a' /\ heap_ok score (items a') /\
    items a ≡ₚ x :: items a' /\
    (Some x = last (items a) \/ Some x = items a !! 0%nat).
Proof.
  destruct a as [l m]. cbn [items]. intros Hok Hout Hne. unfold remove.
  destruct (list_snoc_cases l) as [-> | (l' & v & ->)]; [done |].
  rewrite apop_snoc. rewrite last_snoc.
  pose proof (heap_ok_app_l _ _ _ Hok) as Hok'.
  assert (Hi : indexOf (mkArr (l' ++ [v]) m) node = -1).
  { destruct (indexOf_spec (mkArr (l' ++ [v]) m) node) as [[? _] | [_ Hnode]]; [done |].
    exfalso. apply Hout. by eapply zlookup_elem_of. }
  rewrite Hi. unfold alength. cbn [items].
  destruct (Z.eqb_spec (-1) (Z.of_nat (length l') - 1)) as [Hlen | Hlen]; cbn [negb].
  { exists (mkArr l' m), v. cbn [items]. split_and!; [done | done | | by left].
    by rewrite Permutation_app_comm. }
  rewrite aset_minus1. cbn [res_bind items].
  destruct (Qltb (score v) (score node)).
  - rewrite sinkDown_minus1. exists (mkArr l' (Some v)), v. cbn [items].
    split_and!; [done | done | | by left]. by rewrite Permutation_app_comm.
  - destruct (bubbleUp_minus1_shape l' v Hok') as (a' & Hrun & Hok1 & Hshape).
    { intros ->. simpl in Hlen. lia. }
    destruct Hshape as [Heq | (r & t & -> & _ & Hperm)].
    + exists a', v. rewrite Heq. split_and!; [done | by rewrite <- Heq | | by left].
      by rewrite Permutation_app_comm.
    + exists a', r. split_and!; [done | done | | by right].
      rewrite Hperm. simpl. rewrite (Permutation_app_comm t [v]). done.
Qed.
End RemoveCases.

Lemma remove_below_the_last_two_positions_deletes_the_node_witness :
  let score := fun r : ref => inject_Z (Z.of_nat r) in
  exists a', remove score 2%nat (mkArr [1; 2; 3; 4]%nat None) = Ok a' /\
    heap_ok score (items a') /\
    2%nat :: items a' ≡ₚ [1; 2; 3; 4]%nat /\
    size a' = size (mkArr [1; 2; 3; 4]%nat None) - 1.
Proof.
  intros score.
  apply (remove_below_the_last_two_positions_deletes_the_node score 2%nat
           (mkArr [1; 2; 3; 4]%nat None)); [| vm_compute; split; [discriminate | reflexivity]].
  intros i c p Hi Hc Hp. pose proof (zlookup_Some_bounds _ _ _ Hc) as Hb. simpl in Hb.
  assert (i = 1 \/ i = 2 \/ i = 3) as [-> | [-> | ->]] by lia;
    vm_compute in Hc, Hp; injection Hc as <-; injection Hp as <-; vm_compute; discriminate.
Defined.

Lemma remove_at_the_last_two_positions_keeps_the_node_witness :
  let score := fun r : ref => inject_Z (Z.of_nat r) in
  remove score 4%nat (mkArr [1; 2; 3; 4]%nat None) = Ok (mkArr [1; 2; 3; 4]%nat None) /\
  remove score 3%nat (mkArr [1; 2; 3; 4]%nat None) = Ok (mkArr [1; 2; 3]%nat None).
Proof.
  intros score. split.
  - apply (proj1 (remove_at_the_last_two_positions_keeps_the_node score 4%nat
                    (mkArr [1; 2; 3; 4]%nat None))). reflexivity.
  - apply (proj2 (remove_at_the_last_two_positions_keeps_the_node score 3%nat
                    (mkArr [1; 2; 3; 4]%nat None))). reflexivity.
Defined.

Lemma remove_of_an_absent_node_loses_an_element_witness :
  let score := fun r : ref => inject_Z (Z.of_nat r) in
  exists a' x, remove score 9%nat (mkArr [1; 2; 3]%nat None) = Ok a' /\
    heap_ok score (items a') /\ [1; 2; 3]%nat ≡ₚ x :: items a' /\
    (Some x = last [1; 2; 3]%nat \/ Some x = [1; 2; 3]%nat !! 0%nat).
Proof.
  intros score.
  apply (remove_of_an_absent_node_loses_an_element score 9%nat (mkArr [1; 2; 3]%nat None));
    [| | done].
  - intros i c p Hi Hc Hp. pose proof (zlookup_Some_bounds _ _ _ Hc) as Hb. simpl in Hb.
    assert (i = 1 \/ i = 2) as [-> | ->] by lia;
      vm_compute in Hc, Hp; injection Hc as <-; injection Hp as <-; vm_compute; discriminate.
  - simpl. intros Hin. repeat (apply elem_of_cons in Hin as [Hin | Hin]; [discriminate Hin |]).
    by apply elem_of_nil in Hin.
Defined.

(** *** [rescoreElement] and raised scores *)

(** X7.  [rescoreElement] repairs lowered scores only: after the score of
    a node has been raised (the other scores unchanged) on a heap that was
    in order, it returns the heap exactly as it was, whether or not the
    node is in the heap. *)
Theorem rescoreElement_leaves_a_raised_score_in_place (score0 score : ref -> Q) (node : ref)
    (a : jsarray) :
  heap_ok score0 (items a) ->
  (forall r, r <> node -> score r = score0 r) -> (score0 node <= score node)%Q ->
  rescoreElement score node a = Ok a.
Proof.
  intros Hok Hsame Hup. unfold rescoreElement.
  destruct (indexOf_spec a node) as [[-> _] | [Hb Hnode]]; [reflexivity |].
  destruct (decide (indexOf a node = 0)) as [-> | Hne]; [reflexivity |].
  pose proof (parent_index_bounds (indexOf a node) ltac:(lia)) as Hpb.
  destruct (zlookup_in_range (items a) (parent_index (indexOf a node))) as [p Hp];
    [unfold alength in Hb; lia |].
  apply (sinkDown_settled score _ _ node p); [lia | done | done |].
  assert (score0 p <= score0 node)%Q
    by (apply (Hok (indexOf a node)); [lia | done | done]).
  destruct (decide (p = node)) as [-> | Hpn]; [lra |].
  rewrite (Hsame p Hpn). lra.
Qed.

Lemma rescoreElement_leaves_a_raised_score_in_place_witness :
  let score0 := fun r : ref => inject_Z (Z.of_nat r) in
  let score := set_score score0 1%nat 10 in
  rescoreElement score 1%nat (mkArr [1; 2; 3]%nat None) = Ok (mkArr [1; 2; 3]%nat None).
Proof.
  intros score0 score.
  apply (rescoreElement_leaves_a_raised_score_in_place score0 score 1%nat
           (mkArr [1; 2; 3]%nat None)).
  - intros i c p Hi Hc Hp. pose proof (zlookup_Some_bounds _ _ _ Hc) as Hb. simpl in Hb.
    assert (i = 1 \/ i = 2) as [-> | ->] by lia;
      vm_compute in Hc, Hp; injection Hc as <-; injection Hp as <-; vm_compute; discriminate.
  - intros r Hr. unfold score, set_score. by rewrite decide_False.
  - vm_compute. discriminate.
Defined.

(** ** More on the graph *)

(** *** The constructor *)

Lemma build_row_cells (i : Z) (row : list Q) : forall (j : Z) (ns : list Node.GridNode),
  exists added,
    snd (build_row i j row ns) = ns ++ added /\
    fst (build_row i j row ns) = seq (length ns) (length row) /\
    length added = length row /\
    map Node.w added = row /\
    forall (k : nat) (wt : Q), row !! k = Some wt ->
      added !! k = Some (Node.mk i (j + Z.of_nat k) wt 0 0 0 false false None).
Proof.
  induction row as [| wt row IH]; intros j ns.
  - exists []. simpl. rewrite app_nil_r. done.
  - simpl. destruct (IH (j + 1) (ns ++ [Node.mk i j wt 0 0 0 false false None]))
      as (added & Hsnd & Hfst & Hlen & Hw & Hcells).
    destruct (build_row i (j + 1) row _) as [refs ns'] eqn:Hrow. simpl in *.
    exists (Node.mk i j wt 0 0 0 false false None :: added).
    split_and!.
    + by rewrite Hsnd, <- app_assoc.
    + rewrite Hfst, length_app. simpl. by rewrite Nat.add_1_r.
    + simpl. by rewrite Hlen.
    + simpl. by rewrite Hw.
    + intros [| k] w0 Hk; simpl in Hk.
      * injection Hk as <-. simpl. by rewrite Z.add_0_r.
      * simpl. rewrite (Hcells k w0 Hk). do 2 f_equal. lia.
Qed.

Lemma build_grid_cells (gridIn : list (list Q)) : forall (i : Z) (ns : list Node.GridNode),
  exists added,
    snd (build_grid i gridIn ns) = ns ++ added /\
    map Node.w added = concat gridIn /\
    length (fst (build_grid i gridIn ns)) = length gridIn /\
    (forall (a : nat) (row : list Q), gridIn !! a = Some row ->
       exists refs, fst (build_grid i gridIn ns) !! a = Some refs /\
         length refs = length row /\
         forall (k : nat) (wt : Q), row !! k = Some wt ->
           exists r, refs !! k = Some r /\
             (ns ++ added) !! r =
               Some (Node.mk (i + Z.of_nat a) (Z.of_nat k) wt 0 0 0 false false None)) /\
    (forall (r : nat) (n : Node.GridNode), added !! r = Some n ->
       exists (a k : nat) refs, fst (build_grid i gridIn ns) !! a = Some refs /\
         refs !! k = Some (length ns + r)%nat /\
         Node.x n = i + Z.of_nat a /\ Node.y n = Z.of_nat k).
Proof.
  induction gridIn as [| row rest IH]; intros i ns.
  - exists []. simpl. rewrite app_nil_r. split_and!; done.
  - simpl. destruct (build_row_cells i row 0 ns) as (add1 & Hs1 & Hf1 & Hl1 & Hw1 & Hc1).
    destruct (build_row i 0 row ns) as [refs ns1] eqn:Hrow. simpl in Hs1, Hf1. subst ns1 refs.
    destruct (IH (i + 1) (ns ++ add1)) as (add2 & Hs2 & Hw2 & Hl2 & Hc2 & Hb2).
    destruct (build_grid (i + 1) rest (ns ++ add1)) as [rows ns2] eqn:Hrest.
    simpl in Hs2, Hl2, Hc2, Hb2. subst ns2. simpl.
    exists (add1 ++ add2). split_and!.
    + by rewrite app_assoc.
    + by rewrite map_app, Hw1, Hw2.
    + by rewrite Hl2.
    + intros [| a] row' Ha; simpl in Ha.
      * injection Ha as <-. exists (seq (length ns) (length row)).
        split_and!; [done | by rewrite length_seq |].
        intros k wt Hk. exists (length ns + k)%nat. split.
        -- apply lookup_seq. split; [done |]. by eapply lookup_lt_Some.
        -- rewrite lookup_app_r by lia.
           replace (length ns + k - length ns)%nat with k by lia.
           rewrite lookup_app_l by (rewrite Hl1; by eapply lookup_lt_Some).
           rewrite (Hc1 k wt Hk). do 2 f_equal; lia.
      * destruct (Hc2 a row' Ha) as (refs & Hrefs & Hlen & Hcells).
        exists refs. split_and!; [done | done |].
        intros k wt Hk. destruct (Hcells k wt Hk) as (r & Hr & Hn).
        exists r. split; [done |]. rewrite app_assoc, Hn. do 2 f_equal. lia.
    + intros r n Hr.
      destruct (decide (r < length add1)%nat) as [Hlt | Hge].
      * rewrite lookup_app_l in Hr by done.
        destruct (lookup_lt_is_Some_2 row r ltac:(lia)) as [wt Hwt].
        rewrite (Hc1 r wt Hwt) in Hr. injection Hr as <-.
        exists 0%nat, r, (seq (length ns) (length row)). split_and!; simpl; [done | | lia | lia].
        apply lookup_seq. split; [done | lia].
      * rewrite lookup_app_r in Hr by lia.
        destruct (Hb2 _ n Hr) as (a & k & refs & Hrefs & Hk & Hx & Hy).
        exists (S a), k, refs. split_and!; simpl; [done | | lia | done].
        rewrite Hk. f_equal. rewrite length_app. lia.
Qed.

(** X9.  [new Graph(gridIn, diagonal)], for every input (rows of any
    lengths): the cell of weight [w] at row [i], column [j] of [gridIn] is
    indexed by [grid[i][j]] as a node with x = i, y = j, weight [w] and the
    transient fields at baseline; nothing else is indexed; every node of
    [nodes] is indexed at its own coordinates; [nodes] holds the cells in
    row-major order; the dirty list is empty. *)
Theorem Graph_constructor_indexes_every_cell (gridIn : list (list Q)) (diag : bool) :
  let gr := Graph_new gridIn diag in
  diagonal gr = diag /\ dirtyNodes gr = [] /\
  map Node.w (nodes gr) = concat gridIn /\
  (forall (i j : nat) (row : list Q) (wt : Q),
     gridIn !! i = Some row -> row !! j = Some wt ->
     exists r, node_at gr (Z.of_nat i) (Z.of_nat j) = Some r /\
       nodes gr !! r =
         Some (Node.mk (Z.of_nat i) (Z.of_nat j) wt 0 0 0 false false None)) /\
  (forall (i j : Z) (r : ref), node_at gr i j = Some r ->
     0 <= i /\ 0 <= j /\
     exists row wt, gridIn !! Z.to_nat i = Some row /\ row !! Z.to_nat j = Some wt) /\
  (forall (r : ref) (n : Node.GridNode), nodes gr !! r = Some n ->
     node_at gr (Node.x n) (Node.y n) = Some r).
Proof.
  intros gr. unfold gr, Graph_new.
  destruct (build_grid_cells gridIn 0 []) as (added & Hs & Hw & Hlen & Hcells & Hback).
  destruct (build_grid 0 gridIn []) as [rows ns] eqn:Hb. simpl in Hs, Hlen, Hcells, Hback.
  subst ns.
  destruct (init_spec (mkGraph added rows diag [])) as (Hg & Hdg & Hd & Hn).
  cbn [grid diagonal nodes] in Hg, Hdg, Hn.
  assert (Hclean : forall r n, added !! r = Some n -> clean n = n).
  { intros r n Hr. destruct (Hback r n Hr) as (a & k & refs & Hrefs & Hk & _).
    assert (Hrow : is_Some (gridIn !! a)).
    { apply lookup_lt_is_Some. rewrite <- Hlen. by eapply lookup_lt_Some. }
    destruct Hrow as [row Hrow].
    destruct (Hcells a row Hrow) as (refs' & Hrefs' & Hl & Hc).
    assert (refs' = refs) by congruence. subst refs'.
    destruct (lookup_lt_is_Some_2 row k) as [wt Hwt].
    { rewrite <- Hl. by eapply lookup_lt_Some. }
    destruct (Hc k wt Hwt) as (r' & Hr' & Hn').
    assert (r' = r) by (simpl in Hk; congruence). subst r'.
    rewrite Hr in Hn'. injection Hn' as ->. reflexivity. }
  assert (Hnodes : nodes (init (mkGraph added rows diag [])) = added).
  { apply list_eq. intros r. rewrite Hn. destruct (added !! r) as [n |] eqn:Hr; [| done].
    simpl. f_equal. by apply (Hclean r). }
  split_and!; try done.
  - by rewrite Hnodes.
  - intros i j row wt Hrow Hwt.
    destruct (Hcells i row Hrow) as (refs & Hrefs & Hl & Hc).
    destruct (Hc j wt Hwt) as (r & Hr & Hnr). exists r. split.
    + unfold node_at. rewrite Hg. by apply (grid_lookup_zlookup rows i j refs).
    + rewrite Hnodes. rewrite Hnr. do 2 f_equal.
  - intros i j r Hr. unfold node_at, grid_at in Hr. rewrite Hg in Hr.
    destruct (zlookup rows i) as [refs |] eqn:Hrefs; [| done].
    pose proof (zlookup_Some_bounds _ _ _ Hrefs) as Hbi.
    pose proof (zlookup_Some_bounds _ _ _ Hr) as Hbj.
    split_and!; [lia | lia |].
    destruct (lookup_lt_is_Some_2 gridIn (Z.to_nat i) ltac:(lia)) as [row Hrow].
    destruct (Hcells _ row Hrow) as (refs' & Hrefs' & Hl & _).
    unfold zlookup in Hrefs. destruct (Z.ltb_spec i 0); [lia |].
    assert (refs' = refs) by congruence. subst refs'.
    destruct (lookup_lt_is_Some_2 row (Z.to_nat j) ltac:(lia)) as [wt Hwt]. eauto.
  - intros r n Hr. rewrite Hnodes in Hr.
    destruct (Hback r n Hr) as (a & k & refs & Hrefs & Hk & -> & ->).
    unfold node_at. rewrite Hg. by apply (grid_lookup_zlookup rows a k refs).
Qed.

(** *** [init] and [cleanDirty] *)

(** X10.  [init()] resets every node of the graph, marked dirty or not:
    afterwards each node has its transient fields at baseline and its
    position and weight unchanged, the dirty list is empty, and the index
    and the movement mode are as before. *)
Theorem init_resets_every_node (gr : Graph) :
  nodes (init gr) = map clean (nodes gr) /\
  dirtyNodes (init gr) = [] /\ grid (init gr) = grid gr /\
  diagonal (init gr) = diagonal gr /\
  (forall r n, nodes gr !! r = Some n ->
     exists n', nodes (init gr) !! r = Some n' /\ baseline n' /\
       Node.x n' = Node.x n /\ Node.y n' = Node.y n /\ Node.w n' = Node.w n).
Proof.
  destruct (init_spec gr) as (Hg & Hdg & Hd & Hn).
  split_and!; try done.
  - apply list_eq. intros r. by rewrite Hn, list_lookup_fmap.
  - intros r n Hr. exists (clean n). rewrite Hn, Hr. split_and!; try done.
Qed.

(** X11.  [cleanDirty()] touches the nodes of the dirty list only: a node
    that is not in the list keeps all its fields, whatever they are, so a
    node changed without [markDirty] is not reset.  A second [cleanDirty()]
    in a row changes nothing. *)
Theorem cleanDirty_leaves_unmarked_nodes_alone (gr : Graph) :
  (forall r, r ∉ dirtyNodes gr -> nodes (cleanDirty gr) !! r = nodes gr !! r) /\
  grid (cleanDirty gr) = grid gr /\ diagonal (cleanDirty gr) = diagonal gr /\
  length (nodes (cleanDirty gr)) = length (nodes gr) /\
  cleanDirty (cleanDirty gr) = cleanDirty gr.
Proof.
  destruct (cleanDirty_spec gr) as (Hg & Hdg & Hd & Hn).
  split_and!; [| exact Hg | exact Hdg | apply cleanDirty_length |].
  - intros r Hr. by rewrite Hn, decide_False.
  - unfold cleanDirty at 1. rewrite Hd. simpl.
    unfold cleanDirty. by destruct (foldl _ gr (dirtyNodes gr)).
Qed.

(** *** [neighbors] on a well-formed graph *)

Lemma neighbors_elem_offset (gr : Graph) (node : Node.GridNode) (v : ref) :
  v ∈ neighbors gr node <->
  exists d, d ∈ neighbor_offsets (diagonal gr) /\
    node_at gr (Node.x node + fst d) (Node.y node + snd d) = Some v.
Proof.
  rewrite neighbors_spec_eq. unfold neighbors_spec. rewrite list_elem_of_omap. done.
Qed.

Lemma neighbor_offsets_cases (b : bool) (d : Z * Z) :
  d ∈ neighbor_offsets b ->
  (-1 <= fst d <= 1) /\ (-1 <= snd d <= 1) /\ (fst d <> 0 \/ snd d <> 0) /\
  (b = false -> Z.abs (fst d) + Z.abs (snd d) = 1) /\
  (- fst d, - snd d) ∈ neighbor_offsets b.
Proof.
  intros Hd.
  assert (Hcases : (d ∈ [(-1, 0); (1, 0); (0, -1); (0, 1)]) \/
                   (b = true /\ d ∈ [(-1, -1); (1, -1); (-1, 1); (1, 1)])).
  { unfold neighbor_offsets in Hd. apply elem_of_app in Hd as [Hd | Hd]; [by left |].
    destruct b; [by right | by apply elem_of_nil in Hd]. }
  unfold neighbor_offsets.
  destruct Hcases as [Hd' | [-> Hd']];
    rewrite !elem_of_cons, elem_of_nil in Hd'; destruct_or!; try done; subst d; simpl;
    (split_and!; try lia; try done);
    rewrite ?elem_of_app, !elem_of_cons; tauto.
Qed.

Lemma NoDup_omap_inj {A B} (f : A -> option B) (l : list A) :
  NoDup l ->
  (forall a b c, a ∈ l -> b ∈ l -> f a = Some c -> f b = Some c -> a = b) ->
  NoDup (omap f l).
Proof.
  induction 1 as [| a l Ha Hnd IH]; intros Hinj; simpl; [constructor |].
  assert (IH' : NoDup (omap f l)).
  { apply IH. intros x y c Hx Hy. apply Hinj; by apply elem_of_cons; right. }
  destruct (f a) as [c |] eqn:Hfa; [| done].
  constructor; [| done]. intros Hin. apply list_elem_of_omap in Hin as (b & Hb & Hfb).
  assert (a = b); [| by subst].
  apply (Hinj a b c); [by apply elem_of_cons; left | by apply elem_of_cons; right | done | done].
Qed.

Lemma length_omap_le {A B} (f : A -> option B) (l : list A) :
  (length (omap f l) <= length l)%nat.
Proof.
  induction l as [| a l IH]; [simpl; lia |].
  csimpl. destruct (f a); csimpl; simpl length; lia.
Qed.

Lemma neighbor_offsets_NoDup (b : bool) : NoDup (neighbor_offsets b).
Proof.
  destruct b; unfold neighbor_offsets; simpl;
    repeat (apply NoDup_cons; split;
            [intros Hin; repeat (apply elem_of_cons in Hin as [Hin | Hin]; [discriminate Hin |]);
             by apply elem_of_nil in Hin |]);
    apply NoDup_nil_2.
Qed.

(** X12.  On a well-formed graph the neighbours of a node are pairwise
    distinct nodes, at most four (eight with diagonal movement), each at an
    adjacent position: both coordinates differ by at most one and not both
    are equal; without diagonal movement exactly one of them differs. *)
Theorem neighbors_are_distinct_adjacent_nodes (gr : Graph) (node : Node.GridNode) :
  graph_wfb gr = true ->
  NoDup (neighbors gr node) /\
  (length (neighbors gr node) <= (if diagonal gr then 8 else 4))%nat /\
  forall v, v ∈ neighbors gr node ->
    exists nv, nodes gr !! v = Some nv /\
      Z.abs (Node.x nv - Node.x node) <= 1 /\ Z.abs (Node.y nv - Node.y node) <= 1 /\
      (Node.x nv <> Node.x node \/ Node.y nv <> Node.y node) /\
      (diagonal gr = false ->
       Z.abs (Node.x nv - Node.x node) + Z.abs (Node.y nv - Node.y node) = 1).
Proof.
  intros Hwf. split_and!.
  - rewrite neighbors_spec_eq. unfold neighbors_spec.
    apply NoDup_omap_inj; [apply neighbor_offsets_NoDup |].
    intros [ax ay] [bx by_] c _ _ Ha Hb. simpl in Ha, Hb.
    destruct (graph_wfb_grid gr _ _ c Hwf Ha) as (n1 & Hn1 & Hx1 & Hy1).
    destruct (graph_wfb_grid gr _ _ c Hwf Hb) as (n2 & Hn2 & Hx2 & Hy2).
    assert (n2 = n1) by congruence. subst n2. f_equal; lia.
  - rewrite neighbors_spec_eq. unfold neighbors_spec.
    etrans; [apply length_omap_le |]. unfold neighbor_offsets.
    destruct (diagonal gr); simpl; lia.
  - intros v Hv. apply neighbors_elem_offset in Hv as (d & Hd & Hat).
    destruct (graph_wfb_grid gr _ _ v Hwf Hat) as (nv & Hnv & Hx & Hy).
    destruct (neighbor_offsets_cases _ d Hd) as (Hdx & Hdy & Hnz & Hman & _).
    exists nv. split_and!; [done | lia | lia | lia |].
    intros Hdiag. specialize (Hman Hdiag). lia.
Qed.

Lemma neighbors_are_distinct_adjacent_nodes_witness :
  let gr := Graph_new [[1; 1]; [1; 1]]%Q true in
  let node := Node.mk 0 0 1 0 0 0 false false None in
  NoDup (neighbors gr node) /\
  (length (neighbors gr node) <= (if diagonal gr then 8 else 4))%nat /\
  forall v, v ∈ neighbors gr node ->
    exists nv, nodes gr !! v = Some nv /\
      Z.abs (Node.x nv - Node.x node) <= 1 /\ Z.abs (Node.y nv - Node.y node) <= 1 /\
      (Node.x nv <> Node.x node \/ Node.y nv <> Node.y node) /\
      (diagonal gr = false ->
       Z.abs (Node.x nv - Node.x node) + Z.abs (Node.y nv - Node.y node) = 1).
Proof.
  intros gr node. apply (neighbors_are_distinct_adjacent_nodes gr node). reflexivity.
Defined.

(** X13.  On a well-formed graph being a neighbour is mutual: if [v] is
    among the neighbours of a node [u] that the index holds at its own
    coordinates, then [u] is among the neighbours of [v]. *)
Theorem neighbors_are_mutual (gr : Graph) (u v : ref) (nu nv : Node.GridNode) :
  graph_wfb gr = true ->
  nodes gr !! u = Some nu -> nodes gr !! v = Some nv ->
  node_at gr (Node.x nu) (Node.y nu) = Some u ->
  v ∈ neighbors gr nu -> u ∈ neighbors gr nv.
Proof.
  intros Hwf Hu Hv Hat Hin.
  apply neighbors_elem_offset in Hin as (d & Hd & Hvat).
  destruct (graph_wfb_grid gr _ _ v Hwf Hvat) as (nv' & Hnv' & Hx & Hy).
  assert (nv' = nv) by congruence. subst nv'.
  destruct (neighbor_offsets_cases _ d Hd) as (_ & _ & _ & _ & Hneg).
  apply neighbors_elem_offset. exists (- fst d, - snd d). split; [done |]. simpl.
  replace (Node.x nv + - fst d) with (Node.x nu) by lia.
  replace (Node.y nv + - snd d) with (Node.y nu) by lia. done.
Qed.

Lemma neighbors_are_mutual_witness :
  let gr := Graph_new [[1; 1]; [1; 1]]%Q true in
  3%nat ∈ neighbors gr (Node.mk 1 0 1 0 0 0 false false None).
Proof.
  intros gr.
  apply (neighbors_are_mutual gr 3%nat 2%nat (Node.mk 1 1 1 0 0 0 false false None)
           (Node.mk 1 0 1 0 0 0 false false None)); try reflexivity.
  vm_compute. apply elem_of_cons. right. apply elem_of_cons. by left.
Defined.

(** ** More on the search *)

(** *** The heuristics *)


(** A move on a well-formed graph: where the target lies and what it costs. *)
Lemma step_ok_offset (gr : Graph) (u v : ref) :
  graph_wfb gr = true -> step_ok gr u v = true ->
  exists nu nv d, nodes gr !! u = Some nu /\ nodes gr !! v = Some nv /\
    isNodeWall nv = false /\ d ∈ neighbor_offsets (diagonal gr) /\
    Node.x nv = Node.x nu + fst d /\ Node.y nv = Node.y nu + snd d.
Proof.
  intros Hwf Hstep. unfold step_ok in Hstep.
  destruct (nodes gr !! u) as [nu |] eqn:Hu; [| done].
  destruct (nodes gr !! v) as [nv |] eqn:Hv; [| done].
  apply andb_true_iff in Hstep as [Hin Hwall].
  apply bool_decide_eq_true in Hin. apply negb_true_iff in Hwall.
  apply neighbors_elem_offset in Hin as (d & Hd & Hat).
  destruct (graph_wfb_grid gr _ _ v Hwf Hat) as (nv' & Hnv' & Hx & Hy).
  assert (nv' = nv) by congruence. subst nv'.
  exists nu, nv, d. split_and!; done.
Qed.

(** On a grid without diagonal movement whose passable cells weigh at least
    1, the Manhattan distance is a consistent heuristic. *)
Lemma manhattan_consistent (gr : Graph) (end_ : ref) :
  graph_wfb gr = true -> diagonal gr = false -> weights_at_least_oneb gr = true ->
  consistentb gr manhattan end_ = true.
Proof.
  intros Hwf Hdiag Hw. unfold consistentb, monotoneb.
  apply forallb_forall. intros u _. apply forallb_forall. intros v _.
  destruct (step_ok gr u v) eqn:Hstep; [| done]. simpl. apply Qle_bool_iff.
  destruct (step_ok_offset gr u v Hwf Hstep) as (nu & nv & d & Hu & Hv & Hwall & Hd & Hx & Hy).
  destruct (neighbor_offsets_cases _ d Hd) as (_ & _ & _ & Hman & _).
  specialize (Hman Hdiag).
  assert (Hone : (1 <= Node.w nv)%Q).
  { unfold weights_at_least_oneb in Hw. rewrite forallb_forall in Hw.
    assert (Hin : In nv (nodes gr)) by (apply list_elem_of_In; by eapply list_elem_of_lookup_2).
    specialize (Hw nv Hin). rewrite Hwall in Hw. simpl in Hw. by apply Qle_bool_iff. }
  assert (Hcost : step_cost gr u v = Node.w nv).
  { unfold step_cost. rewrite Hv, Hu. unfold getNodeCost.
    destruct (Z.eqb_spec (Node.x nu) (Node.x nv)); [done |].
    destruct (Z.eqb_spec (Node.y nu) (Node.y nv)); [done |]. lia. }
  rewrite Hcost. unfold h_of. rewrite Hu, Hv.
  destruct (nodes gr !! end_) as [ne |]; [| lra].
  unfold manhattan, pos_of. simpl.
  set (a := Z.abs (Node.x ne - Node.x nu) + Z.abs (Node.y ne - Node.y nu)).
  set (b := Z.abs (Node.x ne - Node.x nv) + Z.abs (Node.y ne - Node.y nv)).
  assert (Hz : a <= 1 + b) by lia. clearbody a b.
  rewrite Zle_Qle in Hz. rewrite inject_Z_plus in Hz.
  change (inject_Z 1) with 1%Q in Hz. lra.
Qed.

(** X16.  [heuristics.diagonal] is not admissible for the diagonal step
    cost of [getNodeCost]: with any value of [Math.sqrt(2)] above 1.41421
    (the nearest double is one), the heuristic from a node to a passable
    diagonal neighbour of weight 1 exceeds the cost of the move onto it. *)
Theorem diagonal_heuristic_exceeds_the_diagonal_step_cost (gr : Graph) (D2 : Q)
    (u v : ref) (nu nv : Node.GridNode) :
  graph_wfb gr = true ->
  nodes gr !! u = Some nu -> nodes gr !! v = Some nv ->
  step_ok gr u v = true ->
  Node.x nu <> Node.x nv -> Node.y nu <> Node.y nv ->
  (Node.w nv == 1)%Q -> (diag_factor < D2)%Q ->
  (step_cost gr u v < h_of gr (diagonal_heuristic D2) v u)%Q /\
  ~ admissible gr (diagonal_heuristic D2) v /\
  (diag_factor < sqrt2_double)%Q.
Proof.
  intros Hwf Hu Hv Hstep Hx Hy Hw HD.
  destruct (step_ok_offset gr u v Hwf Hstep) as (nu' & nv' & d & Hu' & Hv' & _ & Hd & Hdx & Hdy).
  assert (nu' = nu) by congruence. assert (nv' = nv) by congruence. subst nu' nv'.
  destruct (neighbor_offsets_cases _ d Hd) as (Hbx & Hby & _ & _ & _).
  assert (Hcost : (step_cost gr u v == diag_factor)%Q).
  { unfold step_cost. rewrite Hv, Hu. unfold getNodeCost.
    destruct (Z.eqb_spec (Node.x nu) (Node.x nv)); [done |].
    destruct (Z.eqb_spec (Node.y nu) (Node.y nv)); [done |]. simpl. rewrite Hw. ring. }
  assert (Hh : (h_of gr (diagonal_heuristic D2) v u == D2)%Q).
  { unfold h_of. rewrite Hu, Hv. unfold diagonal_heuristic, pos_of. simpl.
    replace (Z.abs (Node.x nv - Node.x nu)) with 1 by lia.
    replace (Z.abs (Node.y nv - Node.y nu)) with 1 by lia.
    change (Z.min 1 1) with 1. change (inject_Z (1 + 1)) with 2%Q.
    change (inject_Z 1) with 1%Q. ring. }
  assert (Hlt : (step_cost gr u v < h_of gr (diagonal_heuristic D2) v u)%Q).
  { rewrite Hcost, Hh. done. }
  split_and!; [done | | reflexivity].
  intros Hadm. specialize (Hadm u [v]).
  assert (Hle : (h_of gr (diagonal_heuristic D2) v u <= path_cost gr u [v])%Q).
  { apply Hadm; [by eapply lookup_lt_Some | simpl; by rewrite Hstep | reflexivity]. }
  simpl in Hle. lra.
Qed.

Lemma diagonal_heuristic_exceeds_the_diagonal_step_cost_witness :
  let gr := Graph_new [[1; 1]; [1; 1]]%Q true in
  (step_cost gr 0%nat 3%nat < h_of gr (diagonal_heuristic sqrt2_double) 3%nat 0%nat)%Q /\
  ~ admissible gr (diagonal_heuristic sqrt2_double) 3%nat /\
  (diag_factor < sqrt2_double)%Q.
Proof.
  intros gr.
  apply (diagonal_heuristic_exceeds_the_diagonal_step_cost gr sqrt2_double 0%nat 3%nat
           (Node.mk 0 0 1 0 0 0 false false None) (Node.mk 1 1 1 0 0 0 false false None));
    try reflexivity; simpl; lia.
Defined.

(** *** What a search reaches *)

Section Reach.
Variable gr : Graph.
Variables start end_ : ref.
Variable closest : bool.
Variable heuristic : option heuristic_fn.

Let heur : heuristic_fn := heuristic_or_default heuristic.

Hypothesis gr_wf : graph_wfb gr = true.
Hypothesis start_valid : (start < length (nodes gr))%nat.
Hypothesis end_valid : (end_ < length (nodes gr))%nat.

Lemma reach_enter (st st1 : state) (cur : ref) :
  closed_reached gr start (fun _ _ => True) st ->
  pop_shape st cur st1 ->
  closed_reached gr start (fun u v => u <> cur \/ v ∈ @nil ref) st1.
Proof.
  intros Hreach (hp & _ & _ & _ & ->) u v nu. cbn [st_graph].
  rewrite !nodes_update_node. destruct (decide (cur = u)) as [<- | Hu].
  { intros _ _ _ [? | Hnil]; [done | by apply elem_of_nil in Hnil]. }
  intros Hnu Huc Hstep _. destruct (Hreach u v nu Hnu Huc Hstep I) as (nv & Hnv & Hvo).
  destruct (decide (cur = v)) as [<- | Hv].
  - rewrite Hnv. exists (Node.set_closed true nv). done.
  - exists nv. done.
Qed.

Lemma reach_visit (cur nb : ref) (cn0 : Node.GridNode) (seen : list ref) (st st' : state) :
  nodes gr !! cur = Some cn0 ->
  inner gr start end_ heur cur st ->
  closed_reached gr start (fun u v => u <> cur \/ v ∈ seen) st ->
  visit_shape gr end_ heur closest cur nb st st' ->
  closed_reached gr start (fun u v => u <> cur \/ v ∈ seen ++ [nb]) st'.
Proof.
  intros Hcn0 Hinner Hreach Hshape.
  pose proof Hinner as (Hcore & _ & (cn & Hcn & Hcnc)).
  unfold node_of in *.
  destruct Hshape as [-> Hwhy | n cn' n' cl Hn Hcn' Hnc Hnw Hwhy Hn' Hnodes _ _ _ _ _].
  - intros u v nu Hnu Huc Hstep [Hu | Hv]; [by apply (Hreach u v nu); try left |].
    apply elem_of_app in Hv as [Hv | Hv]; [by apply (Hreach u v nu); try right |].
    apply list_elem_of_singleton in Hv. subst v.
    destruct (decide (u = cur)) as [-> | Hu]; [| by apply (Hreach u nb nu); try left].
    destruct (step_ok_valid gr cur nb Hstep) as [_ Hnbv].
    destruct (lookup_lt_is_Some_2 _ _ Hnbv) as [n0 Hn0].
    destruct (proj2 (static_lookup gr (st_graph st) nb (core_static _ _ _ _ _ Hcore))
                (ex_intro _ n0 Hn0)) as [n Hn].
    exists n. split; [done |].
    destruct (Hwhy n cn) as [Hc | [Hw | [Hv _]]]; [done | done | | | by left].
    + by apply (core_closed _ _ _ _ _ Hcore nb n).
    + exfalso. unfold step_ok in Hstep. rewrite Hcn0, Hn0 in Hstep.
      apply andb_true_iff in Hstep as [_ Hstep]. apply negb_true_iff in Hstep.
      destruct (core_static _ _ _ _ _ Hcore) as (_ & _ & _ & Hst).
      destruct (Hst nb n Hn) as (n0' & Hn0' & _ & _ & Hw0).
      assert (n0' = n0) by congruence. subst n0'.
      unfold isNodeWall in *. rewrite Hw0 in Hw. congruence.
  - unfold node_of in *.
    assert (Hlook : forall r, nodes (st_graph st') !! r =
              if decide (r = nb) then Some n' else nodes (st_graph st) !! r).
    { intros r. rewrite Hnodes, list_lookup_insert.
      pose proof (lookup_lt_Some _ _ _ Hn).
      destruct (decide (r = nb)) as [-> | Hne].
      - rewrite decide_True; done.
      - rewrite decide_False; [done | intros [? _]; congruence]. }
    assert (Hc' : Node.closed n' = false) by (by rewrite Hn').
    assert (Hv' : Node.visited n' = true) by (by rewrite Hn').
    intros u v nu. rewrite Hlook. case_decide as Hu; [intros [= <-]; congruence |].
    intros Hnu Huc Hstep HP. rewrite Hlook. case_decide as Hv.
    + exists n'. split; [done | by left].
    + apply (Hreach u v nu Hnu Huc Hstep). destruct HP as [? | Hin]; [by left |].
      apply elem_of_app in Hin as [? | Hin]; [by right |].
      apply list_elem_of_singleton in Hin. done.
Qed.

(** The heuristic value recorded in an opened node. *)
Lemma opened_h (st : state) (r : ref) (n : Node.GridNode) :
  core gr start end_ heur st -> node_of st r = Some n -> opened start r n ->
  Node.h n = h_of gr heur end_ r.
Proof.
  intros Hcore Hn Hopen. destruct (Node.visited n) eqn:Hv.
  - by destruct (core_visited _ _ _ _ _ Hcore r n Hn Hv) as (_ & _ & _ & _ & _ & _ & _ & ? & _).
  - destruct Hopen as [? | ->]; [congruence |].
    destruct (core_start _ _ _ _ _ Hcore) as (ns & Hns & _ & _ & _ & Hh).
    assert (ns = n) by congruence. by subst ns.
Qed.

Lemma least_visit (cur nb : ref) (st st' : state) :
  closest = true ->
  inner gr start end_ heur cur st -> inner gr start end_ heur cur st' ->
  closest_least gr start end_ heur st ->
  visit_shape gr end_ heur closest cur nb st st' ->
  closest_least gr start end_ heur st'.
Proof.
  intros Hcl Hinner Hinner' Hleast Hshape.
  destruct Hinner as (Hcore & _). destruct Hinner' as (Hcore' & _).
  destruct Hshape as [-> _ | n cn n' cl Hn Hcn Hnc Hnw Hwhy Hn' Hnodes _ _ Hcln Hclosest _];
    [done |].
  unfold node_of in *. rewrite Hcl in Hclosest. cbn [andb] in Hclosest.
  assert (Hlook : forall r, nodes (st_graph st') !! r =
            if decide (r = nb) then Some n' else nodes (st_graph st) !! r).
  { intros r. rewrite Hnodes, list_lookup_insert.
    pose proof (lookup_lt_Some _ _ _ Hn).
    destruct (decide (r = nb)) as [-> | Hne].
    - rewrite decide_True; done.
    - rewrite decide_False; [done | intros [? _]; congruence]. }
  assert (Hhn : Node.h n' = h_of gr heur end_ nb) by (by rewrite Hn').
  assert (Hhc : Node.h cl = h_of gr heur end_ (st_closest st)).
  { rewrite Hlook in Hcln. case_decide as Hc.
    - injection Hcln as <-. by rewrite Hc.
    - destruct (core_closest _ _ _ _ _ Hcore) as (c & Hc1 & Hc2). unfold node_of in Hc1.
      assert (c = cl) by congruence. subst c.
      by apply (opened_h st (st_closest st) cl). }
  assert (Hold : forall r n0, r <> nb -> nodes (st_graph st') !! r = Some n0 ->
            (Node.visited n0 = true \/ r = start) ->
            (h_of gr heur end_ (st_closest st) <= h_of gr heur end_ r)%Q).
  { intros r n0 Hr Hn0 Hop. rewrite Hlook, decide_False in Hn0 by done.
    by apply (Hleast r n0). }
  rewrite Hhn, Hhc in Hclosest.
  intros r n0 Hn0 Hop. rewrite Hclosest.
  destruct (Qltb (h_of gr heur end_ nb) (h_of gr heur end_ (st_closest st))) eqn:Hlt;
    cbn [orb].
  - apply Qltb_lt in Hlt. destruct (decide (r = nb)) as [-> | Hr]; [lra |].
    pose proof (Hold r n0 Hr Hn0 Hop). lra.
  - apply Qltb_ge in Hlt.
    destruct (Qeq_bool (h_of gr heur end_ nb) (h_of gr heur end_ (st_closest st))
              && Qltb (Node.g n') (Node.g cl)) eqn:Heq.
    + apply andb_true_iff in Heq as [Heq _]. apply Qeq_bool_iff in Heq.
      destruct (decide (r = nb)) as [-> | Hr]; [lra |].
      pose proof (Hold r n0 Hr Hn0 Hop). lra.
    + destruct (decide (r = nb)) as [-> | Hr]; [done |].
      by apply (Hold r n0 Hr Hn0 Hop).
Qed.

(** [search] returns from a state in which every move out of a closed
    node leads to an opened node and, in closest mode, the closest node
    has the least heuristic value among the opened nodes. *)
Lemma search_reach :
  exists path st, search gr start end_ closest heuristic = Ok (path, st) /\
    exists stl, core gr start end_ heur stl /\
      closed_reached gr start (fun _ _ => True) stl /\
      (closest = true -> closest_least gr start end_ heur stl) /\
      final_shape end_ closest stl path st.
Proof.
  destruct (search_run gr start end_ closest heuristic gr_wf start_valid end_valid
              (fun st => closed_reached gr start (fun _ _ => True) st /\
                         (closest = true -> closest_least gr start end_ heur st))
              (fun cur seen st =>
                 closed_reached gr start (fun u v => u <> cur \/ v ∈ seen) st /\
                 (closest = true -> closest_least gr start end_ heur st)))
    as (path & st & Hrun & stl & Hcore & [Hreach Hleast] & Hfinal).
  - intros st0 _ _ _ Hcl Hfresh _ _. split.
    + intros u v nu Hu Huc. destruct (Hfresh u nu Hu). congruence.
    + intros _ r n Hn [Hv | ->]; [destruct (Hfresh r n Hn); congruence |].
      rewrite Hcl. lra.
  - intros st0 cur st1 _ [Hreach0 Hleast0] Hshape _ _. split.
    + by apply (reach_enter st0 st1 cur).
    + intros Hcl. specialize (Hleast0 Hcl). destruct Hshape as (hp & _ & _ & _ & ->).
      intros r n. cbn [st_graph st_closest]. rewrite nodes_update_node.
      destruct (decide (cur = r)) as [<- | Hr]; [| by apply Hleast0].
      destruct (nodes (st_graph st0) !! cur) as [n0 |] eqn:Hn0; [| done].
      intros [= <-] Hop. by apply (Hleast0 cur n0).
  - intros cur cn0 seen nb rest st0 st' Hcn0 _ Hinner [Hreach0 Hleast0] Hshape Hinner'. split.
    + by apply (reach_visit cur nb cn0 seen st0 st').
    + intros Hcl. apply (least_visit cur nb st0 st'); auto.
  - intros cur cn0 st0 Hcn0 Hinner [Hreach0 Hleast0]. split; [| done].
    intros u v nu Hu Huc Hstep _. apply (Hreach0 u v nu Hu Huc Hstep).
    destruct (decide (u = cur)) as [-> | ?]; [right | by left].
    unfold step_ok in Hstep. rewrite Hcn0 in Hstep.
    destruct (nodes gr !! v); [| done].
    apply andb_true_iff in Hstep as [Hin _]. by apply bool_decide_eq_true in Hin.
  - exists path, st. split; [done |]. exists stl. done.
Qed.

(** With an empty heap every node that can be reached has been closed. *)
Lemma exhausted_reached (st : state) (q : list ref) : forall (u : ref) (nu : Node.GridNode),
  core gr start end_ heur st -> closed_reached gr start (fun _ _ => True) st ->
  items (st_heap st) = [] ->
  nodes (st_graph st) !! u = Some nu -> Node.closed nu = true ->
  valid_path gr u q = true ->
  exists ne, nodes (st_graph st) !! path_end u q = Some ne /\ Node.closed ne = true.
Proof.
  induction q as [| v q IH]; intros u nu Hcore Hrel Hnil Hu Huc Hvalid.
  - unfold path_end. simpl. eauto.
  - simpl in Hvalid. apply andb_true_iff in Hvalid as [Hstep Hvalid].
    rewrite path_end_cons.
    destruct (Hrel u v nu Hu Huc Hstep I) as (nv & Hv & Hvo).
    destruct (Node.closed nv) eqn:Hvc; [by apply (IH v nv) |].
    exfalso. assert (Hin : v ∈ items (st_heap st)).
    { apply (core_heap _ _ _ _ _ Hcore). exists nv. done. }
    rewrite Hnil in Hin. by apply elem_of_nil in Hin.
Qed.
End Reach.

(** Following the parent links from an opened node passes no node twice
    and does not collect the start node. *)
Lemma pathTo_loop_simple (gr : Graph) (start end_ : ref) (heur : heuristic_fn)
    (st : state) (depth : ref -> nat) :
  core gr start end_ heur st ->
  (forall r n p, node_of st r = Some n -> Node.parent n = Some p ->
     (depth p < depth r)%nat) ->
  forall (fuel : nat) (r : ref) (n : Node.GridNode) (acc : list ref),
  node_of st r = Some n -> opened start r n -> (depth r <= fuel)%nat ->
  exists path, pathTo_loop fuel (st_graph st) r acc = Ok (path ++ acc) /\
    NoDup path /\ (start ∉ path) /\ (forall x, x ∈ path -> (depth x <= depth r)%nat).
Proof.
  intros Hcore Hdepth.
  pose proof Hcore as [_ _ _ Hclosed Hstart _ _ Hvis _ _ _ _].
  induction fuel as [| fuel IH]; intros r n acc Hn Hopen Hfuel; unfold node_of in *.
  - cbn [pathTo_loop]. unfold get_node. rewrite Hn. cbn [res_bind].
    destruct (Node.parent n) as [p |] eqn:Hp.
    { pose proof (Hdepth r n p Hn Hp). lia. }
    exists []. split_and!; [done | constructor | apply not_elem_of_nil |].
    intros x Hx. by apply elem_of_nil in Hx.
  - cbn [pathTo_loop]. unfold get_node. rewrite Hn. cbn [res_bind].
    destruct (Node.parent n) as [p |] eqn:Hp.
    + destruct (Node.visited n) eqn:Hv.
      2:{ destruct Hopen as [? | ->]; [congruence |].
          destruct Hstart as (ns & Hns & _ & Hpar & _). unfold node_of in Hns. congruence. }
      destruct (Hvis r n Hn Hv) as (p' & np & Hp' & Hnp & Hnpc & _).
      assert (p' = p) by congruence. subst p'.
      pose proof (Hdepth r n p Hn Hp) as Hlt.
      destruct (IH p np (r :: acc) Hnp (Hclosed p np Hnp Hnpc) ltac:(lia))
        as (path & Hrun & Hnd & Hns & Hle).
      exists (path ++ [r]). rewrite <- app_assoc. split_and!; [done | | |].
      * apply NoDup_app. split_and!; [done | | apply NoDup_singleton].
        intros x Hx Hxr. apply list_elem_of_singleton in Hxr. subst x.
        pose proof (Hle r Hx). lia.
      * intros Hin. apply elem_of_app in Hin as [Hin | Hin]; [done |].
        apply list_elem_of_singleton in Hin. subst r.
        destruct Hstart as (ns & Hns' & _ & Hpar & _). unfold node_of in Hns'. congruence.
      * intros x Hx. apply elem_of_app in Hx as [Hx | Hx].
        -- pose proof (Hle x Hx). lia.
        -- apply list_elem_of_singleton in Hx. by subst x.
    + exists []. split_and!; [done | constructor | apply not_elem_of_nil |].
      intros x Hx. by apply elem_of_nil in Hx.
Qed.

Lemma pathTo_simple (gr : Graph) (start end_ : ref) (heur : heuristic_fn)
    (st : state) (r : ref) (n : Node.GridNode) (path : list ref) :
  core gr start end_ heur st -> node_of st r = Some n -> opened start r n ->
  pathTo (st_graph st) r = Ok path -> NoDup path /\ start ∉ path.
Proof.
  intros Hcore Hn Hopen Hrun.
  destruct (core_depth _ _ _ _ _ Hcore) as (depth & Hd1 & Hd2 & _).
  destruct (pathTo_loop_simple gr start end_ heur st depth Hcore Hd1
              (length (nodes (st_graph st))) r n [] Hn Hopen)
    as (path' & Hrun' & Hnd & Hns & _).
  { pose proof (Hd2 r n Hn Hopen). pose proof (closed_count_le (nodes (st_graph st))). lia. }
  unfold pathTo in Hrun. rewrite Hrun', app_nil_r in Hrun. injection Hrun as <-. done.
Qed.

(** The nodes of a path are passable nodes of the graph. *)
Lemma valid_path_nodes (gr : Graph) (path : list ref) : forall (u : ref),
  valid_path gr u path = true ->
  forall v, v ∈ path -> exists nv, nodes gr !! v = Some nv /\ isNodeWall nv = false.
Proof.
  induction path as [| r path IH]; intros u Hvalid v Hv; [by apply elem_of_nil in Hv |].
  simpl in Hvalid. apply andb_true_iff in Hvalid as [Hstep Hvalid].
  apply elem_of_cons in Hv as [-> | Hv]; [| by apply (IH r)].
  unfold step_ok in Hstep. destruct (nodes gr !! u); [| done].
  destruct (nodes gr !! r) as [nr |]; [| done].
  apply andb_true_iff in Hstep as [_ Hw]. apply negb_true_iff in Hw. eauto.
Qed.

(** X17.  For every heuristic, if the goal can be reached from the start
    node on a well-formed graph, [search] returns a path from the start
    node to the goal, and the [g] left in the goal node is the cost of
    that path. *)
Theorem search_reaches_a_goal_that_can_be_reached (gr : Graph) (start end_ : ref)
    (closest : bool) (heuristic : option heuristic_fn) (q : list ref) :
  graph_wfb gr = true ->
  (start < length (nodes gr))%nat -> (end_ < length (nodes gr))%nat ->
  valid_path gr start q = true -> path_end start q = end_ ->
  exists path st ne, search gr start end_ closest heuristic = Ok (path, st) /\
    valid_path gr start path = true /\ path_end start path = end_ /\
    nodes (st_graph st) !! end_ = Some ne /\
    (Node.g ne == path_cost gr start path)%Q.
Proof.
  intros Hwf Hs He Hq Hqe.
  destruct (search_reach gr start end_ closest heuristic Hwf Hs He)
    as (path & st & Hrun & stl & Hcore & Hreach & _ & Hfinal).
  destruct Hfinal as [(hp & Hpop & Hmin & Hin & Hpath & ->) | (Hnil & _ & _)].
  - destruct (proj1 (core_heap _ _ _ _ _ Hcore end_) Hin) as (ne & Hne & _ & Hopen).
    destruct (pathTo_run gr start end_ _ stl end_ ne Hcore Hne Hopen)
      as (path' & Hpath' & Hvalid & Hend & Hcost).
    assert (path' = path) by congruence. subst path'.
    eexists path, _, ne. split_and!; done.
  - exfalso.
    destruct (core_start_heap _ _ _ _ _ Hcore) as [(ns & Hns & Hnsc) | Hone];
      [| rewrite Hnil in Hone; discriminate Hone].
    destruct (exhausted_reached gr start end_ heuristic stl q start ns Hcore Hreach Hnil
                Hns Hnsc Hq) as (ne & Hne & Hnec).
    rewrite Hqe in Hne.
    pose proof (core_end _ _ _ _ _ Hcore ne Hne). congruence.
Qed.

Lemma search_reaches_a_goal_that_can_be_reached_witness :
  let gr := Graph_new [[1; 3; 1]; [1; 1; 1]; [0; 2; 5 # 2]]%Q false in
  exists path st ne, search gr 0%nat 8%nat false (Some (fun _ _ => 7%Q)) = Ok (path, st) /\
    valid_path gr 0%nat path = true /\ path_end 0%nat path = 8%nat /\
    nodes (st_graph st) !! 8%nat = Some ne /\
    (Node.g ne == path_cost gr 0%nat path)%Q.
Proof.
  intros gr.
  apply (search_reaches_a_goal_that_can_be_reached gr 0%nat 8%nat false
           (Some (fun _ _ => 7%Q)) [3; 4; 5; 8]%nat); try reflexivity; simpl; lia.
Defined.

(** No path leads out of a set of nodes that no move leads out of. *)
Lemma closed_under_moves_unreachable (gr : Graph) (S : list ref) (start end_ : ref) :
  closed_under_movesb gr S = true -> start ∈ S -> end_ ∉ S ->
  unreachable gr start end_.
Proof.
  intros Hclosed Hs He path. revert start Hs.
  induction path as [| v path IH]; intros start Hs Hvalid Hend.
  - unfold path_end in Hend. simpl in Hend. by subst.
  - simpl in Hvalid. apply andb_true_iff in Hvalid as [Hstep Hvalid].
    rewrite path_end_cons in Hend. apply (IH v); [| done | done].
    unfold closed_under_movesb in Hclosed. rewrite forallb_forall in Hclosed.
    specialize (Hclosed start ltac:(by apply list_elem_of_In)).
    rewrite forallb_forall in Hclosed.
    destruct (step_ok_valid gr start v Hstep) as [_ Hv].
    specialize (Hclosed v ltac:(apply in_seq; lia)).
    rewrite Hstep in Hclosed. simpl in Hclosed. by apply bool_decide_eq_true in Hclosed.
Qed.

(** A wall other than the start node cannot be reached. *)
Lemma wall_unreachable (gr : Graph) (start end_ : ref) (ne : Node.GridNode) :
  nodes gr !! end_ = Some ne -> isNodeWall ne = true -> start <> end_ ->
  unreachable gr start end_.
Proof.
  intros Hne Hw Hse path Hvalid Hend.
  destruct (list_snoc_cases path) as [-> | (p & v & ->)]; [done |].
  rewrite path_end_snoc in Hend. subst v.
  destruct (valid_path_nodes gr _ start Hvalid end_) as (ne' & Hne' & Hw').
  { apply elem_of_app. right. by apply list_elem_of_singleton. }
  congruence.
Qed.

(** X18.  For every heuristic, if the goal cannot be reached from the
    start node on a well-formed graph, [search] without the closest mode
    returns the empty path.  That is the case for every goal that is a
    wall and is not the start node. *)
Theorem search_returns_no_path_to_a_goal_out_of_reach (gr : Graph) (start end_ : ref)
    (heuristic : option heuristic_fn) :
  graph_wfb gr = true ->
  (start < length (nodes gr))%nat -> (end_ < length (nodes gr))%nat ->
  (unreachable gr start end_ ->
   exists st, search gr start end_ false heuristic = Ok ([], st)) /\
  (forall ne, nodes gr !! end_ = Some ne -> isNodeWall ne = true -> start <> end_ ->
   exists st, search gr start end_ false heuristic = Ok ([], st)).
Proof.
  intros Hwf Hs He.
  assert (Hmain : unreachable gr start end_ ->
            exists st, search gr start end_ false heuristic = Ok ([], st)).
  { intros Hun.
    destruct (search_reach gr start end_ false heuristic Hwf Hs He)
      as (path & st & Hrun & stl & Hcore & _ & _ & Hfinal).
    destruct Hfinal as [(hp & _ & _ & Hin & _) | (_ & _ & ->)]; [| eauto].
    exfalso. apply (core_heap _ _ _ _ _ Hcore) in Hin as (ne & Hne & _ & Hopen).
    destruct (pathTo_run gr start end_ _ stl end_ ne Hcore Hne Hopen)
      as (q & _ & Hvalid & Hend & _).
    by apply (Hun q). }
  split; [done |]. intros ne Hne Hw Hse. apply Hmain. by apply (wall_unreachable gr start end_ ne).
Qed.

Lemma search_returns_no_path_to_a_goal_out_of_reach_witness :
  let gr := Graph_new [[1; 0]; [0; 1]]%Q false in
  exists st, search gr 0%nat 1%nat false None = Ok ([], st).
Proof.
  intros gr.
  apply (proj2 (search_returns_no_path_to_a_goal_out_of_reach gr 0%nat 1%nat None
                  eq_refl ltac:(simpl; lia) ltac:(simpl; lia))
           (Node.mk 0 1 0 0 0 0 false false None)); [reflexivity | reflexivity | lia].
Defined.

(** X19.  In closest mode, when the goal cannot be reached, [search]
    returns a path from the start node to the closest node, and that node
    has the least heuristic value among the nodes that can be reached
    from the start node (the start node included). *)
Theorem closest_search_ends_at_a_reachable_node_of_least_heuristic (gr : Graph)
    (start end_ : ref) (heuristic : option heuristic_fn) :
  graph_wfb gr = true ->
  (start < length (nodes gr))%nat -> (end_ < length (nodes gr))%nat ->
  unreachable gr start end_ ->
  let h := h_of gr (heuristic_or_default heuristic) end_ in
  exists path st, search gr start end_ true heuristic = Ok (path, st) /\
    valid_path gr start path = true /\ path_end start path = st_closest st /\
    forall q, valid_path gr start q = true ->
      (h (st_closest st) <= h (path_end start q))%Q.
Proof.
  intros Hwf Hs He Hun h.
  destruct (search_reach gr start end_ true heuristic Hwf Hs He)
    as (path & st & Hrun & stl & Hcore & Hreach & Hleast & Hfinal).
  specialize (Hleast eq_refl).
  destruct Hfinal as [(hp & _ & _ & Hin & _) | (Hnil & -> & Hpath)].
  { exfalso. apply (core_heap _ _ _ _ _ Hcore) in Hin as (ne & Hne & _ & Hopen).
    destruct (pathTo_run gr start end_ _ stl end_ ne Hcore Hne Hopen)
      as (q & _ & Hvalid & Hend & _).
    by apply (Hun q). }
  destruct (core_closest _ _ _ _ _ Hcore) as (c & Hc & Hcopen).
  destruct (pathTo_run gr start end_ _ stl (st_closest stl) c Hcore Hc Hcopen)
    as (path' & Hpath' & Hvalid & Hend & _).
  assert (path' = path) by congruence. subst path'.
  exists path, stl. split_and!; try done.
  intros q Hq.
  destruct (core_start_heap _ _ _ _ _ Hcore) as [(ns & Hns & Hnsc) | Hone];
    [| rewrite Hnil in Hone; discriminate Hone].
  destruct (exhausted_reached gr start end_ heuristic stl q start ns Hcore Hreach Hnil
              Hns Hnsc Hq) as (nv & Hnv & Hnvc).
  apply (Hleast _ nv Hnv). by apply (core_closed _ _ _ _ _ Hcore _ nv).
Qed.

Lemma closest_search_ends_at_a_reachable_node_of_least_heuristic_witness :
  let gr := Graph_new [[1; 1; 0; 1]]%Q false in
  exists path st, search gr 0%nat 3%nat true None = Ok (path, st) /\
    valid_path gr 0%nat path = true /\ path_end 0%nat path = st_closest st /\
    forall q, valid_path gr 0%nat q = true ->
      (h_of gr manhattan 3%nat (st_closest st) <= h_of gr manhattan 3%nat (path_end 0%nat q))%Q.
Proof.
  intros gr.
  apply (closest_search_ends_at_a_reachable_node_of_least_heuristic gr 0%nat 3%nat None);
    [reflexivity | simpl; lia | simpl; lia |].
  apply (closed_under_moves_unreachable gr [0; 1]%nat); [reflexivity | |].
  - apply elem_of_cons. by left.
  - intros Hin. repeat (apply elem_of_cons in Hin as [Hin | Hin]; [discriminate Hin |]).
    by apply elem_of_nil in Hin.
Defined.

(** X20.  Whatever the heuristic and the mode, the path [search] returns
    on a well-formed graph is a walk from the start node along moves of
    the graph: each node is a neighbour of the one before it (the first of
    the start node) and is not a wall; no node occurs twice, and the start
    node is not part of it, so the path is shorter than the number of
    nodes. *)
Theorem search_returns_a_simple_path (gr : Graph) (start end_ : ref) (closest : bool)
    (heuristic : option heuristic_fn) :
  graph_wfb gr = true ->
  (start < length (nodes gr))%nat -> (end_ < length (nodes gr))%nat ->
  exists path st, search gr start end_ closest heuristic = Ok (path, st) /\
    valid_path gr start path = true /\ NoDup path /\ (start ∉ path) /\
    (forall v, v ∈ path ->
       exists nv, nodes gr !! v = Some nv /\ isNodeWall nv = false) /\
    (length path < length (nodes gr))%nat.
Proof.
  intros Hwf Hs He.
  destruct (search_reach gr start end_ closest heuristic Hwf Hs He)
    as (path & st & Hrun & stl & Hcore & _ & _ & Hfinal).
  exists path, st. split; [done |].
  assert (Hshape : valid_path gr start path = true /\ NoDup path /\ start ∉ path).
  { assert (Hopened : forall r n, node_of stl r = Some n -> opened start r n ->
              pathTo (st_graph stl) r = Ok path ->
              valid_path gr start path = true /\ NoDup path /\ start ∉ path).
    { intros r n Hn Hopen Hpath.
      destruct (pathTo_run gr start end_ _ stl r n Hcore Hn Hopen)
        as (path' & Hpath' & Hvalid & _).
      assert (path' = path) by congruence. subst path'.
      destruct (pathTo_simple gr start end_ _ stl r n path Hcore Hn Hopen Hpath). done. }
    destruct Hfinal as [(hp & _ & _ & Hin & Hpath & _) | (_ & _ & Hpath)].
    - destruct (proj1 (core_heap _ _ _ _ _ Hcore end_) Hin) as (ne & Hne & _ & Hopen).
      by apply (Hopened end_ ne).
    - destruct closest.
      + destruct (core_closest _ _ _ _ _ Hcore) as (c & Hc & Hcopen).
        by apply (Hopened (st_closest stl) c).
      + subst path. split_and!; [done | constructor | apply not_elem_of_nil]. }
  destruct Hshape as (Hvalid & Hnd & Hns). split_and!; try done.
  - by apply (valid_path_nodes gr path start).
  - assert (Hsub : start :: path ⊆+ seq 0 (length (nodes gr))).
    { apply NoDup_submseteq; [by apply NoDup_cons |].
      intros x Hx. apply elem_of_seq. split; [lia |]. simpl.
      apply elem_of_cons in Hx as [-> | Hx]; [done |].
      destruct (valid_path_nodes gr path start Hvalid x Hx) as (nx & Hnx & _).
      by eapply lookup_lt_Some. }
    apply submseteq_length in Hsub. rewrite length_seq in Hsub. simpl in Hsub. lia.
Qed.

Lemma search_returns_a_simple_path_witness :
  let gr := Graph_new [[1; 3; 1]; [1; 1; 1]; [0; 2; 5 # 2]]%Q true in
  exists path st, search gr 0%nat 8%nat true None = Ok (path, st) /\
    valid_path gr 0%nat path = true /\ NoDup path /\ (0%nat ∉ path) /\
    (forall v, v ∈ path ->
       exists nv, nodes gr !! v = Some nv /\ isNodeWall nv = false) /\
    (length path < length (nodes gr))%nat.
Proof.
  intros gr.
  apply (search_returns_a_simple_path gr 0%nat 8%nat true None);
    [reflexivity | simpl; lia | simpl; lia].
Defined.

(** *** Searching the same graph again *)

Lemma clean_static_eq (n n0 : Node.GridNode) :
  Node.x n = Node.x n0 -> Node.y n = Node.y n0 -> Node.w n = Node.w n0 ->
  clean n = clean n0.
Proof. destruct n, n0. simpl. by intros -> -> ->. Qed.

Lemma cleanDirty_static_eq (gr gr' : Graph) :
  graph_wfb gr = true -> graph_wfb gr' = true -> same_static gr gr' ->
  cleanDirty gr' = cleanDirty gr.
Proof.
  intros Hwf Hwf' (Hg & Hd & Hlen & Hst).
  destruct (cleanDirty_spec gr) as (Hg1 & Hd1 & Hdn1 & Hn1).
  destruct (cleanDirty_spec gr') as (Hg2 & Hd2 & Hdn2 & Hn2).
  assert (Hnodes : nodes (cleanDirty gr') = nodes (cleanDirty gr)).
  { apply list_eq. intros r.
    destruct (nodes gr' !! r) as [n |] eqn:Hn.
    - destruct (Hst r n Hn) as (n0 & Hn0 & Hx & Hy & Hw).
      assert (H1 : nodes (cleanDirty gr) !! r = Some (clean n0)).
      { rewrite Hn1, Hn0. case_decide; [done |]. f_equal.
        by apply (graph_wfb_clean gr r n0). }
      assert (H2 : nodes (cleanDirty gr') !! r = Some (clean n)).
      { rewrite Hn2, Hn. case_decide; [done |]. f_equal.
        by apply (graph_wfb_clean gr' r n). }
      rewrite H1, H2. f_equal. by apply clean_static_eq.
    - assert (Hge : (length (nodes gr') <= r)%nat) by (by apply lookup_ge_None).
      rewrite !lookup_ge_None_2; [done | |]; rewrite cleanDirty_length; lia. }
  destruct (cleanDirty gr) as [ns1 g1 d1 dn1], (cleanDirty gr') as [ns2 g2 d2 dn2].
  simpl in *. congruence.
Qed.

(** X21.  A search leaves the graph ready for the next one: position and
    weight of every node, index and movement mode are unchanged, every
    node the search wrote to is in the dirty list, and the next search,
    whatever its arguments, gives what it would give on the graph the
    first search was called on. *)
Theorem search_leaves_the_graph_ready_for_the_next_search (gr : Graph) (start end_ : ref)
    (closest : bool) (heuristic : option heuristic_fn) :
  graph_wfb gr = true ->
  (start < length (nodes gr))%nat -> (end_ < length (nodes gr))%nat ->
  exists path st, search gr start end_ closest heuristic = Ok (path, st) /\
    grid (st_graph st) = grid gr /\ diagonal (st_graph st) = diagonal gr /\
    (forall r n, nodes (st_graph st) !! r = Some n ->
       exists n0, nodes gr !! r = Some n0 /\
         Node.x n = Node.x n0 /\ Node.y n = Node.y n0 /\ Node.w n = Node.w n0) /\
    (forall r n, nodes (st_graph st) !! r = Some n -> r ∉ dirtyNodes (st_graph st) ->
       baseline n) /\
    cleanDirty (st_graph st) = cleanDirty gr /\
    (forall start' end' closest' heuristic',
       search (st_graph st) start' end' closest' heuristic' =
       search gr start' end' closest' heuristic').
Proof.
  intros Hwf Hs He.
  destruct (search_keeps_graph_well_formed gr start end_ closest heuristic Hwf Hs He)
    as (path & st & Hrun & Hwf' & Hstatic).
  pose proof (cleanDirty_static_eq gr (st_graph st) Hwf Hwf' Hstatic) as Heq.
  exists path, st. destruct Hstatic as (Hg & Hd & Hlen & Hst).
  split_and!; try done.
  - intros r n Hn Hnd. apply baseline_clean. by apply (graph_wfb_clean (st_graph st) r n).
  - intros start' end' closest' heuristic'. unfold search. by rewrite Heq.
Qed.

Lemma search_leaves_the_graph_ready_for_the_next_search_witness :
  let gr := Graph_new [[1; 3; 1]; [1; 1; 1]; [0; 2; 5 # 2]]%Q true in
  exists path st, search gr 0%nat 8%nat false None = Ok (path, st) /\
    grid (st_graph st) = grid gr /\ diagonal (st_graph st) = diagonal gr /\
    (forall r n, nodes (st_graph st) !! r = Some n ->
       exists n0, nodes gr !! r = Some n0 /\
         Node.x n = Node.x n0 /\ Node.y n = Node.y n0 /\ Node.w n = Node.w n0) /\
    (forall r n, nodes (st_graph st) !! r = Some n -> r ∉ dirtyNodes (st_graph st) ->
       baseline n) /\
    cleanDirty (st_graph st) = cleanDirty gr /\
    (forall start' end' closest' heuristic',
       search (st_graph st) start' end' closest' heuristic' =
       search gr start' end' closest' heuristic').
Proof.
  intros gr.
  apply (search_leaves_the_graph_ready_for_the_next_search gr 0%nat 8%nat false None);
    [reflexivity | simpl; lia | simpl; lia].
Defined.

(** *** Expansions *)

Section Expansions.
Variable gr : Graph.
Variables start end_ : ref.
Variable closest : bool.
Variable heuristic : option heuristic_fn.

Let heur : heuristic_fn := heuristic_or_default heuristic.

Lemma popped_enter (st st1 : state) (cur : ref) :
  core gr start end_ heur st -> popped_closed st -> pop_shape st cur st1 ->
  popped_closed st1.
Proof.
  intros Hcore [Hnd Hcl] (hp & _ & Hperm & _ & ->).
  assert (Hin : cur ∈ items (st_heap st)) by (rewrite Hperm; apply elem_of_cons; by left).
  destruct (proj1 (core_heap _ _ _ _ _ Hcore cur) Hin) as (n & Hn & Hnc & _).
  unfold popped_closed, node_of in *. cbn [st_trace st_graph popped omap list_omap].
  fold (popped (st_trace st)). split.
  - apply NoDup_cons. split; [| done]. intros Hp.
    destruct (Hcl cur Hp) as (n' & Hn' & Hc'). congruence.
  - intros r Hr. rewrite nodes_update_node.
    destruct (decide (cur = r)) as [<- | Hne].
    + rewrite Hn. simpl. eauto.
    + apply elem_of_cons in Hr as [-> | Hr]; [done | by apply Hcl].
Qed.

Lemma popped_visit (cur nb : ref) (st st' : state) :
  popped_closed st -> visit_shape gr end_ heur closest cur nb st st' ->
  popped_closed st'.
Proof.
  intros [Hnd Hcl] Hshape.
  destruct Hshape as [-> _ | n cn n' cl Hn _ Hnc _ _ _ Hnodes _ _ _ _ Htr]; [done |].
  unfold popped_closed, node_of in *. rewrite Htr.
  assert (Hp : popped (EvHeap (if Node.visited n then CallRescore nb else CallPush nb)
                 (items (st_heap st)) (items (st_heap st'))
               :: EvRelax nb (Node.visited n) n' :: st_trace st) = popped (st_trace st)).
  { unfold popped. by destruct (Node.visited n). }
  rewrite Hp. split; [done |].
  intros r Hr. destruct (Hcl r Hr) as (nr & Hnr & Hrc).
  exists nr. split; [| done]. rewrite Hnodes.
  rewrite list_lookup_insert_ne; [done |]. intros ->. congruence.
Qed.

Hypothesis gr_wf : graph_wfb gr = true.
Hypothesis start_valid : (start < length (nodes gr))%nat.
Hypothesis end_valid : (end_ < length (nodes gr))%nat.

Lemma search_popped :
  exists path st, search gr start end_ closest heuristic = Ok (path, st) /\
    NoDup (popped (st_trace st)) /\
    (forall r, r ∈ popped (st_trace st) -> (r < length (nodes gr))%nat).
Proof.
  destruct (search_run gr start end_ closest heuristic gr_wf start_valid end_valid
              popped_closed (fun _ _ st => popped_closed st))
    as (path & st & Hrun & stl & Hcore & [Hnd Hcl] & Hfinal).
  - intros st0 _ Htr _ _ _ _ _. unfold popped_closed. rewrite Htr. simpl.
    split; [constructor |]. intros r Hr. by apply elem_of_nil in Hr.
  - intros st0 cur st1 Hcore0 HJ Hshape _ _. by apply (popped_enter st0 st1 cur).
  - intros cur cn0 seen nb rest st0 st' _ _ _ HJ Hshape _. by apply (popped_visit cur nb st0 st').
  - done.
  - exists path, st. split; [done |].
    assert (Hvalid : forall r n, node_of stl r = Some n -> (r < length (nodes gr))%nat).
    { intros r n Hn. destruct (core_static _ _ _ _ _ Hcore) as (_ & _ & <- & _).
      by eapply lookup_lt_Some. }
    destruct Hfinal as [(hp & _ & _ & Hin & _ & ->) | (_ & -> & _)].
    + destruct (proj1 (core_heap _ _ _ _ _ Hcore end_) Hin) as (ne & Hne & Hnec & _).
      cbn [st_trace popped omap list_omap]. fold (popped (st_trace stl)). split.
      * apply NoDup_cons. split; [| done]. intros Hp.
        destruct (Hcl end_ Hp) as (n' & Hn' & Hc'). congruence.
      * intros r Hr. apply elem_of_cons in Hr as [-> | Hr]; [done |].
        destruct (Hcl r Hr) as (n & Hn & _). by apply (Hvalid r n).
    + split; [done |]. intros r Hr. destruct (Hcl r Hr) as (n & Hn & _). by apply (Hvalid r n).
Qed.
End Expansions.

(** X22.  During a search on a well-formed graph no node is popped twice:
    the nodes returned by the [pop] calls are pairwise distinct, so the
    body of the [while] loop runs at most once for each node of the
    graph. *)
Theorem each_node_is_popped_at_most_once (gr : Graph) (start end_ : ref) (closest : bool)
    (heuristic : option heuristic_fn) :
  graph_wfb gr = true ->
  (start < length (nodes gr))%nat -> (end_ < length (nodes gr))%nat ->
  exists path st, search gr start end_ closest heuristic = Ok (path, st) /\
    NoDup (popped (st_trace st)) /\
    (length (popped (st_trace st)) <= length (nodes gr))%nat.
Proof.
  intros Hwf Hs He.
  destruct (search_popped gr start end_ closest heuristic Hwf Hs He)
    as (path & st & Hrun & Hnd & Hvalid).
  exists path, st. split_and!; [done | done |].
  assert (Hsub : popped (st_trace st) ⊆+ seq 0 (length (nodes gr))).
  { apply NoDup_submseteq; [done |]. intros x Hx. apply elem_of_seq.
    split; [lia |]. simpl. by apply Hvalid. }
  apply submseteq_length in Hsub. by rewrite length_seq in Hsub.
Qed.

Lemma each_node_is_popped_at_most_once_witness :
  let gr := Graph_new [[1; 3; 1]; [1; 1; 1]; [0; 2; 5 # 2]]%Q true in
  exists path st, search gr 0%nat 8%nat false None = Ok (path, st) /\
    NoDup (popped (st_trace st)) /\
    (length (popped (st_trace st)) <= length (nodes gr))%nat.
Proof.
  intros gr.
  apply (each_node_is_popped_at_most_once gr 0%nat 8%nat false None);
    [reflexivity | simpl; lia | simpl; lia].
Defined.

(** X23.  After a search on a well-formed graph, every node it has
    visited carries f = g + h, with h the heuristic value of the node, and
    [pathTo] of that node returns a path from the start node to it whose
    cost is its [g]. *)
Theorem parent_links_of_a_visited_node_give_a_path_of_cost_g (gr : Graph) (start end_ : ref)
    (closest : bool) (heuristic : option heuristic_fn) :
  graph_wfb gr = true ->
  (start < length (nodes gr))%nat -> (end_ < length (nodes gr))%nat ->
  exists path st, search gr start end_ closest heuristic = Ok (path, st) /\
    forall r n, nodes (st_graph st) !! r = Some n -> Node.visited n = true ->
      Node.f n = (Node.g n + Node.h n)%Q /\
      Node.h n = h_of gr (heuristic_or_default heuristic) end_ r /\
      exists p, pathTo (st_graph st) r = Ok p /\
        valid_path gr start p = true /\ path_end start p = r /\
        (path_cost gr start p == Node.g n)%Q.
Proof.
  intros Hwf Hs He.
  destruct (search_reach gr start end_ closest heuristic Hwf Hs He)
    as (path & st & Hrun & stl & Hcore & _ & _ & Hfinal).
  exists path, st. split; [done |].
  assert (Hgr : st_graph st = st_graph stl).
  { destruct Hfinal as [(hp & _ & _ & _ & _ & ->) | (_ & -> & _)]; done. }
  rewrite Hgr. intros r n Hn Hv.
  destruct (core_visited _ _ _ _ _ Hcore r n Hn Hv) as (_ & _ & _ & _ & _ & _ & _ & Hh & Hf).
  split_and!; [done | done |].
  apply (pathTo_run gr start end_ _ stl r n Hcore Hn). by left.
Qed.

Lemma parent_links_of_a_visited_node_give_a_path_of_cost_g_witness :
  let gr := Graph_new [[1; 3; 1]; [1; 1; 1]; [0; 2; 5 # 2]]%Q true in
  exists path st, search gr 0%nat 8%nat false None = Ok (path, st) /\
    forall r n, nodes (st_graph st) !! r = Some n -> Node.visited n = true ->
      Node.f n = (Node.g n + Node.h n)%Q /\
      Node.h n = h_of gr manhattan 8%nat r /\
      exists p, pathTo (st_graph st) r = Ok p /\
        valid_path gr 0%nat p = true /\ path_end 0%nat p = r /\
        (path_cost gr 0%nat p == Node.g n)%Q.
Proof.
  intros gr.
  apply (parent_links_of_a_visited_node_give_a_path_of_cost_g gr 0%nat 8%nat false None);
    [reflexivity | simpl; lia | simpl; lia].
Defined.

(** *** The closest mode *)

Lemma visit_mode_independent (end_ : ref) (heur : heuristic_fn) (c c' : bool)
    (cur nb : ref) (s s' t t' : state) :
  same_run s s' ->
  visit end_ c heur cur s nb = Ok t -> visit end_ c' heur cur s' nb = Ok t' ->
  same_run t t'.
Proof.
  destruct s as [g hp cl tr], s' as [g' hp' cl' tr'].
  intros (Hg & Hh & Ht). simpl in Hg, Hh, Ht. subst g' hp' tr'.
  unfold visit. cbn [st_graph st_heap st_closest st_trace].
  destruct (get_node g nb) as [n |]; [| done]. cbn [res_bind].
  destruct (Node.closed n || isNodeWall n).
  { intros [= <-] [= <-]. done. }
  destruct (get_node g cur) as [cn |]; [| done]. cbn [res_bind].
  destruct (negb (Node.visited n) || Qltb _ _).
  2:{ intros [= <-] [= <-]. done. }
  destruct (get_node g end_) as [en |]; [| done]. cbn [res_bind].
  destruct (get_node _ nb) as [nb1 |]; [| done]. cbn [res_bind].
  destruct (get_node _ cl) as [c1 |]; [| done].
  destruct (get_node _ cl') as [c2 |]; [| done]. cbn [res_bind].
  destruct (negb (Node.visited n)).
  - destruct (push _ nb hp) as [hp1 |]; [| done]. cbn [res_bind].
    intros [= <-] [= <-]. done.
  - destruct (rescoreElement _ nb hp) as [hp1 |]; [| done]. cbn [res_bind].
    intros [= <-] [= <-]. done.
Qed.

Lemma visit_all_mode_independent (end_ : ref) (heur : heuristic_fn) (c c' : bool)
    (cur : ref) (nbs : list ref) : forall (s s' t t' : state),
  same_run s s' ->
  visit_all end_ c heur cur s nbs = Ok t -> visit_all end_ c' heur cur s' nbs = Ok t' ->
  same_run t t'.
Proof.
  induction nbs as [| nb nbs IH]; intros s s' t t' Hsame; simpl.
  - by intros [= <-] [= <-].
  - destruct (visit end_ c heur cur s nb) as [s1 |] eqn:H1; [| done].
    destruct (visit end_ c' heur cur s' nb) as [s1' |] eqn:H1'; [| done]. cbn [res_bind].
    apply IH. by apply (visit_mode_independent end_ heur c c' cur nb s s').
Qed.

Lemma search_loop_mode_independent (end_ : ref) (heur : heuristic_fn) (c c' : bool)
    (fuel : nat) : forall (s s' : state) (p p' : list ref) (t t' : state),
  same_run s s' ->
  search_loop end_ c heur fuel s = Ok (p, t) ->
  search_loop end_ c' heur fuel s' = Ok (p', t') ->
  same_run t t'.
Proof.
  induction fuel as [| fuel IH]; intros s s' p p' t t' Hsame;
    pose proof Hsame as (Hg & Hh & Ht);
    cbn [search_loop]; rewrite <- ?Hg, <- ?Hh, <- ?Ht.
  - destruct (size (st_heap s) >? 0); [done |].
    destruct c, c'; repeat (destruct (pathTo _ _); [| done]); cbn [res_bind];
      intros [= _ <-] [= _ <-]; done.
  - destruct (size (st_heap s) >? 0).
    + destruct (pop _ (st_heap s)) as [[cur hp] |]; [| done]. cbn [res_bind].
      destruct cur as [cur |]; [| done].
      destruct (Nat.eqb cur end_).
      * destruct (pathTo _ _); [| done]. cbn [res_bind]. intros [= _ <-] [= _ <-]. done.
      * destruct (get_node _ cur) as [cn |]; [| done]. cbn [res_bind].
        destruct (visit_all end_ c heur cur _ _) as [s1 |] eqn:H1; [| done].
        destruct (visit_all end_ c' heur cur _ _) as [s1' |] eqn:H1'; [| done].
        cbn [res_bind]. apply IH.
        eapply (visit_all_mode_independent end_ heur c c' cur); [| exact H1 | exact H1'].
        done.
    + destruct c, c'; repeat (destruct (pathTo _ _); [| done]); cbn [res_bind];
        intros [= _ <-] [= _ <-]; done.
Qed.

Lemma search_mode_independent (gr : Graph) (start end_ : ref) (c c' : bool)
    (heuristic : option heuristic_fn) (p p' : list ref) (t t' : state) :
  search gr start end_ c heuristic = Ok (p, t) ->
  search gr start end_ c' heuristic = Ok (p', t') ->
  same_run t t'.
Proof.
  unfold search.
  destruct (get_node _ start) as [s |]; [| done]. cbn [res_bind].
  destruct (get_node _ end_) as [e |]; [| done]. cbn [res_bind].
  destruct (push _ start arr_empty) as [hp |]; [| done]. cbn [res_bind].
  apply search_loop_mode_independent. done.
Qed.

(** When the goal can be reached, the path returned is the one [pathTo]
    gives for the goal on the graph the search leaves. *)
Lemma search_reach_goal (gr : Graph) (start end_ : ref) (closest : bool)
    (heuristic : option heuristic_fn) (q : list ref) :
  graph_wfb gr = true ->
  (start < length (nodes gr))%nat -> (end_ < length (nodes gr))%nat ->
  valid_path gr start q = true -> path_end start q = end_ ->
  exists path st, search gr start end_ closest heuristic = Ok (path, st) /\
    pathTo (st_graph st) end_ = Ok path.
Proof.
  intros Hwf Hs He Hq Hqe.
  destruct (search_reach gr start end_ closest heuristic Hwf Hs He)
    as (path & st & Hrun & stl & Hcore & Hreach & _ & Hfinal).
  exists path, st. split; [done |].
  destruct Hfinal as [(hp & _ & _ & _ & Hpath & ->) | (Hnil & _ & _)]; [done |].
  exfalso.
  destruct (core_start_heap _ _ _ _ _ Hcore) as [(ns & Hns & Hnsc) | Hone];
    [| rewrite Hnil in Hone; discriminate Hone].
  destruct (exhausted_reached gr start end_ heuristic stl q start ns Hcore Hreach Hnil
              Hns Hnsc Hq) as (ne & Hne & Hnec).
  rewrite Hqe in Hne.
  pose proof (core_end _ _ _ _ _ Hcore ne Hne). congruence.
Qed.

(** X24.  The closest mode changes nothing but the fallback: on a
    well-formed graph the searches with and without it leave the same
    graph, the same heap and make the same calls, and when the goal can
    be reached they return the same path. *)
Theorem closest_mode_changes_only_the_fallback (gr : Graph) (start end_ : ref)
    (heuristic : option heuristic_fn) :
  graph_wfb gr = true ->
  (start < length (nodes gr))%nat -> (end_ < length (nodes gr))%nat ->
  exists p t p' t',
    search gr start end_ true heuristic = Ok (p, t) /\
    search gr start end_ false heuristic = Ok (p', t') /\
    st_graph t = st_graph t' /\ st_heap t = st_heap t' /\ st_trace t = st_trace t' /\
    ((exists q, valid_path gr start q = true /\ path_end start q = end_) -> p = p').
Proof.
  intros Hwf Hs He.
  destruct (search_reach gr start end_ true heuristic Hwf Hs He) as (p & t & Hrun & _).
  destruct (search_reach gr start end_ false heuristic Hwf Hs He) as (p' & t' & Hrun' & _).
  destruct (search_mode_independent gr start end_ true false heuristic p p' t t' Hrun Hrun')
    as (Hg & Hh & Ht).
  exists p, t, p', t'. split_and!; try done.
  intros (q & Hq & Hqe).
  destruct (search_reach_goal gr start end_ true heuristic q Hwf Hs He Hq Hqe)
    as (p1 & t1 & Hrun1 & Hp1).
  destruct (search_reach_goal gr start end_ false heuristic q Hwf Hs He Hq Hqe)
    as (p2 & t2 & Hrun2 & Hp2).
  rewrite Hrun in Hrun1. injection Hrun1 as <- <-.
  rewrite Hrun' in Hrun2. injection Hrun2 as <- <-.
  rewrite Hg in Hp1. congruence.
Qed.

Lemma closest_mode_changes_only_the_fallback_witness :
  let gr := Graph_new [[1; 3; 1]; [1; 1; 1]; [0; 2; 5 # 2]]%Q true in
  exists p t p' t',
    search gr 0%nat 8%nat true None = Ok (p, t) /\
    search gr 0%nat 8%nat false None = Ok (p', t') /\
    st_graph t = st_graph t' /\ st_heap t = st_heap t' /\ st_trace t = st_trace t' /\
    ((exists q, valid_path gr 0%nat q = true /\ path_end 0%nat q = 8%nat) -> p = p').
Proof.
  intros gr.
  apply (closest_mode_changes_only_the_fallback gr 0%nat 8%nat None);
    [reflexivity | simpl; lia | simpl; lia].
Defined.

(** *** [pathTo] on any graph *)

Lemma parent_chain_snoc (gr : Graph) (path : list ref) : forall (root r : ref),
  parent_chain gr root (path ++ [r]) =
  parent_chain gr root path &&
  match nodes gr !! r with
  | Some n => bool_decide (Node.parent n = Some (path_end root path))
  | None => false
  end.
Proof.
  induction path as [| x path IH]; intros root r; simpl.
  - unfold path_end. simpl. destruct (nodes gr !! r); [| done]. by rewrite andb_true_r.
  - rewrite path_end_cons. destruct (nodes gr !! x); [| done].
    rewrite IH. by rewrite andb_assoc.
Qed.

(** What the loop of [pathTo] collects. *)
Lemma pathTo_loop_chain (gr : Graph) (fuel : nat) : forall (r : ref) (acc path : list ref),
  pathTo_loop fuel gr r acc = Ok path ->
  exists root nroot front,
    path = front ++ acc /\
    nodes gr !! root = Some nroot /\ Node.parent nroot = None /\
    parent_chain gr root front = true /\ path_end root front = r.
Proof.
  induction fuel as [| fuel IH]; intros r acc path; cbn [pathTo_loop]; unfold get_node;
    destruct (nodes gr !! r) as [n |] eqn:Hn; try done; cbn [res_bind];
    destruct (Node.parent n) as [p |] eqn:Hp; try done.
  - intros [= <-]. exists r, n, []. done.
  - intros Hrun. destruct (IH p (r :: acc) path Hrun)
      as (root & nroot & front & -> & Hroot & Hnone & Hchain & Hend).
    exists root, nroot, (front ++ [r]). rewrite <- app_assoc. split_and!; try done.
    + rewrite parent_chain_snoc, Hchain, Hn, Hend. simpl. by apply bool_decide_eq_true.
    + apply path_end_snoc.
  - intros [= <-]. exists r, n, []. done.
Qed.

(** Enough fuel makes the loop return the chain. *)
Lemma pathTo_loop_complete (gr : Graph) (front : list ref) : forall (fuel : nat)
    (root : ref) (nroot : Node.GridNode) (acc : list ref),
  nodes gr !! root = Some nroot -> Node.parent nroot = None ->
  parent_chain gr root front = true -> (length front <= fuel)%nat ->
  pathTo_loop fuel gr (path_end root front) acc = Ok (front ++ acc).
Proof.
  induction front as [| r front IH] using rev_ind; intros fuel root nroot acc Hroot Hnone Hchain Hfuel.
  - unfold path_end. simpl. destruct fuel; cbn [pathTo_loop]; unfold get_node;
      rewrite Hroot; cbn [res_bind]; by rewrite Hnone.
  - rewrite parent_chain_snoc in Hchain. apply andb_true_iff in Hchain as [Hchain Hr].
    destruct (nodes gr !! r) as [n |] eqn:Hn; [| done]. apply bool_decide_eq_true in Hr.
    rewrite path_end_snoc. rewrite length_app in Hfuel. simpl in Hfuel.
    destruct fuel as [| fuel]; [lia |].
    cbn [pathTo_loop]. unfold get_node. rewrite Hn. cbn [res_bind]. rewrite Hr.
    rewrite (IH fuel root nroot (r :: acc) Hroot Hnone Hchain ltac:(lia)).
    by rewrite <- app_assoc.
Qed.

(** In a chain of parent links, each node has the node before it as parent. *)
Lemma parent_chain_lookup (gr : Graph) (path : list ref) : forall (root : ref) (i : nat) (x : ref),
  parent_chain gr root path = true -> path !! i = Some x ->
  exists n p, nodes gr !! x = Some n /\ Node.parent n = Some p /\
    (root :: path) !! i = Some p.
Proof.
  induction path as [| r path IH]; intros root i x Hchain Hx; [done |].
  simpl in Hchain. destruct (nodes gr !! r) as [n |] eqn:Hn; [| done].
  apply andb_true_iff in Hchain as [Hp Hchain]. apply bool_decide_eq_true in Hp.
  destruct i as [| i]; simpl in Hx.
  - injection Hx as <-. exists n, root. done.
  - destruct (IH r i x Hchain Hx) as (nx & p & Hnx & Hpx & Hlook). exists nx, p. done.
Qed.

(** A chain of parent links below a node without parent passes no node
    twice. *)
Lemma parent_chain_NoDup (gr : Graph) (root : ref) (nroot : Node.GridNode) (path : list ref) :
  nodes gr !! root = Some nroot -> Node.parent nroot = None ->
  parent_chain gr root path = true -> NoDup (root :: path).
Proof.
  intros Hroot Hnone Hchain.
  assert (Hlt : forall i j x, (i < j)%nat ->
            (root :: path) !! i = Some x -> (root :: path) !! j = Some x -> False).
  { induction i as [| i IH]; intros j x Hij Hi Hj; (destruct j as [| j]; [lia |]);
      simpl in Hj.
    - simpl in Hi. injection Hi as <-.
      destruct (parent_chain_lookup gr path root j root Hchain Hj) as (n & p & Hn & Hp & _).
      congruence.
    - simpl in Hi.
      destruct (parent_chain_lookup gr path root i x Hchain Hi) as (n & p & Hn & Hp & Hpi).
      destruct (parent_chain_lookup gr path root j x Hchain Hj) as (n' & p' & Hn' & Hp' & Hpj).
      assert (p' = p) by congruence. subst p'.
      apply (IH j p); [lia | done | done]. }
  apply NoDup_alt. intros i j x Hi Hj.
  destruct (Nat.lt_trichotomy i j) as [Hij | [-> | Hji]]; [| done |].
  - exfalso. by apply (Hlt i j x).
  - exfalso. by apply (Hlt j i x).
Qed.

(** X25.  On any graph, [pathTo(node)] returns exactly the chain of parent
    links above [node]: if it returns, the path ends with [node], each of
    its nodes has the one before it as parent, and the parent of the first
    is a node without parent, which is not part of the path; conversely,
    below every node without parent, [pathTo] of the last node of a chain
    of parent links returns that chain. *)
Theorem pathTo_returns_the_chain_of_parent_links (gr : Graph) :
  (forall r path, pathTo gr r = Ok path ->
     exists root nroot, nodes gr !! root = Some nroot /\ Node.parent nroot = None /\
       parent_chain gr root path = true /\ path_end root path = r /\ root ∉ path) /\
  (forall root nroot path,
     nodes gr !! root = Some nroot -> Node.parent nroot = None ->
     parent_chain gr root path = true ->
     pathTo gr (path_end root path) = Ok path).
Proof.
  split.
  - intros r path Hrun. unfold pathTo in Hrun.
    destruct (pathTo_loop_chain gr _ r [] path Hrun)
      as (root & nroot & front & -> & Hroot & Hnone & Hchain & Hend).
    rewrite app_nil_r. exists root, nroot. split_and!; try done.
    pose proof (parent_chain_NoDup gr root nroot front Hroot Hnone Hchain) as Hnd.
    by apply NoDup_cons in Hnd as [? _].
  - intros root nroot path Hroot Hnone Hchain. unfold pathTo.
    rewrite <- (app_nil_r path) at 2.
    apply (pathTo_loop_complete gr path _ root nroot [] Hroot Hnone Hchain).
    pose proof (parent_chain_NoDup gr root nroot path Hroot Hnone Hchain) as Hnd.
    assert (Hsub : root :: path ⊆+ seq 0 (length (nodes gr))).
    { apply NoDup_submseteq; [done |]. intros x Hx. apply elem_of_seq. split; [lia |]. simpl.
      apply elem_of_cons in Hx as [-> | Hx]; [by eapply lookup_lt_Some |].
      apply list_elem_of_lookup in Hx as [i Hi].
      destruct (parent_chain_lookup gr path root i x Hchain Hi) as (n & _ & Hn & _).
      by eapply lookup_lt_Some. }
    apply submseteq_length in Hsub. rewrite length_seq in Hsub. simpl in Hsub. lia.
Qed.

Lemma pathTo_returns_the_chain_of_parent_links_witness :
  let gr := mkGraph [Node.mk 0 0 1 0 0 0 false false None;
                     Node.mk 0 1 1 0 0 0 false false (Some 0%nat);
                     Node.mk 0 2 1 0 0 0 false false (Some 1%nat)]
              [[0; 1; 2]%nat] false [] in
  pathTo gr (path_end 0%nat [1; 2]%nat) = Ok [1; 2]%nat.
Proof.
  intros gr.
  apply (proj2 (pathTo_returns_the_chain_of_parent_links gr) 0%nat
           (Node.mk 0 0 1 0 0 0 false false None) [1; 2]%nat); reflexivity.
Defined.

(** *** The diagonal heuristic *)

(** X26.  [heuristics.diagonal] is symmetric, and for [D2] (standing for
    [Math.sqrt(2)]) between 1 and 2 it lies between the larger of the two
    coordinate differences and the Manhattan distance; the coordinates are
    integers of absolute value at most 2^51, so the differences and their
    sum are exact in doubles. *)
Theorem diagonal_heuristic_lies_between_chebyshev_and_manhattan (D2 : Q) (p q : pos) :
  let d1 := Z.abs (fst q - fst p) in
  let d2 := Z.abs (snd q - snd p) in
  Z.abs (fst p) <= 2 ^ 51 -> Z.abs (snd p) <= 2 ^ 51 ->
  Z.abs (fst q) <= 2 ^ 51 -> Z.abs (snd q) <= 2 ^ 51 ->
  (1 <= D2)%Q -> (D2 <= 2)%Q ->
  (diagonal_heuristic D2 p q == diagonal_heuristic D2 q p)%Q /\
  (inject_Z (Z.max d1 d2) <= diagonal_heuristic D2 p q)%Q /\
  (diagonal_heuristic D2 p q <= manhattan p q)%Q /\
  d1 + d2 <= 2 ^ 53.
Proof.
  intros d1 d2 Hpx Hpy Hqx Hqy H1 H2.
  assert (Hrange : d1 + d2 <= 2 ^ 53) by (unfold d1, d2; lia).
  unfold diagonal_heuristic, manhattan. fold d1 d2.
  assert (Hsum : d1 + d2 = Z.max d1 d2 + Z.min d1 d2) by lia.
  assert (Hmin : 0 <= Z.min d1 d2) by lia.
  assert (Hsym1 : Z.abs (fst p - fst q) = d1) by (unfold d1; lia).
  assert (Hsym2 : Z.abs (snd p - snd q) = d2) by (unfold d2; lia).
  rewrite Hsym1, Hsym2. clear Hpx Hpy Hqx Hqy.
  rewrite Hsum, inject_Z_plus.
  rewrite Zle_Qle in Hmin. change (inject_Z 0) with 0%Q in Hmin.
  set (a := inject_Z (Z.min d1 d2)) in *. set (b := inject_Z (Z.max d1 d2)) in *.
  split_and!; [reflexivity | nra | nra | lia].
Qed.

Lemma diagonal_heuristic_lies_between_chebyshev_and_manhattan_witness :
  let p : pos := (0, 0) in
  let q : pos := (7, 7) in
  (diagonal_heuristic sqrt2_double p q == diagonal_heuristic sqrt2_double q p)%Q /\
  (inject_Z (Z.max (Z.abs (fst q - fst p)) (Z.abs (snd q - snd p))) <=
     diagonal_heuristic sqrt2_double p q)%Q /\
  (diagonal_heuristic sqrt2_double p q <= manhattan p q)%Q /\
  Z.abs (fst q - fst p) + Z.abs (snd q - snd p) <= 2 ^ 53.
Proof.
  intros p q.
  apply (diagonal_heuristic_lies_between_chebyshev_and_manhattan sqrt2_double p q);
    vm_compute; discriminate.
Defined.

(** *** Searching for the start node *)

(** X28.  On every well-formed graph, whatever state an earlier search
    has left in it, [search(graph, s, s)] returns the empty path, in both
    modes and for every heuristic. *)
Theorem search_to_the_start_node_returns_the_empty_path (gr : Graph) (s : ref)
    (closest : bool) (heuristic : option heuristic_fn) :
  graph_wfb gr = true -> (s < length (nodes gr))%nat ->
  exists st, search gr s s closest heuristic = Ok ([], st).
Proof.
  intros Hwf Hs.
  destruct (search_reach gr s s closest heuristic Hwf Hs Hs)
    as (path & st & Hrun & stl & Hcore & _ & _ & Hfinal).
  exists st. rewrite Hrun. do 2 f_equal.
  destruct Hfinal as [(hp & _ & _ & _ & Hpath & _) | (Hnil & _ & _)].
  - rewrite (pathTo_start gr s s _ stl Hcore) in Hpath. by injection Hpath.
  - exfalso.
    destruct (core_start_heap _ _ _ _ _ Hcore) as [(ns & Hns & Hnsc) | Hone];
      [| rewrite Hnil in Hone; discriminate Hone].
    pose proof (core_end _ _ _ _ _ Hcore ns Hns). congruence.
Qed.

Lemma search_to_the_start_node_returns_the_empty_path_witness :
  let gr := Graph_new [[1; 3; 1]; [1; 1; 1]; [0; 2; 5 # 2]]%Q true in
  exists st, search gr 4%nat 4%nat true None = Ok ([], st).
Proof.
  intros gr.
  apply (search_to_the_start_node_returns_the_empty_path gr 4%nat true None);
    [reflexivity | simpl; lia].
Defined.

(** ** Printing a node *)

Lemma has_char_uint (c : ascii) (d : Decimal.uint) :
  has_char c "0123456789"%string = false ->
  has_char c (NilEmpty.string_of_uint d) = false.
Proof.
  intros Hc. simpl in Hc. rewrite !orb_false_iff in Hc.
  destruct Hc as (H0 & H1 & H2 & H3 & H4 & H5 & H6 & H7 & H8 & H9 & _).
  induction d; simpl; rewrite ?H0, ?H1, ?H2, ?H3, ?H4, ?H5, ?H6, ?H7, ?H8, ?H9; done.
Qed.

Lemma has_char_number (c : ascii) (z : Z) :
  has_char c "-0123456789"%string = false ->
  has_char c (number_to_string z) = false.
Proof.
  intros Hc. cbn [has_char] in Hc. apply orb_false_iff in Hc as [Hm Hd].
  assert (Hu : forall d, has_char c (NilZero.string_of_uint d) = false).
  { intros d. unfold NilZero.string_of_uint.
    destruct d; try (by apply has_char_uint).
    simpl in *. rewrite !orb_false_iff in Hd. destruct Hd as (-> & _). done. }
  unfold number_to_string, NilZero.string_of_int.
  destruct (Z.to_int z); [apply Hu |]. cbn [has_char]. by rewrite Hm, Hu.
Qed.

(** Two strings cut at the first occurrence of [c] agree part by part. *)
Lemma append_split (c : ascii) (s1 : string) : forall (s2 t1 t2 : string),
  has_char c s1 = false -> has_char c s2 = false ->
  (s1 ++ String c t1)%string = (s2 ++ String c t2)%string -> s1 = s2 /\ t1 = t2.
Proof.
  induction s1 as [| a s1 IH]; intros s2 t1 t2 H1 H2 Heq; destruct s2 as [| b s2];
    simpl in *.
  - by injection Heq as ->.
  - injection Heq as <- _. by rewrite Ascii.eqb_refl in H2.
  - injection Heq as -> _. by rewrite Ascii.eqb_refl in H1.
  - injection Heq as -> Heq. apply orb_false_iff in H1 as [_ H1].
    apply orb_false_iff in H2 as [_ H2].
    destruct (IH s2 t1 t2 H1 H2 Heq) as [-> ->]. done.
Qed.

Lemma to_int_nonnil (z : Z) : Z.to_int z <> Decimal.Pos Decimal.Nil /\ Z.to_int z <> Decimal.Neg Decimal.Nil.
Proof.
  destruct z as [| p | p]; simpl; split; try discriminate;
    intros [= H]; by apply (DecimalPos.Unsigned.to_uint_nonnil p).
Qed.

Lemma number_to_string_inj (z1 z2 : Z) :
  number_to_string z1 = number_to_string z2 -> z1 = z2.
Proof.
  unfold number_to_string. intros Heq. apply DecimalZ.to_int_inj.
  destruct (to_int_nonnil z1) as [Hp1 Hn1], (to_int_nonnil z2) as [Hp2 Hn2].
  pose proof (NilZero.isi (Z.to_int z1) Hp1 Hn1) as H1.
  pose proof (NilZero.isi (Z.to_int z2) Hp2 Hn2) as H2.
  rewrite Heq in H1. congruence.
Qed.

(** X27.  [stringfyNode] tells positions apart: two nodes with integer
    coordinates (below 10^21 in absolute value, where JavaScript prints
    them in plain decimal) are printed alike exactly when they have the
    same x and the same y; weight and search state are not printed. *)
Theorem stringfyNode_tells_positions_apart (n1 n2 : Node.GridNode) :
  Z.abs (Node.x n1) < 10 ^ 21 -> Z.abs (Node.y n1) < 10 ^ 21 ->
  Z.abs (Node.x n2) < 10 ^ 21 -> Z.abs (Node.y n2) < 10 ^ 21 ->
  (stringfyNode n1 = stringfyNode n2 <->
   Node.x n1 = Node.x n2 /\ Node.y n1 = Node.y n2).
Proof.
  intros _ _ _ _. unfold stringfyNode. split; [| by intros [-> ->]].
  intros Heq. simpl in Heq. injection Heq as Heq.
  destruct (append_split " " _ _ _ _ (has_char_number " " (Node.x n1) eq_refl)
              (has_char_number " " (Node.x n2) eq_refl) Heq) as [Hx Hy].
  destruct (append_split "]" _ _ _ _ (has_char_number "]" (Node.y n1) eq_refl)
              (has_char_number "]" (Node.y n2) eq_refl) Hy) as [Hy' _].
  split; by apply number_to_string_inj.
Qed.

Lemma stringfyNode_tells_positions_apart_witness :
  stringfyNode (Node.mk 12 (-3) 1 0 0 0 false false None) =
  stringfyNode (Node.mk 12 (-3) (5 # 2) 7 4 3 true true (Some 1%nat)) <->
  (12 = 12 /\ -3 = -3).
Proof.
  apply (stringfyNode_tells_positions_apart
           (Node.mk 12 (-3) 1 0 0 0 false false None)
           (Node.mk 12 (-3) (5 # 2) 7 4 3 true true (Some 1%nat))); reflexivity.
Defined.

(** ** Searches whose arithmetic is exact in doubles *)

Lemma is_integerb_spec (q : Q) : is_integerb q = true -> exists z, (q == inject_Z z)%Q.
Proof. intros H. exists (Qfloor q). by apply Qeq_bool_iff. Qed.

Lemma sumQ_app {A} (f : A -> Q) (l1 l2 : list A) :
  (sumQ f (l1 ++ l2) == sumQ f l1 + sumQ f l2)%Q.
Proof. induction l1 as [| a l1 IH]; simpl; [ring | rewrite IH; ring]. Qed.

Lemma sumQ_perm {A} (f : A -> Q) (l1 l2 : list A) :
  l1 ≡ₚ l2 -> (sumQ f l1 == sumQ f l2)%Q.
Proof.
  induction 1 as [| a l1 l2 _ IH | a b l | l1 l2 l3 _ IH1 _ IH2]; simpl.
  - reflexivity.
  - by rewrite IH.
  - ring.
  - by rewrite IH1.
Qed.

Lemma sumQ_nonneg {A} (f : A -> Q) (l : list A) :
  (forall x, x ∈ l -> (0 <= f x)%Q) -> (0 <= sumQ f l)%Q.
Proof.
  induction l as [| a l IH]; intros Hall; simpl; [lra |].
  assert (0 <= f a)%Q by (apply Hall, elem_of_cons; by left).
  assert (0 <= sumQ f l)%Q by (apply IH; intros x Hx; apply Hall, elem_of_cons; by right).
  lra.
Qed.

Lemma sumQ_submseteq {A} (f : A -> Q) (l k : list A) :
  l ⊆+ k -> (forall x, x ∈ k -> (0 <= f x)%Q) -> (sumQ f l <= sumQ f k)%Q.
Proof.
  intros Hsub Hall. apply submseteq_Permutation in Hsub as [k' Hk].
  rewrite (sumQ_perm f k (l ++ k') Hk), sumQ_app.
  assert (0 <= sumQ f k')%Q; [| lra].
  apply sumQ_nonneg. intros x Hx. apply Hall. rewrite Hk. apply elem_of_app. by right.
Qed.

Lemma sumQ_ext {A} (f g : A -> Q) (l : list A) :
  (forall x, x ∈ l -> (f x == g x)%Q) -> (sumQ f l == sumQ g l)%Q.
Proof.
  induction l as [| a l IH]; intros Hall; simpl; [reflexivity |].
  rewrite (Hall a) by (apply elem_of_cons; by left).
  rewrite IH; [reflexivity |]. intros x Hx. apply Hall, elem_of_cons. by right.
Qed.

Lemma sumQ_integer {A} (f : A -> Q) (l : list A) :
  (forall x, x ∈ l -> exists z, (f x == inject_Z z)%Q) ->
  exists z, (sumQ f l == inject_Z z)%Q.
Proof.
  induction l as [| a l IH]; intros Hall; simpl.
  - exists 0. reflexivity.
  - destruct (Hall a) as [za Hza]; [apply elem_of_cons; by left |].
    destruct IH as [zl Hzl]; [intros x Hx; apply Hall, elem_of_cons; by right |].
    exists (za + zl). rewrite Hza, Hzl, inject_Z_plus. reflexivity.
Qed.

(** The weights of the nodes, summed by node number. *)
Lemma sumQ_weight_of (gr : Graph) :
  (sumQ (weight_of gr) (seq 0 (length (nodes gr))) == total_weight gr)%Q.
Proof.
  unfold total_weight, weight_of. generalize (nodes gr). intros ns.
  induction ns as [| x ns IH] using rev_ind; [reflexivity |].
  rewrite length_app. simpl length. rewrite Nat.add_1_r, seq_S. simpl.
  rewrite !sumQ_app. simpl.
  rewrite lookup_app_r by lia. rewrite Nat.sub_diag. simpl.
  rewrite <- IH. apply Qplus_comp; [| reflexivity].
  apply sumQ_ext. intros v Hv. apply elem_of_seq in Hv.
  rewrite lookup_app_l by lia. reflexivity.
Qed.

(** Without diagonal movement a move costs the weight of its target. *)
Lemma step_cost_straight (gr : Graph) (u v : ref) :
  graph_wfb gr = true -> diagonal gr = false -> step_ok gr u v = true ->
  step_cost gr u v = weight_of gr v.
Proof.
  intros Hwf Hdiag Hstep.
  destruct (step_ok_offset gr u v Hwf Hstep) as (nu & nv & d & Hu & Hv & _ & Hd & Hx & Hy).
  destruct (neighbor_offsets_cases _ d Hd) as (_ & _ & _ & Hman & _).
  specialize (Hman Hdiag).
  unfold step_cost, weight_of. rewrite Hv, Hu. unfold getNodeCost.
  destruct (Z.eqb_spec (Node.x nu) (Node.x nv)); [done |].
  destruct (Z.eqb_spec (Node.y nu) (Node.y nv)); [done |]. lia.
Qed.

Lemma path_cost_weights (gr : Graph) (p : list ref) : forall (u : ref),
  graph_wfb gr = true -> diagonal gr = false -> valid_path gr u p = true ->
  (path_cost gr u p == sumQ (weight_of gr) p)%Q.
Proof.
  induction p as [| v p IH]; intros u Hwf Hdiag Hvalid; simpl; [reflexivity |].
  simpl in Hvalid. apply andb_true_iff in Hvalid as [Hstep Hvalid].
  rewrite (step_cost_straight gr u v Hwf Hdiag Hstep), (IH v Hwf Hdiag Hvalid). reflexivity.
Qed.

(** What [exact_in_doublesb] gives. *)
Lemma exact_in_doubles_spec (gr : Graph) (heur : heuristic_fn) (end_ : ref) :
  exact_in_doublesb gr heur end_ = true ->
  diagonal gr = false /\
  (forall v, (exists z, (weight_of gr v == inject_Z z)%Q) /\ (0 <= weight_of gr v)%Q) /\
  (forall u, (u < length (nodes gr))%nat ->
     (exists z, (h_of gr heur end_ u == inject_Z z)%Q) /\
     (total_weight gr + Qabs (h_of gr heur end_ u) <= two53)%Q).
Proof.
  unfold exact_in_doublesb. intros H.
  apply andb_true_iff in H as [H Hh]. apply andb_true_iff in H as [Hd Hw].
  rewrite forallb_forall in Hw. rewrite forallb_forall in Hh.
  split_and!.
  - by apply negb_true_iff.
  - intros v. unfold weight_of. destruct (nodes gr !! v) as [n |] eqn:Hn.
    + assert (Hin : In n (nodes gr)) by (apply list_elem_of_In; by eapply list_elem_of_lookup_2).
      specialize (Hw n Hin). apply andb_true_iff in Hw as [Hi Hp].
      split; [by apply is_integerb_spec | by apply Qle_bool_iff].
    + split; [exists 0; reflexivity | lra].
  - intros u Hu. specialize (Hh u ltac:(apply in_seq; lia)).
    apply andb_true_iff in Hh as [Hi Hb].
    split; [by apply is_integerb_spec | by apply Qle_bool_iff].
Qed.

Lemma integer_upto_intro (q : Q) (z : Z) :
  (q == inject_Z z)%Q -> (- two53 <= q)%Q -> (q <= two53)%Q -> integer_upto (2 ^ 53) q.
Proof.
  intros Hq Hlo Hhi. exists z. split; [done |].
  unfold two53 in *. rewrite Hq in Hlo, Hhi.
  rewrite <- inject_Z_opp in Hlo. rewrite <- Zle_Qle in Hlo, Hhi. lia.
Qed.

Lemma integer_upto_zero : integer_upto (2 ^ 53) 0.
Proof. exists 0. split; [reflexivity | lia]. Qed.

Section ExactRun.
Variable gr : Graph.
Variables start end_ : ref.
Variable closest : bool.
Variable heuristic : option heuristic_fn.

Let heur : heuristic_fn := heuristic_or_default heuristic.

Hypothesis gr_wf : graph_wfb gr = true.
Hypothesis start_valid : (start < length (nodes gr))%nat.
Hypothesis end_valid : (end_ < length (nodes gr))%nat.

(** The [f] of the start node is never written. *)
Lemma search_start_f :
  exists path st, search gr start end_ closest heuristic = Ok (path, st) /\
    exists n, nodes (st_graph st) !! start = Some n /\ Node.f n = 0%Q.
Proof.
  destruct (search_run gr start end_ closest heuristic gr_wf start_valid end_valid
              (fun st => exists n, node_of st start = Some n /\ Node.f n = 0%Q)
              (fun _ _ st => exists n, node_of st start = Some n /\ Node.f n = 0%Q))
    as (path & st & Hrun & stl & Hcore & HJ & Hfinal).
  - intros st0 _ _ _ _ _ _ Hf. exact Hf.
  - intros st0 cur st1 _ (n & Hn & Hf) (hp & _ & _ & _ & ->) _ _.
    unfold node_of in *. cbn [st_graph]. rewrite nodes_update_node.
    destruct (decide (cur = start)) as [-> | Hne].
    + rewrite Hn. simpl. eauto.
    + eauto.
  - intros cur cn0 seen nb rest st0 st' _ _ Hinner (n & Hn & Hf) Hshape _.
    destruct Hshape as [-> _ | n1 cn n' cl Hn1 _ Hnc _ _ _ Hnodes _ _ _ _ _]; [eauto |].
    destruct Hinner as (_ & (ns & Hns & Hnsc) & _).
    unfold node_of in *. exists n. split; [| done]. rewrite Hnodes.
    rewrite list_lookup_insert_ne; [done |]. intros ->. congruence.
  - done.
  - exists path, st. split; [done |].
    destruct HJ as (n & Hn & Hf). exists n. split; [| done]. unfold node_of in Hn.
    destruct Hfinal as [(hp & _ & _ & _ & _ & ->) | (_ & -> & _)]; done.
Qed.

Hypothesis gr_exact : exact_in_doublesb gr heur end_ = true.

(** On such inputs every number the search leaves in a node is an integer
    of absolute value at most 2^53. *)
Lemma search_exact_range :
  exists path st, search gr start end_ closest heuristic = Ok (path, st) /\
    forall r n, nodes (st_graph st) !! r = Some n ->
      integer_upto (2 ^ 53) (Node.g n) /\ integer_upto (2 ^ 53) (Node.h n) /\
      integer_upto (2 ^ 53) (Node.f n).
Proof.
  destruct (exact_in_doubles_spec gr heur end_ gr_exact) as (Hdiag & Hw & Hh).
  subst heur.
  destruct (search_reach gr start end_ closest heuristic gr_wf start_valid end_valid)
    as (path & st & Hrun & stl & Hcore & _ & _ & Hfinal).
  destruct search_start_f as (path' & st' & Hrun' & ns & Hns & Hnsf).
  rewrite Hrun in Hrun'. injection Hrun' as <- <-.
  exists path, st. split; [done |].
  assert (Hgr : st_graph st = st_graph stl).
  { destruct Hfinal as [(hp & _ & _ & _ & _ & ->) | (_ & -> & _)]; done. }
  rewrite Hgr in Hns |- *. intros r n Hn.
  assert (Hr : (r < length (nodes gr))%nat).
  { destruct (core_static _ _ _ _ _ Hcore) as (_ & _ & <- & _). by eapply lookup_lt_Some. }
  destruct (Hh r Hr) as ([zh Hzh] & Hhb).
  assert (Htot : (0 <= total_weight gr)%Q).
  { rewrite <- sumQ_weight_of. apply sumQ_nonneg. intros v _. apply Hw. }
  pose proof (Qabs_nonneg (h_of gr (heuristic_or_default heuristic) end_ r)) as Habs.
  assert (Hhr : (- two53 <= h_of gr (heuristic_or_default heuristic) end_ r)%Q /\ (h_of gr (heuristic_or_default heuristic) end_ r <= two53)%Q).
  { apply Qabs_Qle_condition. lra. }
  destruct (Node.visited n) eqn:Hv.
  - destruct (core_visited _ _ _ _ _ Hcore r n Hn Hv)
      as (_ & _ & _ & _ & _ & _ & _ & Hhn & Hfn).
    destruct (pathTo_run gr start end_ _ stl r n Hcore Hn ltac:(by left))
      as (p & Hp & Hvalid & _ & Hcost).
    destruct (pathTo_simple gr start end_ _ stl r n p Hcore Hn ltac:(by left) Hp) as [Hnd _].
    rewrite (path_cost_weights gr p start gr_wf Hdiag Hvalid) in Hcost.
    destruct (sumQ_integer (weight_of gr) p) as [zg Hzg]; [intros v _; apply Hw |].
    assert (Hg0 : (0 <= Node.g n)%Q).
    { rewrite <- Hcost. apply sumQ_nonneg. intros v _. apply Hw. }
    assert (Hg1 : (Node.g n <= total_weight gr)%Q).
    { rewrite <- Hcost, <- sumQ_weight_of. apply sumQ_submseteq; [| intros v _; apply Hw].
      apply NoDup_submseteq; [done |]. intros v Hvp. apply elem_of_seq. split; [lia |]. simpl.
      destruct (valid_path_nodes gr p start Hvalid v Hvp) as (nv & Hnv & _).
      by eapply lookup_lt_Some. }
    rewrite Hzg in Hcost.
    assert (Hhabs : (- Qabs (h_of gr (heuristic_or_default heuristic) end_ r) <= h_of gr (heuristic_or_default heuristic) end_ r)%Q /\
                    (h_of gr (heuristic_or_default heuristic) end_ r <= Qabs (h_of gr (heuristic_or_default heuristic) end_ r))%Q).
    { apply Qabs_Qle_condition. lra. }
    split_and!.
    + apply (integer_upto_intro _ zg); [by symmetry | lra | lra].
    + rewrite Hhn. apply (integer_upto_intro _ zh); [done | lra | lra].
    + rewrite Hfn, Hhn. apply (integer_upto_intro _ (zg + zh)).
      * rewrite inject_Z_plus, <- Hcost, Hzh. reflexivity.
      * lra.
      * lra.
  - destruct (decide (r = start)) as [-> | Hne].
    + destruct (core_start _ _ _ _ _ Hcore) as (ns' & Hns' & _ & _ & Hg & Hhs).
      unfold node_of in Hns'. assert (ns' = n) by congruence. subst ns'.
      assert (ns = n) by congruence. subst ns.
      rewrite Hg, Hhs, Hnsf. split_and!; [apply integer_upto_zero | | apply integer_upto_zero].
      apply (integer_upto_intro _ zh); [done | lra | lra].
    + rewrite (core_fresh _ _ _ _ _ Hcore r n Hn Hv Hne). simpl.
      split_and!; apply integer_upto_zero.
Qed.
End ExactRun.

(** [search] returns a cheapest path, for a consistent heuristic, and on
    inputs exact in doubles the numbers it leaves are integers in range. *)
Lemma search_optimal_exact (gr : Graph) (start end_ : ref) (closest : bool)
    (heuristic : option heuristic_fn) (q : list ref) :
  graph_wfb gr = true ->
  (start < length (nodes gr))%nat -> (end_ < length (nodes gr))%nat ->
  exact_in_doublesb gr (heuristic_or_default heuristic) end_ = true ->
  consistentb gr (heuristic_or_default heuristic) end_ = true ->
  valid_path gr start q = true -> path_end start q = end_ ->
  exists path st, search gr start end_ closest heuristic = Ok (path, st) /\
    valid_path gr start path = true /\ path_end start path = end_ /\
    (forall q', valid_path gr start q' = true -> path_end start q' = end_ ->
       (path_cost gr start path <= path_cost gr start q')%Q) /\
    (forall r n, nodes (st_graph st) !! r = Some n ->
       integer_upto (2 ^ 53) (Node.g n) /\ integer_upto (2 ^ 53) (Node.h n) /\
       integer_upto (2 ^ 53) (Node.f n)).
Proof.
  intros Hwf Hs He Hex Hc Hq Hqe.
  destruct (search_optimal gr start end_ closest heuristic Hwf Hs He Hc q Hq Hqe)
    as (path & st & Hrun & Hvalid & Hend & Hmin).
  destruct (search_exact_range gr start end_ closest heuristic Hwf Hs He Hex)
    as (path' & st' & Hrun' & Hrange).
  rewrite Hrun in Hrun'. injection Hrun' as <- <-.
  exists path, st. done.
Qed.

(** C1, amended.  On a well-formed graph, with a heuristic that is
    consistent for the moves of the graph (it drops by at most the cost of
    each move onto a passable cell), and on inputs for which the additions
    and comparisons of the search are exact in doubles (no diagonal
    movement, weights that are non-negative integers, integer heuristic
    values, the sum of all weights plus the absolute value of any heuristic
    value at most 2^53), whenever the goal can be reached from the start
    node, [search] returns a path from the start node to the goal whose
    cost, the sum of the step costs given by [getNodeCost], is the least
    among all such paths; and every [g], [h] and [f] it leaves in a node
    is an integer of absolute value at most 2^53. *)
Theorem search_returns_a_cheapest_path_for_a_consistent_heuristic (gr : Graph)
    (start end_ : ref) (closest : bool) (heuristic : option heuristic_fn) (q : list ref) :
  graph_wfb gr = true ->
  (start < length (nodes gr))%nat -> (end_ < length (nodes gr))%nat ->
  exact_in_doublesb gr (heuristic_or_default heuristic) end_ = true ->
  consistentb gr (heuristic_or_default heuristic) end_ = true ->
  valid_path gr start q = true -> path_end start q = end_ ->
  exists path st, search gr start end_ closest heuristic = Ok (path, st) /\
    valid_path gr start path = true /\ path_end start path = end_ /\
    (forall q', valid_path gr start q' = true -> path_end start q' = end_ ->
       (path_cost gr start path <= path_cost gr start q')%Q) /\
    (forall r n, nodes (st_graph st) !! r = Some n ->
       integer_upto (2 ^ 53) (Node.g n) /\ integer_upto (2 ^ 53) (Node.h n) /\
       integer_upto (2 ^ 53) (Node.f n)).
Proof.
  intros Hwf Hs He Hex Hc Hq Hqe.
  exact (search_optimal_exact gr start end_ closest heuristic q Hwf Hs He Hex Hc Hq Hqe).
Qed.

Lemma search_returns_a_cheapest_path_for_a_consistent_heuristic_witness :
  let gr := Graph_new [[1; 3; 1]; [1; 1; 1]; [0; 2; 4]]%Q false in
  exists path st, search gr 0%nat 8%nat false None = Ok (path, st) /\
    valid_path gr 0%nat path = true /\ path_end 0%nat path = 8%nat /\
    (forall q', valid_path gr 0%nat q' = true -> path_end 0%nat q' = 8%nat ->
       (path_cost gr 0%nat path <= path_cost gr 0%nat q')%Q) /\
    (forall r n, nodes (st_graph st) !! r = Some n ->
       integer_upto (2 ^ 53) (Node.g n) /\ integer_upto (2 ^ 53) (Node.h n) /\
       integer_upto (2 ^ 53) (Node.f n)).
Proof.
  intros gr.
  apply (search_returns_a_cheapest_path_for_a_consistent_heuristic gr 0%nat 8%nat false None
           [3; 4; 5; 8]%nat); [reflexivity | simpl; lia | simpl; lia | | | |];
    vm_compute; reflexivity.
Defined.

(** X15.  On a well-formed graph without diagonal movement in which every
    cell is a wall or weighs at least 1, and on inputs for which the
    arithmetic of the search is exact in doubles (integer weights, the sum
    of all weights plus any Manhattan distance to the goal at most 2^53),
    [search] with the default heuristic returns a cheapest path whenever
    the goal can be reached. *)
Theorem search_with_the_default_heuristic_finds_a_cheapest_path (gr : Graph)
    (start end_ : ref) (closest : bool) (q : list ref) :
  graph_wfb gr = true -> diagonal gr = false -> weights_at_least_oneb gr = true ->
  exact_in_doublesb gr manhattan end_ = true ->
  (start < length (nodes gr))%nat -> (end_ < length (nodes gr))%nat ->
  valid_path gr start q = true -> path_end start q = end_ ->
  exists path st, search gr start end_ closest None = Ok (path, st) /\
    valid_path gr start path = true /\ path_end start path = end_ /\
    (forall q', valid_path gr start q' = true -> path_end start q' = end_ ->
       (path_cost gr start path <= path_cost gr start q')%Q) /\
    (forall r n, nodes (st_graph st) !! r = Some n ->
       integer_upto (2 ^ 53) (Node.g n) /\ integer_upto (2 ^ 53) (Node.h n) /\
       integer_upto (2 ^ 53) (Node.f n)).
Proof.
  intros Hwf Hdiag Hw Hex Hs He Hq Hqe.
  apply (search_optimal_exact gr start end_ closest None q Hwf Hs He); try done.
  by apply manhattan_consistent.
Qed.

Lemma search_with_the_default_heuristic_finds_a_cheapest_path_witness :
  let gr := Graph_new [[1; 7; 1; 1]; [2; 0; 3; 1]; [1; 1; 1; 9]]%Q false in
  exists path st, search gr 0%nat 11%nat true None = Ok (path, st) /\
    valid_path gr 0%nat path = true /\ path_end 0%nat path = 11%nat /\
    (forall q', valid_path gr 0%nat q' = true -> path_end 0%nat q' = 11%nat ->
       (path_cost gr 0%nat path <= path_cost gr 0%nat q')%Q) /\
    (forall r n, nodes (st_graph st) !! r = Some n ->
       integer_upto (2 ^ 53) (Node.g n) /\ integer_upto (2 ^ 53) (Node.h n) /\
       integer_upto (2 ^ 53) (Node.f n)).
Proof.
  intros gr.
  apply (search_with_the_default_heuristic_finds_a_cheapest_path gr 0%nat 11%nat true
           [4; 8; 9; 10; 11]%nat); try reflexivity; simpl; lia.
Defined.
